(** * The stack printer of elfutils (src/stack.c): frame collection,
      symbol resolution, frame printing and exit status.

    The program's globals, the frame buffer, the output streams and the
    providers it consumes (libdwfl, libdw, the demangler, the allocator) are
    embedded as records and functions; every function of stack.c that takes
    part in collecting or printing frames is translated with explicit state
    passing. *)

From Stdlib Require Import ZArith Ascii String.
From stdpp Require Import base numbers list strings pretty.

Local Open Scope Z_scope.

(** ** Machine integers *)

Module CInt.

(** [int] is 32 bits wide: the value of an [int] expression is kept in
    [-2^31, 2^31) by two's-complement wrap-around. *)
Definition INT_MAX : Z := 2147483647.

Definition wrap_int (x : Z) : Z := (x + 2 ^ 31) mod 2 ^ 32 - 2 ^ 31.

(** [unsigned] conversion of an [int] (the [%u] conversion of printf). *)
Definition to_unsigned (x : Z) : Z := x mod 2 ^ 32.

(** [Dwarf_Addr], [uint64_t] and [size_t] are 64 bits wide, unsigned. *)
Definition wrap_u64 (x : Z) : Z := x mod 2 ^ 64.

Definition in_int (x : Z) : Prop := - 2 ^ 31 <= x <= INT_MAX.
Definition in_u64 (x : Z) : Prop := 0 <= x < 2 ^ 64.

End CInt.
Export CInt.

(** ** printf conversions *)

Module Fmt.

Definition hex_digit (d : Z) : ascii :=
  if d <? 10 then ascii_of_nat (Z.to_nat (48 + d))
  else ascii_of_nat (Z.to_nat (87 + d)).

(** The hexadecimal digits of [x], most significant first; [fuel] bounds the
    number of digits (16 are enough below [2^64]). *)
Fixpoint hex_go (fuel : nat) (x : Z) (acc : string) : string :=
  match fuel with
  | O => acc
  | S fuel' =>
      let acc' := String (hex_digit (x mod 16)) acc in
      if x / 16 =? 0 then acc' else hex_go fuel' (x / 16) acc'
  end.

(** [%x] / [PRIx64] / [PRIx8]. *)
Definition hex (x : Z) : string := hex_go 16 x "".

Fixpoint replicate_char (n : nat) (c : ascii) : string :=
  match n with
  | O => ""
  | S n' => String c (replicate_char n' c)
  end.

(** Padding on the left up to a minimum field width. *)
Definition pad_left (c : ascii) (width : Z) (s : string) : string :=
  replicate_char (Z.to_nat width - String.length s) c +:+ s.

(** Padding on the right ([-] flag). *)
Definition pad_right (c : ascii) (width : Z) (s : string) : string :=
  s +:+ replicate_char (Z.to_nat width - String.length s) c.

(** ["%0*" PRIx64] with the field width given as an argument. *)
Definition hex0 (width : Z) (x : Z) : string := pad_left "0" width (hex x).

(** [%d] and [%lld]. *)
Definition dec (x : Z) : string := pretty x.

(** [%-2u] of an [int] argument. *)
Definition unsigned_left2 (x : Z) : string :=
  pad_right " " 2 (pretty (to_unsigned x)).

(** [%4s]. *)
Definition str4 (s : string) : string := pad_left " " 4 s.

(** ["%02" PRIx8]. *)
Definition hex02 (b : Z) : string := pad_left "0" 2 (hex (b mod 256)).

Definition newline : string := String (ascii_of_nat 10) "".

End Fmt.

(** ** Data model *)

(** [struct frame]: one captured (program counter, activation flag) pair. *)
Record struct_frame := mk_frame { pc : Z; isactivation : bool }.

(** [struct frames]: the frame buffer.  [frame] is the heap array; its length
    is the number of slots the allocator handed out. *)
Record struct_frames := mk_frames {
  frames : Z;
  allocated : Z;
  frame : list struct_frame
}.

(** [sizeof (struct frame)] on an LP64 target. *)
Definition sizeof_struct_frame : Z := 16.

(** Content of a slot that was allocated and never written. *)
Definition uninit_frame : struct_frame := mk_frame 0 false.

(** The options set by [parse_opt] (file-scope statics of stack.c) and the
    build-time switch [USE_DEMANGLE] of config.h. *)
Record Options := mk_options {
  show_activation : bool;
  show_module : bool;
  show_build_id : bool;
  show_source : bool;
  show_one_tid : bool;
  show_quiet : bool;
  show_raw : bool;
  show_modules : bool;
  show_debugname : bool;
  show_inlines : bool;
  maxframes : Z;
  pid : Z;
  USE_DEMANGLE : bool
}.

(** The static initialisers of stack.c, for a process [p]. *)
Definition default_options (p : Z) (demangle : bool) : Options :=
  mk_options false false false false false false false false false false
             256 p demangle.

(** Exit codes. *)
Definition EXIT_OK : Z := 0.
Definition EXIT_ERROR : Z := 1.
Definition EXIT_BAD : Z := 2.
Definition EXIT_USAGE : Z := 64.

(** Callback return values (libdw.h) and the constants of dwarf.h and elf.h
    that stack.c uses. *)
Definition DWARF_CB_OK : Z := 0.
Definition DWARF_CB_ABORT : Z := 1.
Definition DW_TAG_entry_point : Z := 3.
Definition DW_TAG_lexical_block : Z := 11.
Definition DW_TAG_compile_unit : Z := 17.
Definition DW_TAG_inlined_subroutine : Z := 29.
Definition DW_TAG_subprogram : Z := 46.
Definition DW_AT_call_column : Z := 87.
Definition DW_AT_call_file : Z := 88.
Definition DW_AT_call_line : Z := 89.
Definition DW_AT_linkage_name : Z := 110.
Definition DW_AT_MIPS_linkage_name : Z := 8199.
Definition ELFCLASS32 : Z := 1.
Definition ELFCLASS64 : Z := 2.
Definition ENOMEM : Z := 12.

(** *** The debug-information provider (libdw, libdwfl, libelf)

    A NULL pointer is [None]. *)

Record Dwarf_Attribute := mk_attr {
  dwarf_formstring : option string;
  dwarf_formudata : option Z
}.

Record Dwarf_Die := mk_die {
  die_offset : Z;
  dwarf_tag : Z;
  dwarf_attr : Z -> option Dwarf_Attribute;
  dwarf_attr_integrate : Z -> option Dwarf_Attribute;
  dwarf_diename : option string
}.

Record Dwarf_Files := mk_files { dwarf_filesrc : Z -> option string }.

Record GElf_Ehdr := mk_ehdr { e_ident_EI_CLASS : Z }.
Record Elf := mk_elf { gelf_getehdr : option GElf_Ehdr }.

(** Result of [dwfl_lineinfo]: file name, line, column. *)
Record Dwfl_Line := mk_line {
  dwfl_lineinfo : option (string * Z * Z)
}.

Record Dwfl_Module := mk_module {
  dwfl_module_getelf : option Elf;
  dwfl_module_getdwarf : bool;
  (* dwfl_module_info: returned name, start, end, main file, debug file *)
  dwfl_module_info : option string;
  module_start : Z;
  module_end : Z;
  module_mainfile : option string;
  module_debugfile : option string;
  (* dwfl_module_build_id: the id bytes; the empty list is id_len <= 0 *)
  dwfl_module_build_id : list Z;
  dwfl_module_addrname : Z -> option string;
  (* dwfl_module_addrdie: the CU DIE and the bias *)
  dwfl_module_addrdie : Z -> option (Dwarf_Die * Z);
  dwfl_module_getsrc : Z -> option Dwfl_Line
}.

(** One state of the unwinder, as [dwfl_frame_pc] sees it: either a program
    counter with its activation flag, or a failure with its error code. *)
Inductive Dwfl_Frame :=
| Frame_pc (pc : Z) (isactivation : bool)
| Frame_nopc (errno : Z).

(** A thread of the target: its id, the states the unwinder passes through,
    and how unwinding ends after the last of them (0: no more frames,
    otherwise the libdwfl error code). *)
Record Dwfl_Thread := mk_thread {
  dwfl_thread_tid : Z;
  thread_unwound : list Dwfl_Frame;
  thread_end_errno : Z
}.

(** Everything the program asks of its environment. *)
Record Dwfl := mk_dwfl {
  dwfl_pid : Z;
  dwfl_addrmodule : Z -> option Dwfl_Module;
  (* dwfl_getmodules: the modules reported, with name and start *)
  dwfl_modules : list (Dwfl_Module * string * Z);
  dwfl_getmodules_result : Z;
  dwfl_threads : list Dwfl_Thread;
  dwfl_getthreads_result : Z;
  dwfl_errno_no_thread : Z;
  dwfl_errmsg : Z -> string;
  (* scope chains, innermost first; None is the error return -1 *)
  dwarf_getscopes : option Dwarf_Die -> Z -> option (list Dwarf_Die);
  dwarf_getscopes_die : Dwarf_Die -> option (list Dwarf_Die);
  dwarf_getsrcfiles : option Dwarf_Die -> option Dwarf_Files;
  (* __cxa_demangle: Some is status 0 *)
  cxa_demangle : string -> option string;
  (* the allocator: does a request of that many bytes succeed *)
  alloc_ok : Z -> bool;
  strerror : Z -> string
}.

(** *** Program state

    The mutable statics of stack.c ([frames_shown], the [width] cache of
    [get_addr_width], [demangle_buffer]), glibc's [error_message_count], and
    the two output streams as the sequence of records written.  [demangled]
    logs the names handed to the demangler. *)
Record Globals := mk_globals {
  frames_shown : bool;
  width : Z;
  demangle_buffer : option string;
  error_message_count : nat;
  stdout : list string;
  stderr : list string;
  demangled : list string
}.

Definition initial_globals : Globals :=
  mk_globals false 0 None 0 [] [] [].

Definition set_frames_shown (b : bool) (st : Globals) : Globals :=
  mk_globals b (width st) (demangle_buffer st) (error_message_count st)
             (stdout st) (stderr st) (demangled st).

Definition set_width (w : Z) (st : Globals) : Globals :=
  mk_globals (frames_shown st) w (demangle_buffer st) (error_message_count st)
             (stdout st) (stderr st) (demangled st).

(** One record written to standard output. *)
Definition printf (s : string) (st : Globals) : Globals :=
  mk_globals (frames_shown st) (width st) (demangle_buffer st)
             (error_message_count st) (stdout st ++ [s]) (stderr st)
             (demangled st).

(** A call of the demangler: the name is logged, and on success the result
    becomes the new [demangle_buffer]. *)
Definition call_demangler (name : string) (r : option string) (st : Globals)
  : Globals :=
  mk_globals (frames_shown st) (width st)
             (match r with Some d => Some d | None => demangle_buffer st end)
             (error_message_count st) (stdout st) (stderr st)
             (demangled st ++ [name]).

(** How a run can end other than by falling through: [exit], [abort], or a
    store outside the frame buffer. *)
Inductive Stop :=
| Exit (status : Z)
| Abort
| Undefined.

Inductive Res (A : Type) :=
| Ret (a : A) (st : Globals)
| Halt (s : Stop) (st : Globals).
Arguments Ret {A} a st.
Arguments Halt {A} s st.

(** glibc's [error (status, errnum, message)]: it writes the message
    (followed by the error string when [errnum] is not zero), counts it in
    [error_message_count], and terminates the process when [status] is not
    zero. *)
Definition error_report (env : Dwfl) (errnum : Z) (msg : string)
  (st : Globals) : Globals :=
  let text := if errnum =? 0 then msg else msg +:+ ": " +:+ strerror env errnum in
  mk_globals (frames_shown st) (width st) (demangle_buffer st)
             (S (error_message_count st)) (stdout st) (stderr st ++ [text])
             (demangled st).

Definition error {A : Type} (env : Dwfl) (status errnum : Z) (msg : string)
  (a : A) (st : Globals) : Res A :=
  let st' := error_report env errnum msg st in
  if status =? 0 then Ret a st' else Halt (Exit status) st'.

(** ** The functions of stack.c *)

(** [get_addr_width]: the field width of addresses, cached in the static
    [width] (lines 108-129). *)
Definition get_addr_width (mod_ : option Dwfl_Module) (st : Globals)
  : Z * Globals :=
  let w := width st in
  let w :=
    match mod_ with
    | Some m =>
        if w =? 0 then
          match dwfl_module_getelf m with
          | Some elf =>
              match gelf_getehdr elf with
              | Some ehdr =>
                  if e_ident_EI_CLASS ehdr =? ELFCLASS32 then 8 else 16
              | None => w
              end
          | None => w
          end
        else w
    | None => w
    end in
  let w := if w =? 0 then 16 else w in
  (w, set_width w st).

(** [basename] (GNU version): what follows the last slash. *)
Definition has_slash (s : string) : bool :=
  existsb (Ascii.eqb "/") (list_ascii_of_string s).

Fixpoint basename (s : string) : string :=
  match s with
  | EmptyString => EmptyString
  | String c rest =>
      if has_slash rest then basename rest
      else if Ascii.eqb c "/" then rest else s
  end.

(** The build-id bytes, each as two hexadecimal digits (the do-while loops of
    [module_callback] and [print_frame]). *)
Definition build_id_hex (id : list Z) : string :=
  String.concat "" (map Fmt.hex02 id).

(** [module_callback] (lines 131-175); it always returns DWARF_CB_OK. *)
Definition module_callback (mod_ : Dwfl_Module) (name : string) (start : Z)
  (st : Globals) : Z * Globals :=
  let elf := dwfl_module_getelf mod_ in
  let dwarf := dwfl_module_getdwarf mod_ in
  let modname := dwfl_module_info mod_ in
  let '(end_, mainfile, debugfile) :=
    match modname with
    | Some n =>
        if String.eqb n name
        then (module_end mod_, module_mainfile mod_, module_debugfile mod_)
        else (wrap_u64 (start + 1), None, None)
    | None => (wrap_u64 (start + 1), None, None)
    end in
  let '(w, st) := get_addr_width (Some mod_) st in
  let st := printf ("0x" +:+ Fmt.hex0 w start +:+ "-0x" +:+ Fmt.hex0 w end_
                    +:+ " " +:+ basename name +:+ Fmt.newline) st in
  let id := dwfl_module_build_id mod_ in
  let st := match id with
            | [] => st
            | _ => printf ("  [" +:+ build_id_hex id +:+ "]" +:+ Fmt.newline) st
            end in
  let st := match elf with
            | Some _ => printf ("  " +:+ default "-" mainfile +:+ Fmt.newline) st
            | None => st
            end in
  let st := if dwarf
            then printf ("  " +:+ default "-" debugfile +:+ Fmt.newline) st
            else st in
  (DWARF_CB_OK, st).

(** [realloc] of the frame array to [bytes] bytes: the old slots are kept and
    the new ones are unwritten. *)
Definition realloc (env : Dwfl) (buf : list struct_frame) (bytes : Z)
  : option (list struct_frame) :=
  if alloc_ok env bytes
  then let n := Z.to_nat (bytes / sizeof_struct_frame) in
       Some (take n buf ++ replicate (n - length buf) uninit_frame)
  else None.

Definition malloc (env : Dwfl) (bytes : Z) : option (list struct_frame) :=
  realloc env [] bytes.

(** [frame_callback] (lines 177-200).  The store through
    [&frames->frame[nr]] is outside the array when [nr] is not an index of
    it. *)
Definition frame_callback (opts : Options) (env : Dwfl) (state : Dwfl_Frame)
  (fs : struct_frames) (st : Globals) : Res (Z * struct_frames) :=
  let nr := frames fs in
  match state with
  | Frame_nopc _ => Ret (-1, fs) st
  | Frame_pc p act =>
      if (nr <? 0) || (Z.of_nat (length (frame fs)) <=? nr)
      then Halt Undefined st
      else
        let buf := <[Z.to_nat nr := mk_frame p act]> (frame fs) in
        let n := wrap_int (frames fs + 1) in
        if n =? maxframes opts
        then Ret (DWARF_CB_ABORT, mk_frames n (allocated fs) buf) st
        else if n =? allocated fs
        then
          let a := wrap_int (allocated fs * 2) in
          match realloc env buf (wrap_u64 (sizeof_struct_frame * a)) with
          | Some buf' => Ret (DWARF_CB_OK, mk_frames n a buf') st
          | None =>
              error env EXIT_BAD ENOMEM "realloc frames.frame"
                    (DWARF_CB_OK, mk_frames n a buf) st
          end
        else Ret (DWARF_CB_OK, mk_frames n (allocated fs) buf) st
  end.

(** [die_name] (lines 202-217). *)
Definition die_name (die : Dwarf_Die) : option string :=
  let attr :=
    match dwarf_attr_integrate die DW_AT_MIPS_linkage_name with
    | Some a => Some a
    | None => dwarf_attr_integrate die DW_AT_linkage_name
    end in
  match attr ≫= dwarf_formstring with
  | Some name => Some name
  | None => dwarf_diename die
  end.

(** *** [print_frame] (lines 219-320), by segment *)

(** Lines 225-229: frame number, address and activation mark. *)
Definition frame_head (opts : Options) (w nr pc_ : Z) (isact : bool) : string :=
  let text := "#" +:+ Fmt.unsigned_left2 nr +:+ " 0x" +:+ Fmt.hex0 w pc_ in
  if show_activation opts
  then text +:+ Fmt.str4 (if negb isact then "- 1" else "")
  else text.

(** Line 235: the test for the GNU v3 ABI prefix. *)
Definition is_mangled (symname : string) : bool := String.prefix "_Z" symname.

(** Lines 231-245: the name that is printed, after the optional demangling. *)
Definition frame_symname (opts : Options) (env : Dwfl) (symname : string)
  (st : Globals) : string * Globals :=
  if USE_DEMANGLE opts && negb (show_raw opts) && is_mangled symname
  then
    let r := cxa_demangle env symname in
    (match r with Some dsymname => dsymname | None => symname end,
     call_demangler symname r st)
  else (symname, st).

(** Lines 247-255: the module name. *)
Definition frame_module (opts : Options) (mod_ : option Dwfl_Module) : string :=
  let fname := mod_ ≫= dwfl_module_info in
  if show_module opts
  then match fname with Some f => " - " +:+ f | None => "" end
  else "".

(** Lines 257-271: build-id, load address and offset. *)
Definition frame_build_id (opts : Options) (mod_ : option Dwfl_Module)
  (pc_adjusted : Z) : string :=
  if show_build_id opts
  then match mod_ with
       | Some m =>
           match dwfl_module_build_id m with
           | [] => ""
           | id =>
               Fmt.newline +:+ "    [" +:+ build_id_hex id +:+ "]@0x"
               +:+ Fmt.hex (module_start m) +:+ "+0x"
               +:+ Fmt.hex (wrap_u64 (pc_adjusted - module_start m))
           end
       | None => ""
       end
  else "".

(** Lines 275-306: file, line and column, from the call attributes of [die]
    when there is one, else from the line table of the module. *)
Definition frame_source_lookup (env : Dwfl) (mod_ : option Dwfl_Module)
  (pc_adjusted : Z) (cudie die : option Dwarf_Die) : option string * Z * Z :=
  match die with
  | Some d =>
      match dwarf_getsrcfiles env cudie with
      | Some files =>
          match dwarf_attr d DW_AT_call_file ≫= dwarf_formudata with
          | Some val =>
              let sname := dwarf_filesrc files val in
              match dwarf_attr d DW_AT_call_line ≫= dwarf_formudata with
              | Some val =>
                  let line := wrap_int val in
                  match dwarf_attr d DW_AT_call_column ≫= dwarf_formudata with
                  | Some val => (sname, line, wrap_int val)
                  | None => (sname, line, -1)
                  end
              | None => (sname, -1, -1)
              end
          | None => (None, -1, -1)
          end
      | None => (None, -1, -1)
      end
  | None =>
      match mod_ ≫= (λ m, dwfl_module_getsrc m pc_adjusted) with
      | Some lineobj =>
          match dwfl_lineinfo lineobj with
          | Some (sname, line, col) => (Some sname, line, col)
          | None => (None, -1, -1)
          end
      | None => (None, -1, -1)
      end
  end.

(** Lines 273-318. *)
Definition frame_source (opts : Options) (env : Dwfl)
  (mod_ : option Dwfl_Module) (pc_adjusted : Z) (cudie die : option Dwarf_Die)
  : string :=
  if show_source opts
  then
    let '(sname, line, col) :=
      frame_source_lookup env mod_ pc_adjusted cudie die in
    match sname with
    | Some s =>
        Fmt.newline +:+ "    " +:+ s
        +:+ (if 0 <? line
             then ":" +:+ Fmt.dec line
                  +:+ (if 0 <? col then ":" +:+ Fmt.dec col else "")
             else "")
    | None => ""
    end
  else "".

(** What follows the name on the frame's record. *)
Definition frame_tail (opts : Options) (env : Dwfl)
  (mod_ : option Dwfl_Module) (pc_adjusted : Z) (cudie die : option Dwarf_Die)
  : string :=
  frame_module opts mod_ +:+ frame_build_id opts mod_ pc_adjusted
  +:+ frame_source opts env mod_ pc_adjusted cudie die +:+ Fmt.newline.

Definition print_frame (opts : Options) (env : Dwfl) (nr pc_ : Z)
  (isact : bool) (pc_adjusted : Z) (mod_ : option Dwfl_Module)
  (symname : option string) (cudie die : option Dwarf_Die) (st : Globals)
  : Globals :=
  let '(w, st) := get_addr_width mod_ st in
  let head := frame_head opts w nr pc_ isact in
  let '(name, st) :=
    match symname with
    | Some s => let '(s', st') := frame_symname opts env s st in
                (" " +:+ s', st')
    | None => ("", st)
    end in
  printf (head +:+ name +:+ frame_tail opts env mod_ pc_adjusted cudie die) st.

(** The tags of function-like scopes (lines 344-346 and 399-401). *)
Definition is_function_tag (tag : Z) : bool :=
  (tag =? DW_TAG_subprogram) || (tag =? DW_TAG_inlined_subroutine)
  || (tag =? DW_TAG_entry_point).

(** The loop of [print_inline_frames] (lines 340-358) over [scopes[i..]];
    it returns the frame number reached. *)
Fixpoint print_inline_loop (opts : Options) (env : Dwfl)
  (scopes : list Dwarf_Die) (last_scope : Dwarf_Die) (nr pc_ : Z)
  (isact : bool) (pc_adjusted : Z) (mod_ : option Dwfl_Module)
  (cudie : option Dwarf_Die) (st : Globals) : Z * Globals :=
  match scopes with
  | [] => (nr, st)
  | scope :: rest =>
      if (maxframes opts =? 0) || (nr <? maxframes opts)
      then
        let tag := dwarf_tag scope in
        if negb (is_function_tag tag)
        then print_inline_loop opts env rest last_scope nr pc_ isact
                               pc_adjusted mod_ cudie st
        else
          let symname := die_name scope in
          let st := print_frame opts env nr pc_ isact pc_adjusted mod_ symname
                                cudie (Some last_scope) st in
          let nr := wrap_int (nr + 1) in
          if tag =? DW_TAG_subprogram
          then (nr, st)
          else print_inline_loop opts env rest scope nr pc_ isact pc_adjusted
                                 mod_ cudie st
      else (nr, st)
  end.

(** [print_inline_frames] (lines 322-361). *)
Definition print_inline_frames (opts : Options) (env : Dwfl) (nr pc_ : Z)
  (isact : bool) (pc_adjusted : Z) (mod_ : option Dwfl_Module)
  (symname : option string) (cudie : option Dwarf_Die) (die : Dwarf_Die)
  (st : Globals) : Z * Globals :=
  match dwarf_getscopes_die env die with
  | Some (scope0 :: rest) =>
      let st := print_frame opts env nr pc_ isact pc_adjusted mod_ symname
                            None None st in
      print_inline_loop opts env rest scope0 (wrap_int (nr + 1)) pc_ isact
                        pc_adjusted mod_ cudie st
  | _ => (nr, st)
  end.

(** *** [print_frames] (lines 363-454) *)

(** Lines 376 and 435: the address used for lookups. *)
Definition pc_adjusted_of (pc_ : Z) (isact : bool) : Z :=
  wrap_u64 (pc_ - (if isact then 0 else 1)).

(** Lines 395-409: the first function-like DIE with a name in scope. *)
Fixpoint find_function_scope (scopes : list Dwarf_Die)
  : option string * option Dwarf_Die :=
  match scopes with
  | [] => (None, None)
  | scope :: rest =>
      let symname :=
        if is_function_tag (dwarf_tag scope) then die_name scope else None in
      match symname with
      | Some _ => (symname, Some scope)
      | None => find_function_scope rest
      end
  end.

(** Lines 379-415: PC -> SYMNAME, with the scope DIE and the CU DIE found on
    the way. *)
Definition frame_resolve (opts : Options) (env : Dwfl)
  (mod_ : option Dwfl_Module) (pc_adjusted : Z)
  : option string * option Dwarf_Die * option Dwarf_Die :=
  match mod_ with
  | Some m =>
      if negb (show_quiet opts)
      then
        let '(symname, die, cudie) :=
          if show_debugname opts
          then
            let r := dwfl_module_addrdie m pc_adjusted in
            let cudie := fst <$> r in
            let bias := match r with Some (_, b) => b | None => 0 end in
            let scopes :=
              dwarf_getscopes env cudie (wrap_u64 (pc_adjusted - bias)) in
            let '(symname, die) := find_function_scope (default [] scopes) in
            (symname, die, cudie)
          else (None, None, None) in
        let symname :=
          match symname with
          | Some s => Some s
          | None => dwfl_module_addrname m pc_adjusted
          end in
        (symname, die, cudie)
      else (None, None, None)
  | None => (None, None, None)
  end.

(** Lines 374-422: the body of the loop for one captured frame. *)
Definition print_frames_body (opts : Options) (env : Dwfl) (f : struct_frame)
  (frame_nr : Z) (st : Globals) : Z * Globals :=
  let pc_ := pc f in
  let isact := isactivation f in
  let pc_adjusted := pc_adjusted_of pc_ isact in
  let mod_ := dwfl_addrmodule env pc_adjusted in
  let '(symname, die, cudie) := frame_resolve opts env mod_ pc_adjusted in
  match (if show_inlines opts then die else None) with
  | Some d =>
      print_inline_frames opts env frame_nr pc_ isact pc_adjusted mod_ symname
                          cudie d st
  | None =>
      (wrap_int (frame_nr + 1),
       print_frame opts env frame_nr pc_ isact pc_adjusted mod_ symname
                   None None st)
  end.

(** Lines 371-423: the loop over the captured frames [frame[nr..]]. *)
Fixpoint print_frames_loop (opts : Options) (env : Dwfl)
  (captured : list struct_frame) (frame_nr : Z) (st : Globals)
  : Z * Globals :=
  match captured with
  | [] => (frame_nr, st)
  | f :: rest =>
      if (maxframes opts =? 0) || (frame_nr <? maxframes opts)
      then let '(frame_nr, st) := print_frames_body opts env f frame_nr st in
           print_frames_loop opts env rest frame_nr st
      else (frame_nr, st)
  end.

Definition msg_max_frames (tid maxframes_ : Z) : string :=
  "tid " +:+ Fmt.dec tid +:+ ": shown max number of frames ("
  +:+ Fmt.dec maxframes_ +:+ ", use -n 0 for unlimited)".

Definition msg_unwind_at (env : Dwfl) (what : string)
  (tid pc_adjusted : Z) (modname : string) (dwflerr : Z) : string :=
  what +:+ " tid " +:+ Fmt.dec tid +:+ " at 0x" +:+ Fmt.hex pc_adjusted
  +:+ " in " +:+ modname +:+ ": " +:+ dwfl_errmsg env dwflerr.

Definition msg_unwind (env : Dwfl) (what : string) (tid dwflerr : Z)
  : string :=
  what +:+ " tid " +:+ Fmt.dec tid +:+ ": " +:+ dwfl_errmsg env dwflerr.

(** The frames in use: [frame[0 .. frames-1]]. *)
Definition captured_frames (fs : struct_frames) : list struct_frame :=
  take (Z.to_nat (frames fs)) (frame fs).

Definition print_frames (opts : Options) (env : Dwfl) (fs : struct_frames)
  (tid dwflerr : Z) (what : string) (st : Globals) : Globals :=
  let st := if 0 <? frames fs then set_frames_shown true st else st in
  let st := printf ("TID " +:+ Fmt.dec tid +:+ ":" +:+ Fmt.newline) st in
  let '(frame_nr, st) :=
    print_frames_loop opts env (captured_frames fs) 0 st in
  if (0 <? frames fs) && (frame_nr =? maxframes opts)
  then error_report env 0 (msg_max_frames tid (maxframes opts)) st
  else if negb (dwflerr =? 0)
  then
    if 0 <? frames fs
    then
      let nr := to_unsigned (frames fs - 1) in
      let f := default uninit_frame (frame fs !! Z.to_nat nr) in
      let pc_adjusted := pc_adjusted_of (pc f) (isactivation f) in
      let mod_ := dwfl_addrmodule env pc_adjusted in
      let mainfile := mod_ ≫= module_mainfile in
      let modname :=
        match mod_ ≫= dwfl_module_info with
        | Some n =>
            if String.eqb n ""
            then default "<unknown>" mainfile
            else n
        | None => default "<unknown>" mainfile
        end in
      error_report env 0 (msg_unwind_at env what tid pc_adjusted modname dwflerr)
                   st
    else error_report env 0 (msg_unwind env what tid dwflerr) st
  else st.

(** *** Collection drivers *)

(** Modelled from the spec: libdwfl's [dwfl_thread_getframes], which is not
    part of stack.c (section 6, capability (b)): it steps through the frames
    of one thread and calls the callback on each; a callback result other
    than DWARF_CB_OK ends the walk and is returned; at the end of the stack
    it returns 0, or -1 when unwinding failed.  The second component is what
    [dwfl_errno] reports afterwards. *)
Fixpoint getframes_loop {A : Type}
  (callback : Dwfl_Frame -> A -> Globals -> Res (Z * A))
  (states : list Dwfl_Frame) (end_errno : Z) (arg : A) (st : Globals)
  : Res (Z * Z * A) :=
  match states with
  | [] => Ret (if end_errno =? 0 then 0 else -1, end_errno, arg) st
  | s :: rest =>
      match callback s arg st with
      | Ret (r, arg') st' =>
          if r =? DWARF_CB_OK
          then getframes_loop callback rest end_errno arg' st'
          else Ret (r, match s with Frame_nopc e => e | _ => 0 end, arg') st'
      | Halt s st' => Halt s st'
      end
  end.

Definition dwfl_thread_getframes {A : Type}
  (callback : Dwfl_Frame -> A -> Globals -> Res (Z * A))
  (thread : Dwfl_Thread) (arg : A) (st : Globals) : Res (Z * Z * A) :=
  getframes_loop callback (thread_unwound thread) (thread_end_errno thread)
                 arg st.

(** Modelled from the spec: libdwfl's [dwfl_getthread_frames], which is not
    part of stack.c: the same walk for the thread with the given id, or -1
    when the target has no such thread. *)
Definition dwfl_getthread_frames {A : Type} (env : Dwfl) (tid : Z)
  (callback : Dwfl_Frame -> A -> Globals -> Res (Z * A))
  (arg : A) (st : Globals) : Res (Z * Z * A) :=
  match List.find (λ t, dwfl_thread_tid t =? tid) (dwfl_threads env) with
  | Some t => dwfl_thread_getframes callback t arg st
  | None => Ret (-1, dwfl_errno_no_thread env, arg) st
  end.

(** Modelled from the spec: libdwfl's [dwfl_getthreads], which is not part of
    stack.c (section 6, capability (a)): it calls the callback on each thread
    of the target; a callback result other than DWARF_CB_OK ends the walk and
    is returned; otherwise the result is 0, or -1 when the enumeration
    failed. *)
Fixpoint getthreads_loop {A : Type}
  (callback : Dwfl_Thread -> A -> Globals -> Res (Z * A))
  (threads : list Dwfl_Thread) (result : Z) (arg : A) (st : Globals)
  : Res (Z * A) :=
  match threads with
  | [] => Ret (result, arg) st
  | t :: rest =>
      match callback t arg st with
      | Ret (r, arg') st' =>
          if r =? DWARF_CB_OK
          then getthreads_loop callback rest result arg' st'
          else Ret (r, arg') st'
      | Halt s st' => Halt s st'
      end
  end.

Definition dwfl_getthreads {A : Type} (env : Dwfl)
  (callback : Dwfl_Thread -> A -> Globals -> Res (Z * A))
  (arg : A) (st : Globals) : Res (Z * A) :=
  getthreads_loop callback (dwfl_threads env) (dwfl_getthreads_result env)
                  arg st.

(** Modelled from the spec: libdwfl's [dwfl_getmodules], which is not part of
    stack.c: it calls the callback on each module with its name and start
    address and returns 0, or -1 on error. *)
Fixpoint getmodules_loop
  (callback : Dwfl_Module -> string -> Z -> Globals -> Z * Globals)
  (mods : list (Dwfl_Module * string * Z)) (result : Z) (st : Globals)
  : Z * Globals :=
  match mods with
  | [] => (result, st)
  | (m, name, start) :: rest =>
      let '(r, st') := callback m name start st in
      if r =? DWARF_CB_OK
      then getmodules_loop callback rest result st'
      else (r, st')
  end.

Definition dwfl_getmodules (env : Dwfl)
  (callback : Dwfl_Module -> string -> Z -> Globals -> Z * Globals)
  (st : Globals) : Z * Globals :=
  getmodules_loop callback (dwfl_modules env) (dwfl_getmodules_result env) st.

(** The [switch] on the result of a frame walk (lines 463-473 and 717-727):
    the error code handed to [print_frames], or [abort ()]. *)
Definition getframes_err (r errno : Z) : option Z :=
  if (r =? DWARF_CB_OK) || (r =? DWARF_CB_ABORT) then Some 0
  else if r =? -1 then Some errno
  else None.

(** [thread_callback] (lines 456-476). *)
Definition thread_callback (opts : Options) (env : Dwfl)
  (thread : Dwfl_Thread) (fs : struct_frames) (st : Globals)
  : Res (Z * struct_frames) :=
  let tid := dwfl_thread_tid thread in
  let fs := mk_frames 0 (allocated fs) (frame fs) in
  match dwfl_thread_getframes (frame_callback opts env) thread fs st with
  | Ret (r, errno, fs) st =>
      match getframes_err r errno with
      | Some err =>
          Ret (DWARF_CB_OK,  fs)
              (print_frames opts env fs tid err "dwfl_thread_getframes" st)
      | None => Halt Abort st
      end
  | Halt s st => Halt s st
  end.

(** *** [main] (lines 630-763), after [argp_parse] has set the options *)

Definition process_or_core (opts : Options) : string :=
  if negb (pid opts =? 0) then "process" else "core".

(** Lines 697-703. *)
Definition main_list_modules (opts : Options) (env : Dwfl) (st : Globals)
  : Res unit :=
  if show_modules opts
  then
    let st := printf ("PID " +:+ Fmt.dec (dwfl_pid env) +:+ " - "
                      +:+ process_or_core opts +:+ " module memory map"
                      +:+ Fmt.newline) st in
    let '(r, st) := dwfl_getmodules env module_callback st in
    if negb (r =? 0)
    then error env EXIT_BAD 0 ("dwfl_getmodules: " +:+ dwfl_errmsg env (-1))
               tt st
    else Ret tt st
  else Ret tt st.

(** Lines 705-712: the frame buffer. *)
Definition initial_allocated (opts : Options) : Z :=
  if maxframes opts =? 0 then 2048 else maxframes opts.

Definition main_alloc_frames (opts : Options) (env : Dwfl) (st : Globals)
  : Res struct_frames :=
  let a := initial_allocated opts in
  match malloc env (wrap_u64 (sizeof_struct_frame * a)) with
  | Some buf => Ret (mk_frames 0 a buf) st
  | None => error env EXIT_BAD ENOMEM "malloc frames.frame"
                  (mk_frames 0 a []) st
  end.

(** Lines 714-745: one thread, or all of them. *)
Definition main_show_threads (opts : Options) (env : Dwfl)
  (fs : struct_frames) (st : Globals) : Res unit :=
  if show_one_tid opts
  then
    match dwfl_getthread_frames env (pid opts) (frame_callback opts env) fs st
    with
    | Ret (r, errno, fs) st =>
        match getframes_err r errno with
        | Some err =>
            Ret tt (print_frames opts env fs (pid opts) err
                                 "dwfl_getthread_frames" st)
        | None => Halt Abort st
        end
    | Halt s st => Halt s st
    end
  else
    let st := printf ("PID " +:+ Fmt.dec (dwfl_pid env) +:+ " - "
                      +:+ process_or_core opts +:+ Fmt.newline) st in
    match dwfl_getthreads env (thread_callback opts env) fs st with
    | Ret (r, _) st =>
        if (r =? DWARF_CB_OK) || (r =? DWARF_CB_ABORT) then Ret tt st
        else if r =? -1
        then Ret tt (error_report env 0
                       ("dwfl_getthreads: " +:+ dwfl_errmsg env (-1)) st)
        else Halt Abort st
    | Halt s st => Halt s st
    end.

(** Lines 697-757: everything before the exit status is decided. *)
Definition main_collect (opts : Options) (env : Dwfl) (st : Globals)
  : Res unit :=
  match main_list_modules opts env st with
  | Ret _ st =>
      match main_alloc_frames opts env st with
      | Ret fs st => main_show_threads opts env fs st
      | Halt s st => Halt s st
      end
  | Halt s st => Halt s st
  end.

(** Lines 759-762: the exit status. *)
Definition main_exit (env : Dwfl) (st : Globals) : Res Z :=
  if negb (frames_shown st)
  then error env EXIT_BAD 0 "Couldn't show any frames." EXIT_BAD st
  else Ret (if negb (Nat.eqb (error_message_count st) 0)
            then EXIT_ERROR else EXIT_OK) st.

Definition main (opts : Options) (env : Dwfl) : Res Z :=
  match main_collect opts env initial_globals with
  | Ret _ st => main_exit env st
  | Halt s st => Halt s st
  end.

(** The status the process ends with, when it ends by [return] from [main] or
    by [exit]. *)
Definition exit_status (r : Res Z) : option Z :=
  match r with
  | Ret code _ => Some code
  | Halt (Exit code) _ => Some code
  | Halt _ _ => None
  end.

Definition final_globals {A : Type} (r : Res A) : Globals :=
  match r with
  | Ret _ st => st
  | Halt _ st => st
  end.


(** ** Command line: [parse_opt] (lines 478-628) *)

(** The key of a short option. *)
Definition key_of (c : ascii) : Z := Z.of_N (N_of_ascii c).

(** Non-printable keys (lines 41-42), and the key and return values of
    argp.h and errno.h that [parse_opt] uses. *)
Definition OPT_DEBUGINFO : Z := 256.
Definition OPT_COREFILE : Z := 257.
Definition ARGP_KEY_END : Z := 16777217.
Definition ARGP_ERR_UNKNOWN : Z := 7.

(** Which callbacks a [Dwfl] was begun with. *)
Inductive Dwfl_Callbacks := proc_callbacks | core_callbacks.

(** The statics that [parse_opt] sets besides the options: the core file
    descriptor and its [Elf] handle, the executable, the debuginfo path and
    the session ([None] is NULL, and -1 for the descriptor). *)
Record Cmdline := mk_cmdline {
  cmd_options : Options;
  core_fd : Z;
  core : option Z;
  exec : option string;
  debuginfo_path : option string;
  dwfl : option Dwfl_Callbacks
}.

(** The statics before the first option is parsed; [demangle] is the build
    switch. *)
Definition initial_cmdline (demangle : bool) : Cmdline :=
  mk_cmdline (default_options 0 demangle) (-1) None None None None.

(** What [parse_opt] asks of libc, libelf and libdwfl. *)
Record Host := mk_host {
  (* atoi (arg), read as an int where it is stored *)
  atoi : string → Z;
  (* open (arg, O_RDONLY): the descriptor or -1, and errno after a failure *)
  open_rdonly : string → Z;
  open_errno : string → Z;
  (* elf_begin (fd, ELF_C_READ_MMAP, NULL): the handle *)
  elf_begin : Z → option Z;
  elf_errmsg : string;
  dwfl_begin : Dwfl_Callbacks → bool;
  dwfl_linux_proc_report : Z → Z;
  dwfl_core_file_report : Z → option string → Z;
  dwfl_report_end : Z;
  dwfl_linux_proc_attach : Z → Z;
  dwfl_core_file_attach : Z → Z;
  host_dwfl_pid : Z
}.

(** [p == NULL]. *)
Definition is_null {A : Type} (p : option A) : bool :=
  match p with
  | None => true
  | Some _ => false
  end.

(** glibc's [argp_error] under the flags [main] passes to [argp_parse]: the
    message goes to standard error and the process exits with
    [argp_err_exit_status], which is EX_USAGE. *)
Definition argp_error {A : Type} (msg : string) (st : Globals) : Res A :=
  Halt (Exit EXIT_USAGE)
       (mk_globals (frames_shown st) (width st) (demangle_buffer st)
                   (error_message_count st) (stdout st) (stderr st ++ [msg])
                   (demangled st)).

Definition set_options (o : Options) (c : Cmdline) : Cmdline :=
  mk_cmdline o (core_fd c) (core c) (exec c) (debuginfo_path c) (dwfl c).

Definition set_dwfl (d : option Dwfl_Callbacks) (c : Cmdline) : Cmdline :=
  mk_cmdline (cmd_options c) (core_fd c) (core c) (exec c) (debuginfo_path c)
             d.

Definition set_show_activation (b : bool) (o : Options) : Options :=
  mk_options b (show_module o) (show_build_id o) (show_source o)
             (show_one_tid o) (show_quiet o) (show_raw o) (show_modules o)
             (show_debugname o) (show_inlines o) (maxframes o) (pid o)
             (USE_DEMANGLE o).

Definition set_show_module (b : bool) (o : Options) : Options :=
  mk_options (show_activation o) b (show_build_id o) (show_source o)
             (show_one_tid o) (show_quiet o) (show_raw o) (show_modules o)
             (show_debugname o) (show_inlines o) (maxframes o) (pid o)
             (USE_DEMANGLE o).

Definition set_show_build_id (b : bool) (o : Options) : Options :=
  mk_options (show_activation o) (show_module o) b (show_source o)
             (show_one_tid o) (show_quiet o) (show_raw o) (show_modules o)
             (show_debugname o) (show_inlines o) (maxframes o) (pid o)
             (USE_DEMANGLE o).

Definition set_show_source (b : bool) (o : Options) : Options :=
  mk_options (show_activation o) (show_module o) (show_build_id o) b
             (show_one_tid o) (show_quiet o) (show_raw o) (show_modules o)
             (show_debugname o) (show_inlines o) (maxframes o) (pid o)
             (USE_DEMANGLE o).

Definition set_show_one_tid (b : bool) (o : Options) : Options :=
  mk_options (show_activation o) (show_module o) (show_build_id o)
             (show_source o) b (show_quiet o) (show_raw o) (show_modules o)
             (show_debugname o) (show_inlines o) (maxframes o) (pid o)
             (USE_DEMANGLE o).

Definition set_show_quiet (b : bool) (o : Options) : Options :=
  mk_options (show_activation o) (show_module o) (show_build_id o)
             (show_source o) (show_one_tid o) b (show_raw o) (show_modules o)
             (show_debugname o) (show_inlines o) (maxframes o) (pid o)
             (USE_DEMANGLE o).

Definition set_show_raw (b : bool) (o : Options) : Options :=
  mk_options (show_activation o) (show_module o) (show_build_id o)
             (show_source o) (show_one_tid o) (show_quiet o) b
             (show_modules o) (show_debugname o) (show_inlines o)
             (maxframes o) (pid o) (USE_DEMANGLE o).

Definition set_show_modules (b : bool) (o : Options) : Options :=
  mk_options (show_activation o) (show_module o) (show_build_id o)
             (show_source o) (show_one_tid o) (show_quiet o) (show_raw o) b
             (show_debugname o) (show_inlines o) (maxframes o) (pid o)
             (USE_DEMANGLE o).

Definition set_show_debugname (b : bool) (o : Options) : Options :=
  mk_options (show_activation o) (show_module o) (show_build_id o)
             (show_source o) (show_one_tid o) (show_quiet o) (show_raw o)
             (show_modules o) b (show_inlines o) (maxframes o) (pid o)
             (USE_DEMANGLE o).

Definition set_show_inlines (b : bool) (o : Options) : Options :=
  mk_options (show_activation o) (show_module o) (show_build_id o)
             (show_source o) (show_one_tid o) (show_quiet o) (show_raw o)
             (show_modules o) (show_debugname o) b (maxframes o) (pid o)
             (USE_DEMANGLE o).

Definition set_maxframes (n : Z) (o : Options) : Options :=
  mk_options (show_activation o) (show_module o) (show_build_id o)
             (show_source o) (show_one_tid o) (show_quiet o) (show_raw o)
             (show_modules o) (show_debugname o) (show_inlines o) n (pid o)
             (USE_DEMANGLE o).

Definition set_pid (p : Z) (o : Options) : Options :=
  mk_options (show_activation o) (show_module o) (show_build_id o)
             (show_source o) (show_one_tid o) (show_quiet o) (show_raw o)
             (show_modules o) (show_debugname o) (show_inlines o)
             (maxframes o) p (USE_DEMANGLE o).

(** Sequencing of steps that may end the process. *)
Definition and_then {A B : Type} (r : Res A) (k : A → Globals → Res B)
  : Res B :=
  match r with
  | Ret a st => k a st
  | Halt s st => Halt s st
  end.

(** Lines 575-588: the session for a live process. *)
Definition begin_proc (env : Dwfl) (host : Host) (c : Cmdline) (st : Globals)
  : Res Cmdline :=
  let p := pid (cmd_options c) in
  if negb (p =? 0)
  then
    if negb (dwfl_begin host proc_callbacks)
    then error env EXIT_BAD 0 ("dwfl_begin: " +:+ dwfl_errmsg env (-1)) c st
    else
      let c := set_dwfl (Some proc_callbacks) c in
      let err := dwfl_linux_proc_report host p in
      if err <? 0
      then error env EXIT_BAD 0
                 ("dwfl_linux_proc_report pid " +:+ Fmt.dec p +:+ ": "
                  +:+ dwfl_errmsg env (-1)) c st
      else if 0 <? err
      then error env EXIT_BAD err
                 ("dwfl_linux_proc_report pid " +:+ Fmt.dec p) c st
      else Ret c st
  else Ret c st.

(** Lines 590-597: the session for a core file. *)
Definition begin_core (env : Dwfl) (host : Host) (c : Cmdline) (st : Globals)
  : Res Cmdline :=
  match core c with
  | Some h =>
      if negb (dwfl_begin host core_callbacks)
      then error env EXIT_BAD 0 ("dwfl_begin: " +:+ dwfl_errmsg env (-1)) c st
      else
        let c := set_dwfl (Some core_callbacks) c in
        if dwfl_core_file_report host h (exec c) <? 0
        then error env EXIT_BAD 0
                   ("dwfl_core_file_report: " +:+ dwfl_errmsg env (-1)) c st
        else Ret c st
  | None => Ret c st
  end.

(** Lines 602-611: attaching to the process. *)
Definition attach_proc (env : Dwfl) (host : Host) (c : Cmdline) (st : Globals)
  : Res Cmdline :=
  let p := pid (cmd_options c) in
  if negb (p =? 0)
  then
    let err := dwfl_linux_proc_attach host p in
    if err <? 0
    then error env EXIT_BAD 0
               ("dwfl_linux_proc_attach pid " +:+ Fmt.dec p +:+ ": "
                +:+ dwfl_errmsg env (-1)) c st
    else if 0 <? err
    then error env EXIT_BAD err
               ("dwfl_linux_proc_attach pid " +:+ Fmt.dec p) c st
    else Ret c st
  else Ret c st.

(** Lines 613-617: attaching to the core file. *)
Definition attach_core (env : Dwfl) (host : Host) (c : Cmdline) (st : Globals)
  : Res Cmdline :=
  match core c with
  | Some h =>
      if dwfl_core_file_attach host h <? 0
      then error env EXIT_BAD 0
                 ("dwfl_core_file_attach: " +:+ dwfl_errmsg env (-1)) c st
      else Ret c st
  | None => Ret c st
  end.

(** Lines 562-622: the case [ARGP_KEY_END]. *)
Definition parse_end (env : Dwfl) (host : Host) (c : Cmdline) (st : Globals)
  : Res Cmdline :=
  let o := cmd_options c in
  if is_null (core c) && negb (is_null (exec c))
  then argp_error "-e EXEC needs a core given by --core." st
  else if (pid o =? 0) && show_one_tid o
  then argp_error "-1 needs a thread id given by -p." st
  else if ((pid o =? 0) && is_null (core c))
          || (negb (pid o =? 0) && negb (is_null (core c)))
  then argp_error "One of -p PID or --core COREFILE should be given." st
  else
    and_then (begin_proc env host c st) (λ c st,
    and_then (begin_core env host c st) (λ c st,
    and_then (if negb (dwfl_report_end host =? 0)
              then error env EXIT_BAD 0
                         ("dwfl_report_end: " +:+ dwfl_errmsg env (-1)) c st
              else Ret c st) (λ c st,
    and_then (attach_proc env host c st) (λ c st,
    and_then (attach_core env host c st) (λ c st,
    (* Makes sure we are properly attached.  *)
    if host_dwfl_pid host <? 0
    then error env EXIT_BAD 0
               ("dwfl_pid: " +:+ dwfl_errmsg env (-1) +:+ Fmt.newline) c st
    else Ret c st))))).

(** [parse_opt]: the result is the error code returned to argp, with the
    statics as the call leaves them. *)
Definition parse_opt (env : Dwfl) (host : Host) (key : Z) (arg : string)
  (c : Cmdline) (st : Globals) : Res (Z * Cmdline) :=
  let o := cmd_options c in
  let flag (f : Options → Options) := Ret (0, set_options (f o) c) st in
  if key =? key_of "p" then
    let c := set_options (set_pid (wrap_int (atoi host arg)) o) c in
    if pid (cmd_options c) =? 0
    then argp_error "-p PID should be a positive process id." st
    else Ret (0, c) st
  else if key =? OPT_COREFILE then
    let fd := open_rdonly host arg in
    let c := mk_cmdline o fd (core c) (exec c) (debuginfo_path c) (dwfl c) in
    if fd <? 0
    then error env EXIT_BAD (open_errno host arg)
               ("Cannot open core file '" +:+ arg +:+ "'") (0, c) st
    else
      let h := elf_begin host fd in
      let c := mk_cmdline o fd h (exec c) (debuginfo_path c) (dwfl c) in
      match h with
      | None => error env EXIT_BAD 0
                      ("core '" +:+ arg +:+ "' elf_begin: "
                       +:+ elf_errmsg host) (0, c) st
      | Some _ => Ret (0, c) st
      end
  else if key =? key_of "e" then
    Ret (0, mk_cmdline o (core_fd c) (core c) (Some arg) (debuginfo_path c)
                       (dwfl c)) st
  else if key =? OPT_DEBUGINFO then
    Ret (0, mk_cmdline o (core_fd c) (core c) (exec c) (Some arg) (dwfl c)) st
  else if key =? key_of "m" then flag (set_show_module true)
  else if key =? key_of "s" then flag (set_show_source true)
  else if key =? key_of "a" then flag (set_show_activation true)
  else if key =? key_of "d" then flag (set_show_debugname true)
  else if key =? key_of "i" then
    flag (λ o, set_show_inlines true (set_show_debugname true o))
  else if key =? key_of "v" then
    flag (λ o, set_show_inlines true
                 (set_show_activation true
                    (set_show_source true
                       (set_show_module true (set_show_debugname true o)))))
  else if key =? key_of "b" then flag (set_show_build_id true)
  else if key =? key_of "q" then flag (set_show_quiet true)
  else if key =? key_of "r" then flag (set_show_raw true)
  else if key =? key_of "1" then flag (set_show_one_tid true)
  else if key =? key_of "n" then
    let c := set_options (set_maxframes (wrap_int (atoi host arg)) o) c in
    if maxframes (cmd_options c) <? 0
    then argp_error "-n MAXFRAMES should be 0 or higher." st
    else Ret (0, c) st
  else if key =? key_of "l" then flag (set_show_modules true)
  else if key =? ARGP_KEY_END then
    and_then (parse_end env host c st) (λ c st, Ret (0, c) st)
  else Ret (ARGP_ERR_UNKNOWN, c) st.

(** The option table of [main] (lines 641-679): the key of each entry and
    whether it takes an argument. *)
Definition options : list (Z * bool) :=
  [(key_of "p", true); (OPT_COREFILE, true); (key_of "e", true);
   (OPT_DEBUGINFO, true);
   (key_of "a", false); (key_of "d", false); (key_of "i", false);
   (key_of "m", false); (key_of "s", false); (key_of "v", false);
   (key_of "q", false); (key_of "r", false); (key_of "b", false);
   (key_of "1", false); (key_of "n", true); (key_of "l", false)].

Definition option_keys : list Z := options.*1.

(** glibc's [argp_parse] (line 695), which is not part of stack.c, for a
    command line of options only: the parser is called once per option, in
    order, and then with [ARGP_KEY_END].  A call that returns an error code
    ends the parse with that code. *)
Fixpoint parse_options (env : Dwfl) (host : Host) (args : list (Z * string))
  (c : Cmdline) (st : Globals) : Res (Z * Cmdline) :=
  match args with
  | [] => parse_opt env host ARGP_KEY_END "" c st
  | (key, arg) :: rest =>
      and_then (parse_opt env host key arg c st) (λ '(r, c) st,
        if r =? 0 then parse_options env host rest c st
        else Ret (r, c) st)
  end.

Definition argp_parse (env : Dwfl) (host : Host) (args : list (Z * string))
  (demangle : bool) (st : Globals) : Res (Z * Cmdline) :=
  parse_options env host args (initial_cmdline demangle) st.

(** Lines 695-762: the program, from the command line to the exit status;
    the result of [argp_parse] is not looked at. *)
Definition stack (env : Dwfl) (host : Host) (args : list (Z * string))
  (demangle : bool) : Res Z :=
  and_then (argp_parse env host args demangle initial_globals) (λ '(_, c) st,
  and_then (main_collect (cmd_options c) env st) (λ _ st,
  main_exit env st)).

(** ** Notions used to state the properties *)

(** *** The address width cache *)

(** The class of the module, as [get_addr_width] reads it: the width that a
    call computes when nothing is cached yet. *)
Definition first_width (mod_ : option Dwfl_Module) : Z :=
  match (mod_ ≫= dwfl_module_getelf) ≫= gelf_getehdr with
  | Some ehdr => if e_ident_EI_CLASS ehdr =? ELFCLASS32 then 8 else 16
  | None => 16
  end.

(** The widths returned by successive calls of [get_addr_width]. *)
Fixpoint addr_widths (mods : list (option Dwfl_Module)) (st : Globals)
  : list Z :=
  match mods with
  | [] => []
  | m :: rest =>
      let '(w, st') := get_addr_width m st in
      w :: addr_widths rest st'
  end.

(** The width computation as the specification words it: the width comes
    from the first module of the run for which it can be determined, and
    calls made before that fall back to 16 without fixing anything. *)
Definition determines_width (mod_ : option Dwfl_Module) : bool :=
  match (mod_ ≫= dwfl_module_getelf) ≫= gelf_getehdr with
  | Some _ => true
  | None => false
  end.

Fixpoint spec_addr_widths (mods : list (option Dwfl_Module)) (cache : Z)
  : list Z :=
  match mods with
  | [] => []
  | m :: rest =>
      if cache =? 0
      then if determines_width m
           then first_width m :: spec_addr_widths rest (first_width m)
           else 16 :: spec_addr_widths rest 0
      else cache :: spec_addr_widths rest cache
  end.

Definition module_of_class (class : Z) : Dwfl_Module :=
  mk_module (Some (mk_elf (Some (mk_ehdr class)))) false None 0 0 None None []
            (λ _, None) (λ _, None) (λ _, None).

(** *** Frame records *)

(** The run report: what decides the exit status and what was diagnosed. *)
Definition same_report (st st' : Globals) : Prop :=
  frames_shown st' = frames_shown st
  ∧ error_message_count st' = error_message_count st
  ∧ stderr st' = stderr st.

(** The record [print_frame] writes for a frame whose name, after the
    optional demangling, is [name]. *)
Definition frame_record (opts : Options) (env : Dwfl) (w nr pc_ : Z)
  (isact : bool) (pc_adjusted : Z) (mod_ : option Dwfl_Module)
  (name : option string) (cudie die : option Dwarf_Die) : string :=
  frame_head opts w nr pc_ isact
  +:+ match name with Some n => " " +:+ n | None => "" end
  +:+ frame_tail opts env mod_ pc_adjusted cudie die.

(** The name [print_frame] prints for [symname]. *)
Definition printed_name (opts : Options) (env : Dwfl) (symname : string)
  : string :=
  if USE_DEMANGLE opts && negb (show_raw opts) && is_mangled symname
  then match cxa_demangle env symname with
       | Some dsymname => dsymname
       | None => symname
       end
  else symname.

(** *** Name resolution *)

(** The linkage name of a DIE: the string of its [DW_AT_MIPS_linkage_name]
    attribute or, when it has none, of its [DW_AT_linkage_name] attribute. *)
Definition linkage_name (die : Dwarf_Die) : option string :=
  match dwarf_attr_integrate die DW_AT_MIPS_linkage_name with
  | Some a => dwarf_formstring a
  | None => dwarf_attr_integrate die DW_AT_linkage_name ≫= dwarf_formstring
  end.

(** The scope chain at an address of a module, innermost first, as
    [print_frames] obtains it (lines 390-392); empty when there is none. *)
Definition scope_chain (env : Dwfl) (m : Dwfl_Module) (pc_adjusted : Z)
  : list Dwarf_Die :=
  let r := dwfl_module_addrdie m pc_adjusted in
  let bias := match r with Some (_, b) => b | None => 0 end in
  default [] (dwarf_getscopes env (fst <$> r) (wrap_u64 (pc_adjusted - bias))).

(** A scope the search of [print_frames] passes over: not function-like, or
    without a name. *)
Definition passed_over (scope : Dwarf_Die) : Prop :=
  is_function_tag (dwarf_tag scope) = false ∨ die_name scope = None.

(** The name resolution as the specification words it: the first scope with
    a function-like tag is looked for, and its linkage name, else its plain
    name, is taken; the generic lookup is used when that step is not
    requested or gave no name. *)
Definition spec_first_tagged (scopes : list Dwarf_Die) : option Dwarf_Die :=
  List.find (λ s, is_function_tag (dwarf_tag s)) scopes.

Definition spec_symname (opts : Options) (env : Dwfl) (m : Dwfl_Module)
  (pc_adjusted : Z) : option string :=
  if show_quiet opts then None
  else
    let step1 :=
      if show_debugname opts
      then spec_first_tagged (scope_chain env m pc_adjusted) ≫= die_name
      else None in
    match step1 with
    | Some n => Some n
    | None => dwfl_module_addrname m pc_adjusted
    end.

(** *** Sample targets *)

Definition no_attr : Z → option Dwarf_Attribute := λ _, None.

Definition named_die (offset tag : Z) (name : option string) : Dwarf_Die :=
  mk_die offset tag no_attr no_attr name.

(** A target without modules and without debug information, where every
    allocation succeeds. *)
Definition bare_target (p : Z) (threads : list Dwfl_Thread) : Dwfl :=
  mk_dwfl p (λ _, None) [] 0 threads 0 0 (λ _, "error") (λ _ _, None)
          (λ _, None) (λ _, None) (λ _, None) (λ _, true) (λ _, "error").

(** A module covering every address, with the given symbol lookup, whose
    debug information has one compile unit. *)
Definition debug_module (addrname : Z → option string) : Dwfl_Module :=
  mk_module (Some (mk_elf (Some (mk_ehdr ELFCLASS64)))) true (Some "a.out")
            0 (2 ^ 48) (Some "/bin/a.out") None []
            addrname
            (λ _, Some (named_die 11 DW_TAG_compile_unit (Some "a.c"), 0))
            (λ _, None).

(** A target with that one module: [scopes] is the scope chain at every
    address, [scopes_die] the chain [dwarf_getscopes_die] gives. *)
Definition debug_target (p : Z) (threads : list Dwfl_Thread)
  (addrname : Z → option string) (scopes : option (list Dwarf_Die))
  (scopes_die : Dwarf_Die → option (list Dwarf_Die))
  (demangle : string → option string) : Dwfl :=
  mk_dwfl p (λ _, Some (debug_module addrname)) [] 0 threads 0 0
          (λ _, "error") (λ _ _, scopes) scopes_die (λ _, None) demangle
          (λ _, true) (λ _, "error").

(** A demangler that knows one name. *)
Definition demangle_f (s : string) : option string :=
  if String.eqb s "_Z1fv" then Some "f()" else None.

Definition demangling_target : Dwfl :=
  debug_target 1 [] (λ _, None) None (λ _, None) demangle_f.

(** A chain whose innermost function-like scope has no name. *)
Definition nameless_inline_chain : list Dwarf_Die :=
  [named_die 40 DW_TAG_inlined_subroutine None;
   named_die 30 DW_TAG_subprogram (Some "foo");
   named_die 11 DW_TAG_compile_unit (Some "a.c")].

Definition nameless_inline_target : Dwfl :=
  debug_target 1 [] (λ _, Some "bar") (Some nameless_inline_chain)
               (λ _, None) (λ _, None).

Definition debugname_options : Options :=
  mk_options false false false false false false false false true false
             256 1 true.

(** *** Sample threads *)

(** Scenario A: three return-address frames. *)
Definition scenario_A_thread : Dwfl_Thread :=
  mk_thread 7 [Frame_pc 16400 false; Frame_pc 16416 false;
               Frame_pc 16432 false] 0.

(** Five frames, the innermost an activation. *)
Definition five_frames_thread : Dwfl_Thread :=
  mk_thread 7 [Frame_pc 16400 true; Frame_pc 16416 false;
               Frame_pc 16432 false; Frame_pc 16448 false;
               Frame_pc 16464 false] 0.

Definition options_with_maxframes (n : Z) : Options :=
  mk_options false false false false false false false false false false
             n 1 true.

(** *** Rendering and collection *)

(** Every scope lookup of the inline expansion finds at least the DIE
    itself. *)
Definition scopes_found (env : Dwfl) : Prop :=
  ∀ die, ∃ scope rest, dwarf_getscopes_die env die = Some (scope :: rest).

(** Every captured frame renders at least one frame record: inline
    expansion is off, or its scope lookups succeed. *)
Definition every_frame_rendered (opts : Options) (env : Dwfl) : Prop :=
  show_inlines opts = false ∨ scopes_found env.

(** The unwinder state that yields the frame [f]. *)
Definition frame_state (f : struct_frame) : Dwfl_Frame :=
  Frame_pc (pc f) (isactivation f).

(** The frame buffer as [main] sets it up for the ceiling [c] (and as every
    thread finds it): [c] slots. *)
Definition buffer_of (c : Z) (fs : struct_frames) : Prop :=
  allocated fs = c ∧ Z.of_nat (length (frame fs)) = c.

(** Inline expansion requested ([-i], which implies [-d]) with the ceiling
    [n]. *)
Definition inline_options (n : Z) : Options :=
  mk_options false false false false false false false false true true
             n 1 true.

Definition foo_chain : list Dwarf_Die :=
  [named_die 30 DW_TAG_subprogram (Some "foo");
   named_die 11 DW_TAG_compile_unit (Some "a.c")].

(** A target whose scope lookup for the inline expansion fails
    ([dwarf_getscopes_die] returns -1). *)
Definition failing_scopes_target (threads : list Dwfl_Thread) : Dwfl :=
  debug_target 1 threads (λ _, Some "foo") (Some foo_chain) (λ _, None)
               (λ _, None).

Definition two_frames_thread : Dwfl_Thread :=
  mk_thread 7 [Frame_pc 16400 true; Frame_pc 16416 false] 0.

Definition one_frame_thread : Dwfl_Thread :=
  mk_thread 7 [Frame_pc 16400 true] 0.

(** The buffer [main] allocates for a ceiling of [n] frames. *)
Definition fresh_buffer (n : Z) : struct_frames :=
  mk_frames 0 n (replicate (Z.to_nat n) uninit_frame).

(** The thread [t] is one the run walks: the one selected by [-1], or any
    thread of the target. *)
Definition walked_thread (opts : Options) (env : Dwfl) (t : Dwfl_Thread)
  : Prop :=
  if show_one_tid opts
  then List.find (λ t', dwfl_thread_tid t' =? pid opts) (dwfl_threads env)
       = Some t
  else t ∈ dwfl_threads env.

Definition five_frames : list struct_frame :=
  [mk_frame 16400 true; mk_frame 16416 false; mk_frame 16432 false;
   mk_frame 16448 false; mk_frame 16464 false].

(** *** Inline expansion *)

(** The enclosing scopes for which the walk of [print_inline_frames] emits a
    frame when no ceiling intervenes: the function-like ones, up to and
    including the first one tagged subprogram. *)
Fixpoint inline_walk (scopes : list Dwarf_Die) : list Dwarf_Die :=
  match scopes with
  | [] => []
  | scope :: rest =>
      if is_function_tag (dwarf_tag scope)
      then scope :: (if dwarf_tag scope =? DW_TAG_subprogram
                     then [] else inline_walk rest)
      else inline_walk rest
  end.

(** One frame record per scope of [emitted], in order; the source position
    of each is taken from the scope emitted before it. *)
Fixpoint emit_frames (opts : Options) (env : Dwfl) (emitted : list Dwarf_Die)
  (last_scope : Dwarf_Die) (nr pc_ : Z) (isact : bool) (pc_adjusted : Z)
  (mod_ : option Dwfl_Module) (cudie : option Dwarf_Die) (st : Globals)
  : Z * Globals :=
  match emitted with
  | [] => (nr, st)
  | scope :: rest =>
      emit_frames opts env rest scope (wrap_int (nr + 1)) pc_ isact
                  pc_adjusted mod_ cudie
                  (print_frame opts env nr pc_ isact pc_adjusted mod_
                               (die_name scope) cudie (Some last_scope) st)
  end.

(** How many more frames the ceiling admits at frame number [nr], out of
    [wanted]. *)
Definition ceiling_room (opts : Options) (nr : Z) (wanted : nat) : nat :=
  if maxframes opts =? 0 then wanted
  else Nat.min wanted (Z.to_nat (maxframes opts - nr)).

(** A scope that is inlined into its parent: function-like and not a
    subprogram. *)
Definition is_inlined_tag (tag : Z) : bool :=
  is_function_tag tag && negb (tag =? DW_TAG_subprogram).

(** Chains for the inline expansion: [g] inlined into [f] within a lexical
    block, and [h] inlined into [g] inlined into [f]. *)
Definition block_chain : list Dwarf_Die :=
  [named_die 50 DW_TAG_inlined_subroutine (Some "g");
   named_die 40 DW_TAG_lexical_block None;
   named_die 30 DW_TAG_subprogram (Some "f")].

Definition nested_inline_chain : list Dwarf_Die :=
  [named_die 60 DW_TAG_inlined_subroutine (Some "h");
   named_die 50 DW_TAG_inlined_subroutine (Some "g");
   named_die 30 DW_TAG_subprogram (Some "f")].

Definition chain_target (chain : list Dwarf_Die) : Dwfl :=
  debug_target 1 [] (λ _, None) (Some chain) (λ _, Some chain) (λ _, None).

(** *** Scenario A *)

(** The frame records of scenario A as the specification words them: the
    addresses shown are the adjusted ones. *)
Definition spec_scenario_A_records : list string :=
  ["#0  0x000000000000400f" +:+ Fmt.newline;
   "#1  0x000000000000401f" +:+ Fmt.newline;
   "#2  0x000000000000402f" +:+ Fmt.newline].

(** Does [t] occur in [s]? *)
Fixpoint contains (t s : string) : bool :=
  String.prefix t s
  || match s with
     | EmptyString => false
     | String _ s' => contains t s'
     end.

(** The records of a run, after the two header lines. *)
Definition frame_records (r : Res Z) : list string :=
  drop 2 (stdout (final_globals r)).

(** The records of frames printed the plain way (no name, no inline
    expansion), numbered from [nr], with the address width [w]. *)
Fixpoint plain_records (opts : Options) (env : Dwfl) (w nr : Z)
  (captured : list struct_frame) : list string :=
  match captured with
  | [] => []
  | f :: rest =>
      let a := pc_adjusted_of (pc f) (isactivation f) in
      frame_record opts env w nr (pc f) (isactivation f) a
                   (dwfl_addrmodule env a) None None None
      :: plain_records opts env w (nr + 1) rest
  end.

(** No name resolves for the frame [f]. *)
Definition no_name (env : Dwfl) (f : struct_frame) : Prop :=
  ∀ m, dwfl_addrmodule env (pc_adjusted_of (pc f) (isactivation f)) = Some m →
       dwfl_module_addrname m (pc_adjusted_of (pc f) (isactivation f)) = None.

(** The state after the records [recs] were written and the address width
    [w] was cached. *)
Definition after_records (w : Z) (recs : list string) (st : Globals)
  : Globals :=
  mk_globals (frames_shown st) w (demangle_buffer st)
             (error_message_count st) (stdout st ++ recs) (stderr st)
             (demangled st).

(** *** Fatal errors *)

(** A way of ending the process that, when it is an [exit], has status
    BAD. *)
Definition exits_bad (s : Stop) : Prop := ∀ c, s = Exit c → c = EXIT_BAD.

(** *** Output of the printing loops *)

(** A record that starts a frame: [#] and the frame number. *)
Definition is_frame_record (r : string) : Prop := String.prefix "#" r = true.

(** [st'] is [st] after the frame records [recs] were written; the run
    report is the same. *)
Definition wrote_frames (st st' : Globals) (recs : list string) : Prop :=
  stdout st' = stdout st ++ recs
  ∧ Forall is_frame_record recs
  ∧ same_report st st'.

(** *** Threads without frames *)

(** The unwinder gives no frame for the thread: the walk ends at once, or
    [dwfl_frame_pc] fails on the first state. *)
Definition yields_no_frame (t : Dwfl_Thread) : Prop :=
  match thread_unwound t with
  | Frame_pc _ _ :: _ => False
  | _ => True
  end.

(** A thread that fails on its first state with error 3, and one whose walk
    ends at once with error 5. *)
Definition failing_thread : Dwfl_Thread := mk_thread 8 [Frame_nopc 3] 0.
Definition empty_thread : Dwfl_Thread := mk_thread 9 [] 5.

(** *** Command lines *)

(** What the rest of the program relies on in the options: inline expansion
    only together with debug names, and a ceiling that is not negative. *)
Definition valid_options (o : Options) : Prop :=
  (show_inlines o = true → show_debugname o = true)
  ∧ 0 ≤ maxframes o ≤ INT_MAX.

(** The statics after a command line was accepted: exactly one input, a
    process or a core file, with the session begun for it; [-1] only with a
    process and [-e] only with a core file. *)
Definition valid_cmdline (c : Cmdline) : Prop :=
  let o := cmd_options c in
  valid_options o
  ∧ (pid o ≠ 0 ∧ core c = None ∧ dwfl c = Some proc_callbacks
     ∨ pid o = 0 ∧ is_Some (core c) ∧ dwfl c = Some core_callbacks)
  ∧ (show_one_tid o = true → pid o ≠ 0)
  ∧ (is_Some (exec c) → is_Some (core c)).

(** An argument is an option of the table; a flag is an option that takes
    no argument. *)
Definition is_option (a : Z * string) : Prop := a.1 ∈ option_keys.
Definition is_flag (a : Z * string) : Prop := (a.1, false) ∈ options.

(** How [parse_opt] may end the process: a usage error, which is not counted
    as a diagnostic, or a fatal error. *)
Definition rejected {A : Type} (st : Globals) (r : Res A) : Prop :=
  ∃ s st' msg,
    r = Halt s st'
    ∧ stdout st' = stdout st
    ∧ stderr st' = stderr st ++ [msg]
    ∧ (s = Exit EXIT_USAGE ∧ error_message_count st' = error_message_count st
       ∨ s = Exit EXIT_BAD
         ∧ error_message_count st' = S (error_message_count st)).

(** A host on which every call succeeds; [atoi] knows two numbers. *)
Definition sample_host : Host :=
  mk_host (λ s, if String.eqb s "42" then 42
                else if String.eqb s "-1" then -1 else 0)
          (λ _, 3) (λ _, 0) (λ fd, Some fd) "" (λ _, true) (λ _, 0)
          (λ _ _, 0) 0 (λ _, 0) (λ _, 0) 42.

(** *** The demangler *)

(** The options under which no name is handed to the demangler: no name is
    resolved ([-q]), names are shown raw ([-r]), or the build has no
    demangler. *)
Definition no_demangling (opts : Options) : Prop :=
  show_quiet opts = true ∨ show_raw opts = true ∨ USE_DEMANGLE opts = false.

(** The demangler was not called between [st] and [st']. *)
Definition same_demangler (st st' : Globals) : Prop :=
  demangled st' = demangled st ∧ demangle_buffer st' = demangle_buffer st.

(** *** The output of a run *)

(** The header of a thread and the header of the run. *)
Definition tid_line (tid : Z) : string :=
  "TID " +:+ Fmt.dec tid +:+ ":" +:+ Fmt.newline.

Definition pid_line (opts : Options) (env : Dwfl) : string :=
  "PID " +:+ Fmt.dec (dwfl_pid env) +:+ " - " +:+ process_or_core opts
  +:+ Fmt.newline.

(** The frame records of one thread under the ceiling of [opts]. *)
Definition thread_records (opts : Options) (recs : list string) : Prop :=
  Forall is_frame_record recs ∧ Z.of_nat (length recs) ≤ maxframes opts.

(** The output for the threads [threads], given the records of each. *)
Definition threads_output (threads : list Dwfl_Thread)
  (groups : list (list string)) : list string :=
  concat (zip_with (λ t recs, tid_line (dwfl_thread_tid t) :: recs)
                   threads groups).

(** *** The allocator *)

(** A target with one thread of five frames, on a machine where requests of
    128 bytes or more are refused. *)
Definition short_of_memory_target : Dwfl :=
  mk_dwfl 1 (λ _, None) [] 0 [five_frames_thread] 0 0 (λ _, "error")
          (λ _ _, None) (λ _, None) (λ _, None) (λ _, None)
          (λ bytes, bytes <? 128) (λ _, "Cannot allocate memory").

(** *** Module listings *)

(** The options [-l], and a target with a 32-bit module listed first and a
    64-bit module second; [dwfl_getmodules] returns [result]. *)
Definition listing_options : Options :=
  mk_options false false false false false false false true false false
             256 1 true.

Definition mixed_modules_target (result : Z) : Dwfl :=
  mk_dwfl 1 (λ _, None)
          [(module_of_class ELFCLASS32, "a.out", 4096);
           (module_of_class ELFCLASS64, "libc.so", 8192)]
          result [scenario_A_thread] 0 0 (λ _, "error") (λ _ _, None)
          (λ _, None) (λ _, None) (λ _, None) (λ _, true) (λ _, "error").

(** *** Failed walks *)

(** The module named in the diagnostic for a failed walk (lines 436-446 of
    [print_frames]): the name of the module at the address, else its main
    file, else a placeholder. *)
Definition unwind_modname (env : Dwfl) (pc_adjusted : Z) : string :=
  let mod_ := dwfl_addrmodule env pc_adjusted in
  let mainfile := mod_ ≫= module_mainfile in
  match mod_ ≫= dwfl_module_info with
  | Some n => if String.eqb n "" then default "<unknown>" mainfile else n
  | None => default "<unknown>" mainfile
  end.

(** A thread whose walk fails with error 3 after two frames. *)
Definition broken_thread : Dwfl_Thread :=
  mk_thread 5 [Frame_pc 16400 true; Frame_pc 16416 false; Frame_nopc 3;
               Frame_pc 16432 false] 0.

(** *** The frame buffer between threads *)

(** Two buffers hold the same capture: the same number of frames, the same
    capacity, and the same frames in use; the slots beyond may differ. *)
Definition same_capture (fs1 fs2 : struct_frames) : Prop :=
  frames fs1 = frames fs2
  ∧ allocated fs1 = allocated fs2
  ∧ length (frame fs1) = length (frame fs2)
  ∧ captured_frames fs1 = captured_frames fs2.

(** What a callback leaves behind, the buffer apart: its result or the way
    the process ended, and the program state. *)
Definition outcome (r : Res (Z * struct_frames)) : (Z + Stop) * Globals :=
  match r with
  | Ret (x, _) st => (inl x, st)
  | Halt s st => (inr s, st)
  end.

(** A buffer of four slots that an earlier thread has filled. *)
Definition used_buffer : struct_frames :=
  mk_frames 3 4 [mk_frame 4096 true; mk_frame 8192 false;
                 mk_frame 12288 false; mk_frame 0 false].

(** *** Diagnostics *)

(** Every diagnostic counted is one record on standard error. *)
Definition counted (st : Globals) : Prop :=
  length (stderr st) = error_message_count st.

(** What a step that starts in [st] keeps of that: the count follows the
    records, it does not go down, and it goes up when the step ends the
    process by [exit]. *)
Definition accounted {A : Type} (st : Globals) (r : Res A) : Prop :=
  counted (final_globals r)
  ∧ (error_message_count st ≤ error_message_count (final_globals r))%nat
  ∧ match r with
    | Halt (Exit _) st' =>
        (error_message_count st < error_message_count st')%nat
    | _ => True
    end.

(** ** Properties *)

(** *** Machine integers *)

Lemma wrap_int_id x : in_int x → wrap_int x = x.
Proof.
  unfold in_int, INT_MAX, wrap_int. intros H.
  rewrite Z.mod_small by lia. lia.
Qed.

Lemma wrap_u64_id x : in_u64 x → wrap_u64 x = x.
Proof. unfold in_u64, wrap_u64. intros H. apply Z.mod_small. lia. Qed.

Lemma wrap_u64_range x : in_u64 (wrap_u64 x).
Proof. unfold in_u64, wrap_u64. apply Z.mod_pos_bound. lia. Qed.

(** *** The address width cache *)

Lemma first_width_cases mod_ : first_width mod_ = 8 ∨ first_width mod_ = 16.
Proof.
  unfold first_width.
  destruct ((mod_ ≫= dwfl_module_getelf) ≫= gelf_getehdr) as [ehdr|];
    [|by right].
  destruct (e_ident_EI_CLASS ehdr =? ELFCLASS32); [by left|by right].
Qed.

Lemma get_addr_width_first mod_ st :
  width st = 0 →
  get_addr_width mod_ st = (first_width mod_, set_width (first_width mod_) st).
Proof.
  intros Hw. unfold get_addr_width, first_width. rewrite Hw.
  destruct mod_ as [m|]; simpl; [|done].
  destruct (dwfl_module_getelf m) as [elf|]; simpl; [|done].
  destruct (gelf_getehdr elf) as [ehdr|]; simpl; [|done].
  by destruct (e_ident_EI_CLASS ehdr =? ELFCLASS32).
Qed.

Lemma set_width_same st : set_width (width st) st = st.
Proof. by destruct st. Qed.

Lemma get_addr_width_cached mod_ st :
  width st ≠ 0 → get_addr_width mod_ st = (width st, st).
Proof.
  intros Hw. unfold get_addr_width. cbv zeta.
  apply Z.eqb_neq in Hw.
  destruct mod_; repeat (rewrite Hw; cbv iota); by rewrite set_width_same.
Qed.

Lemma addr_widths_cached mods st :
  width st ≠ 0 →
  addr_widths mods st = replicate (length mods) (width st).
Proof.
  revert st. induction mods as [|m mods IH]; intros st Hw; [done|].
  cbn [addr_widths]. rewrite get_addr_width_cached by done.
  rewrite IH by done. done.
Qed.

(** A call of [get_addr_width] touches nothing but the cache. *)
Lemma get_addr_width_frame mod_ st :
  let st' := (get_addr_width mod_ st).2 in
  frames_shown st' = frames_shown st
  ∧ error_message_count st' = error_message_count st
  ∧ stdout st' = stdout st ∧ stderr st' = stderr st
  ∧ demangled st' = demangled st
  ∧ demangle_buffer st' = demangle_buffer st.
Proof. by unfold get_addr_width. Qed.

(** C9 (as amended): the width is fixed by the first call of the width
    computation, whatever its module argument: 8 when that module has a
    readable ELF header of the 32-bit class, and 16 otherwise, also when the
    module is missing or its class cannot be determined.  Every later call
    returns that cached value, whatever the class of its module, and leaves
    the cache as it is. *)
Theorem get_addr_width_fixed_by_first_call :
  ∀ (m : option Dwfl_Module) (later : list (option Dwfl_Module)),
    addr_widths (m :: later) initial_globals
    = replicate (S (length later)) (first_width m)
    ∧ (first_width m = 8 ∨ first_width m = 16)
    ∧ (∀ (m' : option Dwfl_Module) (st : Globals),
         width st ≠ 0 → get_addr_width m' st = (width st, st)).
Proof.
  intros m later. split; [|split].
  - cbn [addr_widths].
    rewrite get_addr_width_first by done.
    rewrite addr_widths_cached; [done|].
    cbn [width set_width]. destruct (first_width_cases m) as [-> | ->]; done.
  - apply first_width_cases.
  - intros m' st Hw. by apply get_addr_width_cached.
Qed.

Lemma get_addr_width_fixed_by_first_call_witness :
  addr_widths [Some (module_of_class ELFCLASS32);
               Some (module_of_class ELFCLASS64); None] initial_globals
  = [8; 8; 8]
  ∧ get_addr_width (Some (module_of_class ELFCLASS64))
                   (set_width 8 initial_globals)
    = (8, set_width 8 initial_globals).
Proof.
  destruct (get_addr_width_fixed_by_first_call
              (Some (module_of_class ELFCLASS32))
              [Some (module_of_class ELFCLASS64); None])
    as (Hall & _ & Hcached).
  split; [exact Hall|].
  apply (Hcached (Some (module_of_class ELFCLASS64))
                 (set_width 8 initial_globals)).
  discriminate.
Defined.

(** C9 as stated fails: when the first call has no module, the default 16 is
    cached, and a later call with a 32-bit module returns 16, not the 8 that
    the first module with a determinable class would give. *)
Lemma get_addr_width_first_module_counterexample :
  let calls := [None; Some (module_of_class ELFCLASS32)] in
  addr_widths calls initial_globals = [16; 16]
  ∧ spec_addr_widths calls 0 = [16; 8]
  ∧ addr_widths calls initial_globals ≠ spec_addr_widths calls 0.
Proof. by vm_compute. Qed.

(** *** Strings *)

Lemma list_ascii_of_string_app s t :
  list_ascii_of_string (s +:+ t)
  = list_ascii_of_string s ++ list_ascii_of_string t.
Proof. induction s as [|c s IH]; [done|]. simpl. f_equal. exact IH. Qed.

Lemma list_ascii_of_string_inj s t :
  list_ascii_of_string s = list_ascii_of_string t → s = t.
Proof.
  intros H. rewrite <- (string_of_list_ascii_of_string s).
  rewrite <- (string_of_list_ascii_of_string t). by rewrite H.
Qed.

Lemma string_app_cancel (h a b t : string) :
  h +:+ a +:+ t = h +:+ b +:+ t → a = b.
Proof.
  intros H. apply (f_equal list_ascii_of_string) in H.
  rewrite !list_ascii_of_string_app in H.
  apply app_inv_head, app_inv_tail in H.
  by apply list_ascii_of_string_inj.
Qed.

(** *** What printing leaves alone *)

Lemma same_report_refl st : same_report st st.
Proof. by unfold same_report. Qed.

Lemma same_report_trans st1 st2 st3 :
  same_report st1 st2 → same_report st2 st3 → same_report st1 st3.
Proof.
  unfold same_report. intros (-> & -> & ->) (-> & -> & ->). done.
Qed.

Lemma frame_symname_printed opts env s st :
  (frame_symname opts env s st).1 = printed_name opts env s.
Proof.
  unfold frame_symname, printed_name.
  by destruct (USE_DEMANGLE opts && negb (show_raw opts) && is_mangled s).
Qed.

Lemma frame_symname_report opts env s st :
  same_report st (frame_symname opts env s st).2.
Proof.
  unfold frame_symname.
  by destruct (USE_DEMANGLE opts && negb (show_raw opts) && is_mangled s).
Qed.

Lemma frame_symname_stdout opts env s st :
  stdout (frame_symname opts env s st).2 = stdout st.
Proof.
  unfold frame_symname.
  by destruct (USE_DEMANGLE opts && negb (show_raw opts) && is_mangled s).
Qed.

(** [print_frame] appends exactly one record to standard output. *)
Lemma print_frame_stdout opts env nr pc_ isact pca mod_ symname cudie die st :
  stdout (print_frame opts env nr pc_ isact pca mod_ symname cudie die st)
  = stdout st
    ++ [frame_record opts env (get_addr_width mod_ st).1 nr pc_ isact pca mod_
                     (printed_name opts env <$> symname) cudie die].
Proof.
  unfold print_frame, frame_record.
  destruct (get_addr_width mod_ st) as [w st1] eqn:Hw.
  pose proof (get_addr_width_frame mod_ st) as Hf. rewrite Hw in Hf.
  cbn in Hf. destruct Hf as (_ & _ & Hout & _).
  destruct symname as [s|]; cbn.
  - destruct (frame_symname opts env s st1) as [s' st2] eqn:Hs. cbn.
    pose proof (frame_symname_printed opts env s st1) as Hp.
    pose proof (frame_symname_stdout opts env s st1) as Ho.
    rewrite Hs in Hp, Ho. cbn in Hp, Ho. by rewrite Ho, Hout, Hp.
  - by rewrite Hout.
Qed.

Lemma print_frame_report opts env nr pc_ isact pca mod_ symname cudie die st :
  same_report st
    (print_frame opts env nr pc_ isact pca mod_ symname cudie die st).
Proof.
  unfold print_frame.
  destruct (get_addr_width mod_ st) as [w st1] eqn:Hw.
  pose proof (get_addr_width_frame mod_ st) as Hf. rewrite Hw in Hf.
  cbn in Hf. destruct Hf as (H1 & H2 & _ & H3 & _).
  destruct symname as [s|]; cbn.
  - destruct (frame_symname opts env s st1) as [s' st2] eqn:Hs.
    pose proof (frame_symname_report opts env s st1) as Hr.
    rewrite Hs in Hr. destruct Hr as (R1 & R2 & R3).
    unfold same_report. cbn in *. by rewrite R1, R2, R3.
  - by unfold same_report.
Qed.

Lemma print_frame_demangled opts env nr pc_ isact pca mod_ symname cudie die
  st :
  demangled (print_frame opts env nr pc_ isact pca mod_ symname cudie die st)
  = demangled st
    ++ match symname with
       | Some s =>
           if USE_DEMANGLE opts && negb (show_raw opts) && is_mangled s
           then [s] else []
       | None => []
       end.
Proof.
  unfold print_frame.
  destruct (get_addr_width mod_ st) as [w st1] eqn:Hw.
  pose proof (get_addr_width_frame mod_ st) as Hf. rewrite Hw in Hf.
  cbn in Hf. destruct Hf as (_ & _ & _ & _ & Hd & _).
  destruct symname as [s|]; cbn.
  - unfold frame_symname.
    destruct (USE_DEMANGLE opts && negb (show_raw opts) && is_mangled s);
      cbn; rewrite Hd; [done|by rewrite app_nil_r].
  - by rewrite Hd, app_nil_r.
Qed.

(** *** Name post-processing *)

(** C5: a resolved name with the prefix [_Z] is handed to the demangler when
    raw mode is off (in a build with the demangler); when demangling succeeds
    the demangled form is what the record shows, and the record differs from
    the one with the mangled name whenever the demangled form does; when it
    fails the mangled name is shown unchanged; in neither case is an error
    recorded.  With raw mode on the mangled name is shown verbatim and the
    demangler is not called. *)
Theorem print_frame_name_postprocessing :
  ∀ (opts : Options) (env : Dwfl) (nr pc_ : Z) (isact : bool) (pca : Z)
    (mod_ : option Dwfl_Module) (s : string) (cudie die : option Dwarf_Die)
    (st : Globals),
    is_mangled s = true →
    let st' :=
      print_frame opts env nr pc_ isact pca mod_ (Some s) cudie die st in
    let record name :=
      frame_record opts env (get_addr_width mod_ st).1 nr pc_ isact pca mod_
                   (Some name) cudie die in
    same_report st st'
    ∧ (USE_DEMANGLE opts = true → show_raw opts = false →
       demangled st' = demangled st ++ [s]
       ∧ (∀ d, cxa_demangle env s = Some d →
               stdout st' = stdout st ++ [record d]
               ∧ (d ≠ s → record d ≠ record s))
       ∧ (cxa_demangle env s = None → stdout st' = stdout st ++ [record s]))
    ∧ (show_raw opts = true →
       demangled st' = demangled st ∧ stdout st' = stdout st ++ [record s]).
Proof.
  intros opts env nr pc_ isact pca mod_ s cudie die st Hm st' record.
  subst st' record. cbv beta.
  rewrite print_frame_stdout, print_frame_demangled.
  split; [apply print_frame_report|]. split.
  - intros Hd Hraw. unfold printed_name. cbn [fmap option_fmap option_map].
    rewrite Hd, Hraw, Hm. cbn [andb negb]. split; [done|]. split.
    + intros d Hsome. rewrite Hsome. split; [done|].
      intros Hne Heq. apply Hne. unfold frame_record in Heq.
      apply string_app_cancel in Heq. by injection Heq.
    + intros Hnone. by rewrite Hnone.
  - intros Hraw. unfold printed_name. cbn [fmap option_fmap option_map].
    rewrite Hraw. rewrite andb_false_r. cbn [andb negb].
    by rewrite app_nil_r.
Qed.

Lemma print_frame_name_postprocessing_witness :
  is_mangled "_Z1fv" = true
  ∧ stdout (print_frame (default_options 1 true) demangling_target 0 16400
                        false 16399 None (Some "_Z1fv") None None
                        initial_globals)
    = ["#0  0x0000000000004010 f()" +:+ Fmt.newline].
Proof.
  split; [reflexivity|].
  pose proof (print_frame_name_postprocessing
                (default_options 1 true) demangling_target 0 16400 false
                16399 None "_Z1fv" None None initial_globals eq_refl) as H.
  destruct H as (_ & H & _).
  destruct (H eq_refl eq_refl) as (_ & Hd & _).
  destruct (Hd "f()" eq_refl) as (Hout & _).
  rewrite Hout. vm_compute. reflexivity.
Defined.

(** *** The adjusted program counter *)


Lemma pc_adjusted_of_return pc_ :
  in_u64 pc_ → 0 < pc_ → pc_adjusted_of pc_ false = pc_ - 1.
Proof.
  intros H Hpos. unfold pc_adjusted_of. apply wrap_u64_id.
  unfold in_u64 in *. lia.
Qed.



(** *** Name resolution *)

Lemma die_name_linkage die :
  die_name die
  = match linkage_name die with
    | Some n => Some n
    | None => dwarf_diename die
    end.
Proof.
  unfold die_name, linkage_name.
  by destruct (dwarf_attr_integrate die DW_AT_MIPS_linkage_name).
Qed.

Lemma find_function_scope_found skipped scope rest name :
  Forall passed_over skipped →
  is_function_tag (dwarf_tag scope) = true →
  die_name scope = Some name →
  find_function_scope (skipped ++ scope :: rest) = (Some name, Some scope).
Proof.
  intros Hskip Htag Hname.
  induction Hskip as [|s skipped Hs _ IH]; cbn.
  - by rewrite Htag, Hname.
  - destruct Hs as [Hs | Hs]; rewrite Hs; [done|].
    by destruct (is_function_tag (dwarf_tag s)).
Qed.

Lemma find_function_scope_none scopes :
  Forall passed_over scopes → find_function_scope scopes = (None, None).
Proof.
  induction 1 as [|s scopes Hs _ IH]; cbn; [done|].
  destruct Hs as [Hs | Hs]; rewrite Hs; [done|].
  by destruct (is_function_tag (dwarf_tag s)).
Qed.

(** C7 (as amended): for a frame with an owning module, quiet mode resolves
    no name; otherwise, in debug-name mode, the scope chain at the adjusted
    PC is scanned from the innermost scope outward for the first scope that
    is tagged subprogram, inlined-subroutine or entry-point and has a name,
    function-like scopes without a name being passed over; the name is its
    linkage name if present, else its plain name, and that scope is
    remembered; when debug-name mode is off or no such scope exists, the
    generic address-to-symbol lookup of the module is used. *)
Theorem frame_resolve_precedence :
  ∀ (opts : Options) (env : Dwfl) (m : Dwfl_Module) (pca : Z),
    let '(symname, die, _) := frame_resolve opts env (Some m) pca in
    let chain := scope_chain env m pca in
    (show_quiet opts = true → symname = None)
    ∧ (show_quiet opts = false → show_debugname opts = true →
       ∀ skipped scope rest name,
         chain = skipped ++ scope :: rest →
         Forall passed_over skipped →
         is_function_tag (dwarf_tag scope) = true →
         die_name scope = Some name →
         symname = Some name ∧ die = Some scope)
    ∧ (show_quiet opts = false → show_debugname opts = true →
       Forall passed_over chain →
       symname = dwfl_module_addrname m pca)
    ∧ (show_quiet opts = false → show_debugname opts = false →
       symname = dwfl_module_addrname m pca)
    ∧ (∀ scope, die_name scope
                = match linkage_name scope with
                  | Some n => Some n
                  | None => dwarf_diename scope
                  end).
Proof.
  intros opts env m pca.
  unfold frame_resolve, scope_chain. cbv zeta.
  destruct (show_quiet opts) eqn:Hq; cbn [negb].
  { repeat split; try done. apply die_name_linkage. }
  destruct (show_debugname opts) eqn:Hd.
  - destruct (find_function_scope _) as [symname die] eqn:Hfind.
    split; [done|]. split; [|split; [|split; [done|]]].
    + intros _ _ skipped scope rest name Hchain Hskip Htag Hname.
      rewrite Hchain in Hfind.
      rewrite (find_function_scope_found _ _ _ name) in Hfind by done.
      by injection Hfind as <- <-.
    + intros _ _ Hall.
      rewrite find_function_scope_none in Hfind by done.
      by injection Hfind as <- <-.
    + apply die_name_linkage.
  - repeat split; try done. apply die_name_linkage.
Qed.

(** C7 as stated fails: when the first function-like scope of the chain has
    no name, the code goes on to the next named one ("foo") where the claim
    falls back to the generic lookup ("bar"). *)
Lemma frame_resolve_nameless_scope_counterexample :
  let m := debug_module (λ _, Some "bar") in
  (frame_resolve debugname_options nameless_inline_target (Some m) 16399).1.1
  = Some "foo"
  ∧ spec_symname debugname_options nameless_inline_target m 16399
    = Some "bar"
  ∧ (frame_resolve debugname_options nameless_inline_target (Some m) 16399).1.1
    ≠ spec_symname debugname_options nameless_inline_target m 16399.
Proof. by vm_compute. Qed.

Lemma frame_resolve_precedence_witness :
  (frame_resolve debugname_options nameless_inline_target
                 (Some (debug_module (λ _, Some "bar"))) 16399).1.1
  = Some "foo".
Proof.
  pose proof (frame_resolve_precedence debugname_options
                nameless_inline_target (debug_module (λ _, Some "bar"))
                16399) as H.
  destruct (frame_resolve _ _ _ _) as [[symname die] cudie].
  destruct H as (_ & H & _).
  assert (Hskip : Forall passed_over
                    [named_die 40 DW_TAG_inlined_subroutine None]).
  { constructor; [right; reflexivity|constructor]. }
  destruct (H eq_refl eq_refl
              [named_die 40 DW_TAG_inlined_subroutine None]
              (named_die 30 DW_TAG_subprogram (Some "foo"))
              [named_die 11 DW_TAG_compile_unit (Some "a.c")]
              "foo" eq_refl Hskip eq_refl eq_refl) as [Hs _].
  exact Hs.
Defined.

(** *** Exit status *)

Lemma exit_status_policy_aux opts env st :
  main_collect opts env initial_globals = Ret tt st →
  (frames_shown st = false →
   exit_status (main opts env) = Some EXIT_BAD)
  ∧ (frames_shown st = true → error_message_count st ≠ 0%nat →
     exit_status (main opts env) = Some EXIT_ERROR)
  ∧ (frames_shown st = true → error_message_count st = 0%nat →
     exit_status (main opts env) = Some EXIT_OK).
Proof.
  intros Hrun. unfold main. rewrite Hrun. unfold main_exit.
  split; [|split].
  - intros ->. reflexivity.
  - intros -> Hcount. cbn [negb].
    destruct (error_message_count st); [done|reflexivity].
  - intros -> ->. reflexivity.
Qed.



(** *** The printing loops keep the run report *)

Lemma print_inline_loop_report opts env scopes :
  ∀ last nr pc_ isact pca mod_ cudie st,
    same_report st
      (print_inline_loop opts env scopes last nr pc_ isact pca mod_ cudie
                         st).2.
Proof.
  induction scopes as [|scope rest IH]; intros; cbn [print_inline_loop].
  - apply same_report_refl.
  - destruct ((maxframes opts =? 0) || (nr <? maxframes opts));
      [|apply same_report_refl].
    destruct (negb (is_function_tag (dwarf_tag scope))); [apply IH|].
    destruct (dwarf_tag scope =? DW_TAG_subprogram).
    + apply print_frame_report.
    + eapply same_report_trans; [apply print_frame_report|apply IH].
Qed.

Lemma print_inline_frames_report opts env nr pc_ isact pca mod_ symname cudie
  die st :
  same_report st
    (print_inline_frames opts env nr pc_ isact pca mod_ symname cudie die
                         st).2.
Proof.
  unfold print_inline_frames.
  destruct (dwarf_getscopes_die env die) as [[|scope0 rest]|];
    try apply same_report_refl.
  eapply same_report_trans;
    [apply print_frame_report|apply print_inline_loop_report].
Qed.

Lemma print_frames_body_report opts env f frame_nr st :
  same_report st (print_frames_body opts env f frame_nr st).2.
Proof.
  unfold print_frames_body. cbv zeta.
  destruct (frame_resolve _ _ _ _) as [[symname die] cudie].
  destruct (if show_inlines opts then die else None).
  - apply print_inline_frames_report.
  - apply print_frame_report.
Qed.

Lemma print_frames_loop_report opts env captured :
  ∀ frame_nr st,
    same_report st (print_frames_loop opts env captured frame_nr st).2.
Proof.
  induction captured as [|f rest IH]; intros; cbn [print_frames_loop].
  - apply same_report_refl.
  - destruct ((maxframes opts =? 0) || (frame_nr <? maxframes opts));
      [|apply same_report_refl].
    destruct (print_frames_body opts env f frame_nr st) as [nr' st'] eqn:Hb.
    pose proof (print_frames_body_report opts env f frame_nr st) as Hr.
    rewrite Hb in Hr. eapply same_report_trans; [exact Hr|apply IH].
Qed.

(** *** The frame number under a ceiling *)

Section Ceiling.
Context (opts : Options) (env : Dwfl).
Hypothesis ceiling_pos : 0 < maxframes opts.
Hypothesis ceiling_int : maxframes opts ≤ INT_MAX.

Lemma ceiling_guard nr :
  (maxframes opts =? 0) || (nr <? maxframes opts) = (nr <? maxframes opts).
Proof. destruct (Z.eqb_spec (maxframes opts) 0); [lia|done]. Qed.

Lemma incr_below_ceiling nr :
  0 ≤ nr < maxframes opts → wrap_int (nr + 1) = nr + 1.
Proof.
  intros H. apply wrap_int_id. unfold in_int, INT_MAX in *. lia.
Qed.

Lemma print_inline_loop_nr scopes :
  ∀ last nr pc_ isact pca mod_ cudie st,
    0 ≤ nr ≤ maxframes opts →
    nr ≤ (print_inline_loop opts env scopes last nr pc_ isact pca mod_
                            cudie st).1 ≤ maxframes opts.
Proof.
  induction scopes as [|scope rest IH]; intros * Hnr;
    cbn [print_inline_loop]; [cbn; lia|].
  rewrite ceiling_guard.
  destruct (Z.ltb_spec nr (maxframes opts)); [|cbn; lia].
  destruct (negb (is_function_tag (dwarf_tag scope))); [by apply IH|].
  rewrite incr_below_ceiling by lia.
  destruct (dwarf_tag scope =? DW_TAG_subprogram); [cbn; lia|].
  match goal with
  | |- _ ≤ (print_inline_loop _ _ _ ?l ?n ?p ?a ?c ?m ?d ?s).1 ≤ _ =>
      pose proof (IH l n p a c m d s)
  end.
  lia.
Qed.

Lemma print_frames_body_nr f frame_nr st :
  0 ≤ frame_nr < maxframes opts →
  frame_nr ≤ (print_frames_body opts env f frame_nr st).1 ≤ maxframes opts.
Proof.
  intros Hnr. unfold print_frames_body. cbv zeta.
  destruct (frame_resolve _ _ _ _) as [[symname die] cudie].
  destruct (if show_inlines opts then die else None) as [d|].
  - unfold print_inline_frames.
    destruct (dwarf_getscopes_die env d) as [[|scope0 rest]|];
      try (cbn; lia).
    rewrite incr_below_ceiling by lia.
    match goal with
    | |- _ ≤ (print_inline_loop _ _ _ ?l ?n ?p ?a ?c ?m ?d ?s).1 ≤ _ =>
        pose proof (print_inline_loop_nr rest l n p a c m d s)
    end.
    lia.
  - cbn. rewrite incr_below_ceiling by lia. lia.
Qed.

Lemma print_frames_body_progress f frame_nr st :
  every_frame_rendered opts env →
  0 ≤ frame_nr < maxframes opts →
  frame_nr + 1 ≤ (print_frames_body opts env f frame_nr st).1.
Proof.
  intros Hrender Hnr. unfold print_frames_body. cbv zeta.
  destruct (frame_resolve _ _ _ _) as [[symname die] cudie].
  destruct (show_inlines opts) eqn:Hinl.
  - destruct Hrender as [?|Hfound]; [congruence|].
    destruct die as [d|].
    + unfold print_inline_frames.
      destruct (Hfound d) as (scope0 & rest & ->).
      rewrite incr_below_ceiling by lia.
      match goal with
      | |- _ ≤ (print_inline_loop _ _ _ ?l ?n ?p ?a ?c ?m ?d ?s).1 =>
          pose proof (print_inline_loop_nr rest l n p a c m d s)
      end.
      lia.
    + cbn. rewrite incr_below_ceiling by lia. lia.
  - cbn. rewrite incr_below_ceiling by lia. lia.
Qed.

Lemma print_frames_loop_nr captured :
  ∀ frame_nr st,
    0 ≤ frame_nr ≤ maxframes opts →
    frame_nr ≤ (print_frames_loop opts env captured frame_nr st).1
    ≤ maxframes opts.
Proof.
  induction captured as [|f rest IH]; intros * Hnr;
    cbn [print_frames_loop]; [cbn; lia|].
  rewrite ceiling_guard.
  destruct (Z.ltb_spec frame_nr (maxframes opts)); [|cbn; lia].
  pose proof (print_frames_body_nr f frame_nr st) as Hb.
  destruct (print_frames_body opts env f frame_nr st) as [nr' st'].
  cbn in Hb. pose proof (IH nr' st'). lia.
Qed.

(** With every frame rendered, the loop stops short of the ceiling only
    when the captured frames run out first. *)
Lemma print_frames_loop_reaches captured :
  ∀ frame_nr st,
    every_frame_rendered opts env →
    0 ≤ frame_nr ≤ maxframes opts →
    maxframes opts ≤ frame_nr + Z.of_nat (length captured) →
    (print_frames_loop opts env captured frame_nr st).1 = maxframes opts.
Proof.
  induction captured as [|f rest IH]; intros * Hrender Hnr Hlen;
    cbn [print_frames_loop].
  - cbn in *. lia.
  - rewrite ceiling_guard.
    destruct (Z.ltb_spec frame_nr (maxframes opts)); [|cbn; lia].
    pose proof (print_frames_body_nr f frame_nr st) as Hb.
    pose proof (print_frames_body_progress f frame_nr st Hrender) as Hp.
    destruct (print_frames_body opts env f frame_nr st) as [nr' st'].
    cbn in Hb, Hp. apply IH; [done|lia|].
    rewrite length_cons in Hlen. lia.
Qed.

End Ceiling.

(** *** Collection *)

Lemma captured_frames_store fs f :
  0 ≤ frames fs < Z.of_nat (length (frame fs)) →
  take (Z.to_nat (frames fs + 1)) (<[Z.to_nat (frames fs) := f]> (frame fs))
  = captured_frames fs ++ [f].
Proof.
  intros Hnr. unfold captured_frames.
  replace (Z.to_nat (frames fs + 1)) with (S (Z.to_nat (frames fs))) by lia.
  erewrite take_S_r.
  - by rewrite take_insert_ge by lia.
  - apply list_lookup_insert_eq. lia.
Qed.

(** One call of [frame_callback] on a state with a PC, when the slot it
    writes exists. *)
Lemma frame_callback_pc opts env p act fs st :
  0 ≤ frames fs < Z.of_nat (length (frame fs)) →
  frames fs < INT_MAX →
  frame_callback opts env (Frame_pc p act) fs st
  = let buf := <[Z.to_nat (frames fs) := mk_frame p act]> (frame fs) in
    let n := frames fs + 1 in
    if n =? maxframes opts
    then Ret (DWARF_CB_ABORT, mk_frames n (allocated fs) buf) st
    else if n =? allocated fs
    then
      let a := wrap_int (allocated fs * 2) in
      match realloc env buf (wrap_u64 (sizeof_struct_frame * a)) with
      | Some buf' => Ret (DWARF_CB_OK, mk_frames n a buf') st
      | None =>
          error env EXIT_BAD ENOMEM "realloc frames.frame"
                (DWARF_CB_OK, mk_frames n a buf) st
      end
    else Ret (DWARF_CB_OK, mk_frames n (allocated fs) buf) st.
Proof.
  intros Hnr Hmax. unfold frame_callback.
  destruct (Z.ltb_spec (frames fs) 0); [lia|].
  destruct (Z.leb_spec (Z.of_nat (length (frame fs))) (frames fs)); [lia|].
  cbn [orb]. rewrite wrap_int_id; [done|].
  unfold in_int, INT_MAX in *. lia.
Qed.

Section Collect.
Context (opts : Options) (env : Dwfl).
Hypothesis ceiling_pos : 0 < maxframes opts.
Hypothesis ceiling_int : maxframes opts ≤ INT_MAX.

(** Under a ceiling the unwinder's frames are stored in order until the
    ceiling is reached, the walk is then aborted, and the buffer is never
    reallocated. *)
Lemma getframes_loop_ceiling l :
  ∀ end_errno fs st,
    buffer_of (maxframes opts) fs →
    0 ≤ frames fs < maxframes opts →
    ∃ fs',
      getframes_loop (frame_callback opts env) (map frame_state l) end_errno
                     fs st
      = Ret (if maxframes opts <=? frames fs + Z.of_nat (length l)
             then (DWARF_CB_ABORT, 0)
             else (if end_errno =? 0 then 0 else -1, end_errno), fs') st
      ∧ buffer_of (maxframes opts) fs'
      ∧ frames fs'
        = Z.min (frames fs + Z.of_nat (length l)) (maxframes opts)
      ∧ captured_frames fs'
        = captured_frames fs
          ++ take (Z.to_nat (maxframes opts - frames fs)) l.
Proof.
  induction l as [|f l IH]; intros end_errno fs st [Ha Hlen] Hnr.
  - cbn [map getframes_loop length]. exists fs.
    destruct (Z.leb_spec (maxframes opts) (frames fs + Z.of_nat 0)); [lia|].
    split; [done|]. split; [done|]. split; [lia|].
    by rewrite take_nil, app_nil_r.
  - cbn [map getframes_loop]. unfold frame_state at 1.
    rewrite frame_callback_pc by (unfold INT_MAX in *; lia).
    cbv zeta. rewrite Ha.
    pose proof (captured_frames_store fs (mk_frame (pc f) (isactivation f))
                  ltac:(lia)) as Hstore.
    replace (mk_frame (pc f) (isactivation f)) with f in * by (by destruct f).
    rewrite length_cons.
    destruct (Z.eqb_spec (frames fs + 1) (maxframes opts)) as [Heq|Hne].
    + cbn [Z.eqb DWARF_CB_ABORT DWARF_CB_OK].
      destruct (Z.leb_spec (maxframes opts)
                           (frames fs + Z.of_nat (S (length l)))); [|lia].
      eexists. split; [done|].
      split; [split; cbn; [done|by rewrite length_insert]|].
      split; [cbn; lia|].
      unfold captured_frames at 1. cbn [frames frame]. rewrite Hstore.
      replace (Z.to_nat (maxframes opts - frames fs)) with 1%nat by lia.
      done.
    + cbn [Z.eqb DWARF_CB_OK].
      set (fs1 := mk_frames (frames fs + 1) (maxframes opts)
                    (<[Z.to_nat (frames fs) := f]> (frame fs))).
      destruct (IH end_errno fs1 st) as (fs' & Hrun & Hbuf & Hfr & Hcap).
      { split; cbn; [done|by rewrite length_insert]. }
      { cbn. lia. }
      exists fs'. split.
      { rewrite Hrun. cbn [fs1 frames].
        replace (frames fs + 1 + Z.of_nat (length l))
          with (frames fs + Z.of_nat (S (length l))) by lia.
        done. }
      split; [exact Hbuf|].
      split; [rewrite Hfr; cbn; lia|].
      rewrite Hcap. unfold captured_frames at 1. cbn [fs1 frames frame].
      rewrite Hstore, <- app_assoc. f_equal.
      replace (Z.to_nat (maxframes opts - frames fs))
        with (S (Z.to_nat (maxframes opts - (frames fs + 1)))) by lia.
      done.
Qed.

(** Whatever the unwinder does, under a ceiling a walk neither leaves the
    buffer nor ends the process, and its result is one the [switch] of
    [thread_callback] accepts. *)
Lemma getframes_loop_ceiling_any states :
  ∀ end_errno fs st,
    buffer_of (maxframes opts) fs →
    0 ≤ frames fs < maxframes opts →
    ∃ r e fs',
      getframes_loop (frame_callback opts env) states end_errno fs st
      = Ret (r, e, fs') st
      ∧ buffer_of (maxframes opts) fs'
      ∧ 0 ≤ frames fs' ≤ maxframes opts
      ∧ is_Some (getframes_err r e).
Proof.
  induction states as [|s states IH]; intros end_errno fs st [Ha Hlen] Hnr.
  - cbn [getframes_loop]. eexists _, _, _. split; [done|].
    split; [done|]. split; [lia|].
    unfold getframes_err. by destruct (end_errno =? 0).
  - cbn [getframes_loop]. destruct s as [p act|e].
    + rewrite frame_callback_pc by (unfold INT_MAX in *; lia).
      cbv zeta. rewrite Ha.
      destruct (Z.eqb_spec (frames fs + 1) (maxframes opts)) as [Heq|Hne].
      * cbn [Z.eqb DWARF_CB_ABORT DWARF_CB_OK].
        eexists _, _, _. split; [done|].
        split; [split; cbn; [done|by rewrite length_insert]|].
        split; [cbn; lia|]. by unfold getframes_err.
      * cbn [Z.eqb DWARF_CB_OK]. apply IH.
        -- split; cbn; [done|by rewrite length_insert].
        -- cbn. lia.
    + cbn [frame_callback Z.eqb DWARF_CB_OK].
      eexists _, _, _. split; [done|]. split; [done|]. split; [lia|].
      by unfold getframes_err.
Qed.

Lemma captured_frames_length fs :
  0 ≤ frames fs ≤ Z.of_nat (length (frame fs)) →
  Z.of_nat (length (captured_frames fs)) = frames fs.
Proof. intros H. unfold captured_frames. rewrite length_take. lia. Qed.

(** [print_frames] on a buffer filled up to the ceiling: the diagnostic
    about the maximum number of frames is the one recorded. *)
Lemma print_frames_at_ceiling fs tid dwflerr what st :
  every_frame_rendered opts env →
  frames fs = maxframes opts →
  maxframes opts ≤ Z.of_nat (length (frame fs)) →
  let st' := print_frames opts env fs tid dwflerr what st in
  frames_shown st' = true
  ∧ error_message_count st' = S (error_message_count st)
  ∧ stderr st' = stderr st ++ [msg_max_frames tid (maxframes opts)].
Proof.
  intros Hrender Hfr Hlen. unfold print_frames. cbv zeta.
  destruct (Z.ltb_spec 0 (frames fs)); [|lia].
  set (st1 := printf _ (set_frames_shown true st)).
  pose proof (print_frames_loop_report opts env (captured_frames fs) 0 st1)
    as (R1 & R2 & R3).
  pose proof (print_frames_loop_reaches opts env ceiling_pos ceiling_int
                (captured_frames fs) 0 st1 Hrender ltac:(lia)) as Hreach.
  rewrite captured_frames_length in Hreach by lia.
  specialize (Hreach ltac:(lia)).
  destruct (print_frames_loop opts env (captured_frames fs) 0 st1)
    as [nr st2].
  cbn [fst snd] in *. subst nr. rewrite Z.eqb_refl. cbn [andb].
  unfold error_report. cbn. by rewrite R1, R2, R3.
Qed.

End Collect.

(** [print_frames] sets [frames_shown] exactly when the buffer holds a
    frame, never clears it, and records at most one diagnostic. *)
Lemma print_frames_report opts env fs tid dwflerr what st :
  let st' := print_frames opts env fs tid dwflerr what st in
  frames_shown st' = (0 <? frames fs) || frames_shown st
  ∧ (error_message_count st ≤ error_message_count st')%nat.
Proof.
  unfold print_frames. cbv zeta.
  set (st1 := printf _ (if 0 <? frames fs then _ else _)).
  pose proof (print_frames_loop_report opts env (captured_frames fs) 0 st1)
    as (R1 & R2 & R3).
  destruct (print_frames_loop opts env (captured_frames fs) 0 st1)
    as [nr st2].
  cbn [fst snd] in *.
  assert (Hs : frames_shown st1 = (0 <? frames fs) || frames_shown st).
  { subst st1. by destruct (0 <? frames fs). }
  assert (Hc : error_message_count st1 = error_message_count st).
  { subst st1. by destruct (0 <? frames fs). }
  repeat match goal with
         | |- context [if ?b then _ else _] => destruct b
         end;
    unfold error_report; cbn; rewrite ?R1, ?R2, ?Hs, ?Hc; split; (done || lia).
Qed.

(** *** Threads under a ceiling *)

Lemma thread_callback_ceiling opts env t l fs st :
  0 < maxframes opts ≤ INT_MAX →
  buffer_of (maxframes opts) fs →
  thread_unwound t = map frame_state l →
  ∃ fs',
    thread_callback opts env t fs st
    = Ret (DWARF_CB_OK, fs')
          (print_frames opts env fs' (dwfl_thread_tid t)
             (if maxframes opts <=? Z.of_nat (length l)
              then 0 else thread_end_errno t)
             "dwfl_thread_getframes" st)
    ∧ buffer_of (maxframes opts) fs'
    ∧ frames fs' = Z.min (Z.of_nat (length l)) (maxframes opts)
    ∧ captured_frames fs' = take (Z.to_nat (maxframes opts)) l.
Proof.
  intros [Hpos Hint] [Ha Hlen] Hl.
  unfold thread_callback, dwfl_thread_getframes. cbv zeta. rewrite Hl.
  destruct (getframes_loop_ceiling opts env Hint l (thread_end_errno t)
              (mk_frames 0 (allocated fs) (frame fs)) st)
    as (fs' & Hrun & Hbuf & Hfr & Hcap).
  { by split. }
  { cbn. lia. }
  rewrite Hrun. cbn [frames] in *. rewrite Z.add_0_l in *.
  rewrite Z.sub_0_r in Hcap.
  exists fs'.
  split; [|split; [done|split; [done|]]].
  - destruct (maxframes opts <=? Z.of_nat (length l)); [done|].
    unfold getframes_err.
    destruct (Z.eqb_spec (thread_end_errno t) 0) as [->|]; done.
  - rewrite Hcap. unfold captured_frames. cbn. by rewrite take_0.
Qed.

(** X4: collection under a ceiling [C > 0]: a thread whose unwinder yields
    [N] frames has exactly [min N C] of them captured, the first [min N C]
    in order; and when [N > C], exactly one diagnostic, the one about the
    maximum number of frames, is recorded for the thread, as long as every
    captured frame renders at least one frame record (inline expansion is
    off, or its scope lookups succeed). *)
Lemma collection_stops_at_ceiling :
  ∀ (opts : Options) (env : Dwfl) (t : Dwfl_Thread) (l : list struct_frame)
    (fs : struct_frames) (st : Globals),
    0 < maxframes opts ≤ INT_MAX →
    buffer_of (maxframes opts) fs →
    thread_unwound t = map frame_state l →
    ∃ fs' st',
      thread_callback opts env t fs st = Ret (DWARF_CB_OK, fs') st'
      ∧ frames fs' = Z.min (Z.of_nat (length l)) (maxframes opts)
      ∧ captured_frames fs' = take (Z.to_nat (maxframes opts)) l
      ∧ (maxframes opts < Z.of_nat (length l) →
         every_frame_rendered opts env →
         error_message_count st' = S (error_message_count st)
         ∧ stderr st'
           = stderr st
             ++ [msg_max_frames (dwfl_thread_tid t) (maxframes opts)]).
Proof.
  intros opts env t l fs st Hc Hbuf Hl.
  destruct (thread_callback_ceiling opts env t l fs st Hc Hbuf Hl)
    as (fs' & Hrun & [Ha Hlen] & Hfr & Hcap).
  eexists fs', _. split; [exact Hrun|]. split; [done|]. split; [done|].
  intros Hmore Hrender.
  destruct Hc as [Hpos Hint].
  by apply print_frames_at_ceiling; [..|lia|lia].
Qed.

Lemma collection_stops_at_ceiling_example :
  ∃ fs' st',
    thread_callback (options_with_maxframes 2) (bare_target 1 [])
                    five_frames_thread (fresh_buffer 2) initial_globals
    = Ret (DWARF_CB_OK, fs') st'
    ∧ frames fs' = 2
    ∧ captured_frames fs' = [mk_frame 16400 true; mk_frame 16416 false]
    ∧ stderr st'
      = ["tid 7: shown max number of frames (2, use -n 0 for unlimited)"].
Proof.
  destruct (collection_stops_at_ceiling
              (options_with_maxframes 2) (bare_target 1 [])
              five_frames_thread
              [mk_frame 16400 true; mk_frame 16416 false;
               mk_frame 16432 false; mk_frame 16448 false;
               mk_frame 16464 false]
              (fresh_buffer 2) initial_globals)
    as (fs' & st' & Hrun & Hfr & Hcap & Hdiag).
  - unfold INT_MAX. cbn. lia.
  - split; reflexivity.
  - reflexivity.
  - exists fs', st'. split; [exact Hrun|]. split; [exact Hfr|].
    split; [exact Hcap|].
    destruct Hdiag as [_ Herr].
    + cbn. lia.
    + left. reflexivity.
    + rewrite Herr. vm_compute. reflexivity.
Defined.

(** C2, where the code departs from it: for a ceiling [C > 0] and a thread
    that yields [N > C] frames, exactly [C] frames are captured and exactly
    one diagnostic about the maximum number of frames should be recorded.
    With inline expansion on, a ceiling of 1 and a thread of two frames, one
    frame is captured, as claimed; but the scope lookup of the expansion
    fails, [print_inline_frames] prints no record for the captured frame,
    the frame number stays below the ceiling, and no diagnostic at all is
    recorded. *)
Theorem ceiling_diagnostic_missed_for_dropped_frame :
  let opts := inline_options 1 in
  let env := failing_scopes_target [two_frames_thread] in
  let r := thread_callback opts env two_frames_thread (fresh_buffer 1)
                           initial_globals in
  maxframes opts < Z.of_nat (length (thread_unwound two_frames_thread))
  ∧ (∃ fs', r = Ret (DWARF_CB_OK, fs') (final_globals r) ∧ frames fs' = 1)
  ∧ stderr (final_globals r) = []
  ∧ error_message_count (final_globals r) = 0%nat
  ∧ error_message_count (final_globals r) ≠ 1%nat
  ∧ stdout (final_globals r) = ["TID 7:" +:+ Fmt.newline].
Proof.
  vm_compute. split; [done|]. split; [|done]. eexists. split; reflexivity.
Qed.

Lemma thread_callback_ceiling_any opts env t fs st :
  0 < maxframes opts ≤ INT_MAX →
  buffer_of (maxframes opts) fs →
  ∃ fs' err,
    thread_callback opts env t fs st
    = Ret (DWARF_CB_OK, fs')
          (print_frames opts env fs' (dwfl_thread_tid t) err
                        "dwfl_thread_getframes" st)
    ∧ buffer_of (maxframes opts) fs'.
Proof.
  intros [Hpos Hint] [Ha Hlen].
  unfold thread_callback, dwfl_thread_getframes. cbv zeta.
  destruct (getframes_loop_ceiling_any opts env Hint (thread_unwound t)
              (thread_end_errno t) (mk_frames 0 (allocated fs) (frame fs)) st)
    as (r & e & fs' & Hrun & Hbuf & _ & [err Herr]).
  { by split. }
  { cbn. lia. }
  rewrite Hrun, Herr. by exists fs', err.
Qed.

(** The walk over the threads under a ceiling: it never ends the process;
    the report only grows; and a thread that yields exactly as many frames
    as the ceiling allows leaves a diagnostic behind. *)
Lemma getthreads_loop_ceiling opts env result threads :
  0 < maxframes opts ≤ INT_MAX →
  ∀ fs st,
    buffer_of (maxframes opts) fs →
    ∃ fs' st',
      getthreads_loop (thread_callback opts env) threads result fs st
      = Ret (result, fs') st'
      ∧ (frames_shown st = true → frames_shown st' = true)
      ∧ (error_message_count st ≤ error_message_count st')%nat
      ∧ (every_frame_rendered opts env →
         ∀ t l, t ∈ threads →
                thread_unwound t = map frame_state l →
                maxframes opts ≤ Z.of_nat (length l) →
                frames_shown st' = true
                ∧ (error_message_count st < error_message_count st')%nat).
Proof.
  intros Hc. induction threads as [|t threads IH]; intros fs st Hbuf.
  - cbn [getthreads_loop]. exists fs, st. split; [done|].
    split; [done|]. split; [done|].
    intros _ t l Hin. by apply elem_of_nil in Hin.
  - cbn [getthreads_loop].
    destruct (thread_callback_ceiling_any opts env t fs st Hc Hbuf)
      as (fs1 & err & Hrun & Hbuf1).
    rewrite Hrun. cbn [Z.eqb DWARF_CB_OK].
    set (st1 := print_frames _ _ _ _ _ _ _) in *.
    destruct (IH fs1 st1 Hbuf1) as (fs' & st' & Hloop & Hs & Hn & Hdiag).
    pose proof (print_frames_report opts env fs1 (dwfl_thread_tid t) err
                  "dwfl_thread_getframes" st) as [Hs1 Hn1].
    fold st1 in Hs1, Hn1.
    exists fs', st'. split; [exact Hloop|]. split; [|split; [lia|]].
    { intros Hst. apply Hs. rewrite Hs1, Hst. by destruct (0 <? frames fs1). }
    intros Hrender t' l Hin Hl Hlen.
    apply elem_of_cons in Hin as [->|Hin].
    + destruct (thread_callback_ceiling opts env t l fs st Hc Hbuf Hl)
        as (fs2 & Hrun2 & [Ha2 Hlen2] & Hfr2 & _).
      rewrite Hrun in Hrun2. injection Hrun2 as -> Hst1.
      destruct Hc as [Hpos Hint].
      pose proof (print_frames_at_ceiling opts env Hpos Hint fs2
                    (dwfl_thread_tid t) err "dwfl_thread_getframes" st
                    Hrender ltac:(lia) ltac:(lia)) as (P1 & P2 & _).
      fold st1 in P1, P2. split; [by apply Hs|lia].
    + destruct (Hdiag Hrender t' l Hin Hl Hlen) as [D1 D2].
      split; [done|lia].
Qed.

Lemma main_alloc_frames_ceiling opts env st fs st' :
  0 < maxframes opts ≤ INT_MAX →
  main_alloc_frames opts env st = Ret fs st' →
  st' = st ∧ frames fs = 0 ∧ buffer_of (maxframes opts) fs.
Proof.
  intros [Hpos Hint]. unfold main_alloc_frames, malloc, realloc,
    initial_allocated. cbv zeta.
  destruct (Z.eqb_spec (maxframes opts) 0); [lia|].
  destruct (alloc_ok env _); [|cbn; unfold error; cbn; done].
  intros [= <- <-]. split; [done|]. split; [done|]. split; [done|].
  cbn [frame]. rewrite take_nil, app_nil_l, length_replicate.
  unfold sizeof_struct_frame. rewrite wrap_u64_id.
  - rewrite Z.mul_comm, Z.div_mul by lia. cbn. lia.
  - unfold in_u64, INT_MAX in *. lia.
Qed.

Lemma main_list_modules_report opts env st st' :
  main_list_modules opts env st = Ret tt st' → same_report st st'.
Proof.
  unfold main_list_modules. destruct (show_modules opts).
  - destruct (dwfl_getmodules env module_callback _) as [r st1] eqn:Hm.
    destruct (negb (r =? 0)); [unfold error; cbn; done|].
    intros [= <-]. unfold dwfl_getmodules in Hm.
    assert (Hst : ∀ g, same_report st g → ∀ z,
              getmodules_loop module_callback (dwfl_modules env) z g
              = (r, st1) → same_report st st1).
    2: { eapply Hst; [|exact Hm]. by unfold same_report. }
    clear Hm.
    induction (dwfl_modules env) as [|[[m name] start] mods IH];
      intros g Hg z; cbn [getmodules_loop].
    + by intros [= <- <-].
    + destruct (module_callback m name start g) as [r1 g1] eqn:Hcb.
      assert (same_report st g1) as Hg1.
      { eapply same_report_trans; [exact Hg|].
        revert Hcb. unfold module_callback. cbv zeta.
        repeat match goal with
               | |- context [match ?x with _ => _ end] => destruct x eqn:?
               end;
          intros [= <- <-];
          match goal with
          | H : get_addr_width _ _ = _ |- _ =>
              pose proof (get_addr_width_frame (Some m) g) as Hf;
              rewrite H in Hf; cbn in Hf;
              destruct Hf as (F1 & F2 & _ & F3 & _)
          end;
          unfold same_report; cbn; by rewrite F1, F2, F3. }
      destruct (r1 =? DWARF_CB_OK); [by apply IH|].
      by intros [= <- <-].
  - by intros [= <-].
Qed.

Lemma main_show_threads_ceiling opts env t l fs st st' :
  0 < maxframes opts ≤ INT_MAX →
  buffer_of (maxframes opts) fs →
  frames fs = 0 →
  every_frame_rendered opts env →
  walked_thread opts env t →
  thread_unwound t = map frame_state l →
  Z.of_nat (length l) = maxframes opts →
  main_show_threads opts env fs st = Ret tt st' →
  frames_shown st' = true ∧ error_message_count st' ≠ 0%nat.
Proof.
  intros Hc Hbuf Hfr Hrender Hwalk Hl Hlen.
  unfold main_show_threads, walked_thread in *.
  destruct (show_one_tid opts).
  - unfold dwfl_getthread_frames, dwfl_thread_getframes.
    rewrite Hwalk, Hl.
    destruct Hc as [Hpos Hint].
    destruct (getframes_loop_ceiling opts env Hint l (thread_end_errno t)
                fs st Hbuf ltac:(lia))
      as (fs' & Hrun & [Ha' Hlen'] & Hfr' & _).
    rewrite Hrun.
    destruct (Z.leb_spec (maxframes opts) (frames fs + Z.of_nat (length l)));
      [|lia].
    cbn [getframes_err Z.eqb DWARF_CB_OK DWARF_CB_ABORT orb].
    intros [= <-].
    pose proof (print_frames_at_ceiling opts env Hpos Hint fs' (pid opts) 0
                  "dwfl_getthread_frames" st Hrender ltac:(lia) ltac:(lia))
      as (P1 & P2 & _).
    split; [done|]. rewrite P2. done.
  - unfold dwfl_getthreads.
    set (st0 := printf _ st).
    destruct (getthreads_loop_ceiling opts env (dwfl_getthreads_result env)
                (dwfl_threads env) Hc fs st0 Hbuf)
      as (fs' & st1 & Hloop & _ & _ & Hdiag).
    rewrite Hloop.
    destruct (Hdiag Hrender t l Hwalk Hl ltac:(lia)) as [D1 D2].
    destruct ((dwfl_getthreads_result env =? DWARF_CB_OK)
              || (dwfl_getthreads_result env =? DWARF_CB_ABORT)).
    + intros [= <-]. split; [done|lia].
    + destruct (dwfl_getthreads_result env =? -1); [|done].
      intros [= <-]. cbn. split; [done|lia].
Qed.

(** X10: a thread that yields exactly as many frames as the ceiling
    [C > 0] allows has all of them captured, yet the walk is aborted at the
    [C]-th frame and, as long as every captured frame renders at least one
    frame record (inline expansion is off, or its scope lookups succeed),
    the diagnostic about the maximum number of frames is recorded for the
    thread; a run that walks such a thread and reaches the end of [main]
    exits with status ERROR, never OK. *)
Lemma exact_ceiling_is_diagnosed :
  ∀ (opts : Options) (env : Dwfl) (t : Dwfl_Thread) (l : list struct_frame),
    0 < maxframes opts ≤ INT_MAX →
    thread_unwound t = map frame_state l →
    Z.of_nat (length l) = maxframes opts →
    every_frame_rendered opts env →
    (∀ fs st,
       buffer_of (maxframes opts) fs →
       ∃ fs',
         dwfl_thread_getframes (frame_callback opts env) t
           (mk_frames 0 (allocated fs) (frame fs)) st
         = Ret (DWARF_CB_ABORT, 0, fs') st
         ∧ captured_frames fs' = l
         ∧ error_message_count
             (final_globals (thread_callback opts env t fs st))
           = S (error_message_count st)
         ∧ stderr (final_globals (thread_callback opts env t fs st))
           = stderr st
             ++ [msg_max_frames (dwfl_thread_tid t) (maxframes opts)])
    ∧ (walked_thread opts env t →
       ∀ st, main_collect opts env initial_globals = Ret tt st →
             exit_status (main opts env) = Some EXIT_ERROR).
Proof.
  intros opts env t l Hc Hl Hlen Hrender. split.
  - intros fs st Hbuf.
    pose proof Hc as [Hpos Hint]. pose proof Hbuf as [Ha Hlenb].
    unfold dwfl_thread_getframes. rewrite Hl.
    destruct (getframes_loop_ceiling opts env Hint l (thread_end_errno t)
                (mk_frames 0 (allocated fs) (frame fs)) st)
      as (fs' & Hrun & [Ha' Hlen'] & Hfr' & Hcap).
    { by split. }
    { cbn. lia. }
    cbn [frames] in *.
    destruct (Z.leb_spec (maxframes opts) (0 + Z.of_nat (length l))); [|lia].
    exists fs'. split; [exact Hrun|]. split.
    { rewrite Hcap. unfold captured_frames. cbn. rewrite take_0, app_nil_l.
      apply take_ge. lia. }
    destruct (thread_callback_ceiling opts env t l fs st Hc Hbuf Hl)
      as (fs2 & Hrun2 & [Ha2 Hlen2] & Hfr2 & _).
    rewrite Hrun2. cbn [final_globals].
    pose proof (print_frames_at_ceiling opts env Hpos Hint fs2
                  (dwfl_thread_tid t)
                  (if maxframes opts <=? Z.of_nat (length l)
                   then 0 else thread_end_errno t)
                  "dwfl_thread_getframes" st
                  Hrender ltac:(lia) ltac:(lia)) as (_ & P2 & P3).
    done.
  - intros Hwalk st Hrun.
    destruct (exit_status_policy_aux opts env st Hrun) as (_ & Herr & _).
    apply Herr; revert Hrun; unfold main_collect;
      destruct (main_list_modules opts env initial_globals) as [[] st1|] eqn:Hm;
      try done;
      destruct (main_alloc_frames opts env st1) as [fs st2|] eqn:Halloc;
      try done;
      intros Hshow;
      destruct (main_alloc_frames_ceiling opts env st1 fs st2 Hc Halloc)
        as (-> & Hfr & Hbuf);
      by destruct (main_show_threads_ceiling opts env t l fs st1 st Hc Hbuf
                     Hfr Hrender Hwalk Hl Hlen Hshow).
Qed.

Lemma exact_ceiling_is_diagnosed_example :
  exit_status (main (options_with_maxframes 3)
                    (bare_target 1 [scenario_A_thread]))
  = Some EXIT_ERROR.
Proof.
  assert (Hc : 0 < maxframes (options_with_maxframes 3) ≤ INT_MAX)
    by (unfold INT_MAX; cbn; lia).
  destruct (exact_ceiling_is_diagnosed
              (options_with_maxframes 3) (bare_target 1 [scenario_A_thread])
              scenario_A_thread
              [mk_frame 16400 false; mk_frame 16416 false;
               mk_frame 16432 false]
              Hc eq_refl eq_refl (or_introl eq_refl)) as [_ Hmain].
  eapply Hmain.
  - cbn. apply list_elem_of_here.
  - vm_compute. reflexivity.
Defined.

(** C10, where the code departs from it: for a ceiling [C > 0] and a
    thread that yields exactly [C] frames, the diagnostic about the maximum
    number of frames should still be recorded and the run should exit with
    status ERROR.  With inline expansion on, a ceiling of 1 and a thread of
    one frame, the scope lookup of the expansion fails,
    [print_inline_frames] prints no record for the captured frame, no
    diagnostic is recorded, and the run exits with status OK. *)
Theorem exact_ceiling_run_exits_ok_for_dropped_frame :
  let opts := inline_options 1 in
  let env := failing_scopes_target [one_frame_thread] in
  Z.of_nat (length (thread_unwound one_frame_thread)) = maxframes opts
  ∧ (∃ fs',
       dwfl_thread_getframes (frame_callback opts env) one_frame_thread
                             (fresh_buffer 1) initial_globals
       = Ret (DWARF_CB_ABORT, 0, fs') initial_globals
       ∧ captured_frames fs' = [mk_frame 16400 true])
  ∧ stdout (final_globals (main opts env))
    = ["PID 1 - process" +:+ Fmt.newline; "TID 7:" +:+ Fmt.newline]
  ∧ stderr (final_globals (main opts env)) = []
  ∧ exit_status (main opts env) = Some EXIT_OK
  ∧ exit_status (main opts env) ≠ Some EXIT_ERROR.
Proof.
  vm_compute. split; [done|]. split; [|done].
  eexists. split; reflexivity.
Qed.

(** *** Collection without a ceiling *)

Section Unbounded.
Context (opts : Options) (env : Dwfl).
Hypothesis no_ceiling : maxframes opts = 0.
Hypothesis alloc_succeeds : ∀ bytes, alloc_ok env bytes = true.

Lemma realloc_doubled buf a :
  Z.of_nat (length buf) = a → 0 < a → 2 * a < 2 ^ 31 →
  ∃ buf',
    realloc env buf (wrap_u64 (sizeof_struct_frame * wrap_int (a * 2)))
    = Some buf'
    ∧ wrap_int (a * 2) = 2 * a
    ∧ Z.of_nat (length buf') = 2 * a
    ∧ take (length buf) buf' = buf.
Proof.
  intros Hlen Hpos Hsmall.
  assert (Hw : wrap_int (a * 2) = 2 * a).
  { rewrite wrap_int_id; [lia|]. unfold in_int, INT_MAX. lia. }
  unfold realloc. rewrite alloc_succeeds, Hw. unfold sizeof_struct_frame.
  rewrite wrap_u64_id by (unfold in_u64; lia).
  replace (16 * (2 * a)) with ((2 * a) * 16) by lia.
  rewrite Z.div_mul by lia.
  eexists. split; [done|]. split; [done|].
  rewrite (take_ge buf) by lia. split.
  - rewrite length_app, length_replicate. lia.
  - by rewrite take_app_length.
Qed.

(** Without a ceiling every frame the unwinder yields is stored, in order;
    the capacity doubles exactly when the buffer is full. *)
Lemma getframes_loop_unbounded l :
  ∀ end_errno fs st,
    0 ≤ frames fs < allocated fs →
    Z.of_nat (length (frame fs)) = allocated fs →
    frames fs + Z.of_nat (length l) < 2 ^ 30 →
    ∃ fs' (j : nat),
      getframes_loop (frame_callback opts env) (map frame_state l) end_errno
                     fs st
      = Ret (if end_errno =? 0 then 0 else -1, end_errno, fs') st
      ∧ frames fs' = frames fs + Z.of_nat (length l)
      ∧ captured_frames fs' = captured_frames fs ++ l
      ∧ Z.of_nat (length (frame fs')) = allocated fs'
      ∧ allocated fs' = allocated fs * 2 ^ Z.of_nat j
      ∧ frames fs' < allocated fs'
      ∧ (j = 0%nat ∨ allocated fs' ≤ 2 * frames fs').
Proof.
  induction l as [|f l IH]; intros end_errno fs st Hnr Hlen Hsmall.
  - cbn [map getframes_loop length]. exists fs, 0%nat.
    split; [done|]. split; [lia|]. split; [by rewrite app_nil_r|].
    split; [done|]. split; [cbn; lia|]. split; [lia|by left].
  - cbn [map getframes_loop]. unfold frame_state at 1.
    rewrite length_cons in Hsmall.
    rewrite frame_callback_pc by (unfold INT_MAX; lia).
    cbv zeta. rewrite no_ceiling.
    pose proof (captured_frames_store fs (mk_frame (pc f) (isactivation f))
                  ltac:(lia)) as Hstore.
    replace (mk_frame (pc f) (isactivation f)) with f in * by (by destruct f).
    destruct (Z.eqb_spec (frames fs + 1) 0); [lia|].
    set (buf := <[Z.to_nat (frames fs) := f]> (frame fs)) in *.
    assert (Hbuf : Z.of_nat (length buf) = allocated fs).
    { subst buf. by rewrite length_insert. }
    destruct (Z.eqb_spec (frames fs + 1) (allocated fs)) as [Hfull|Hroom].
    + destruct (realloc_doubled buf (allocated fs) Hbuf ltac:(lia)
                  ltac:(lia)) as (buf' & -> & -> & Hlen' & Hkeep).
      cbn [Z.eqb DWARF_CB_OK].
      set (fs1 := mk_frames (frames fs + 1) (2 * allocated fs) buf').
      destruct (IH end_errno fs1 st) as
        (fs' & j & Hrun & Hfr & Hcap & Hl' & Ha' & Hlt & Hmin).
      { cbn. lia. }
      { done. }
      { cbn. lia. }
      exists fs', (S j). split; [exact Hrun|].
      subst fs1. cbn [frames allocated frame length] in *.
      split; [lia|]. split.
      { rewrite Hcap, (cons_middle f), app_assoc. f_equal.
        unfold captured_frames at 1. cbn [frames frame].
        rewrite <- Hstore. fold buf.
        transitivity (take (Z.to_nat (frames fs + 1)) (take (length buf) buf')).
        - rewrite take_take. f_equal. lia.
        - by rewrite Hkeep. }
      split; [done|]. split.
      { rewrite Ha', Nat2Z.inj_succ, Z.pow_succ_r by lia. lia. }
      split; [done|]. right.
      destruct Hmin as [-> | Hmin]; [|done].
      rewrite Ha'. cbn. lia.
    + cbn [Z.eqb DWARF_CB_OK].
      set (fs1 := mk_frames (frames fs + 1) (allocated fs) buf).
      destruct (IH end_errno fs1 st) as
        (fs' & j & Hrun & Hfr & Hcap & Hl' & Ha' & Hlt & Hmin).
      { cbn. lia. }
      { done. }
      { cbn. lia. }
      exists fs', j. split; [exact Hrun|].
      subst fs1. cbn [frames allocated frame length] in *.
      split; [lia|]. split.
      { rewrite Hcap, (cons_middle f), app_assoc. f_equal.
        unfold captured_frames at 1. cbn [frames frame].
        subst buf. by rewrite Hstore. }
      split; [done|]. split; [done|]. split; [done|].
      destruct Hmin as [Hmin|Hmin]; [by left|right; lia].
Qed.

End Unbounded.

(** C3: without a ceiling (and as long as the allocator satisfies every
    request), all the frames the unwinder yields are captured, none lost and
    in capture order, whatever their number [N] (below [2^30], so that the
    doubled capacity is an [int]); the buffer starts with 2048 slots and its
    capacity is doubled exactly when it is full, so that it ends as the
    first doubling that exceeds [N].  With a ceiling [C > 0] the initial
    capacity is [C]. *)
Theorem unbounded_collection_keeps_every_frame :
  ∀ (opts : Options) (env : Dwfl) (t : Dwfl_Thread) (l : list struct_frame)
    (fs : struct_frames) (st : Globals),
    maxframes opts = 0 →
    (∀ bytes, alloc_ok env bytes = true) →
    thread_unwound t = map frame_state l →
    Z.of_nat (length l) < 2 ^ 30 →
    0 < allocated fs →
    Z.of_nat (length (frame fs)) = allocated fs →
    (∃ fs' (j : nat),
       dwfl_thread_getframes (frame_callback opts env) t
         (mk_frames 0 (allocated fs) (frame fs)) st
       = Ret (if thread_end_errno t =? 0 then 0 else -1, thread_end_errno t,
              fs') st
       ∧ frames fs' = Z.of_nat (length l)
       ∧ captured_frames fs' = l
       ∧ Z.of_nat (length (frame fs')) = allocated fs'
       ∧ allocated fs' = allocated fs * 2 ^ Z.of_nat j
       ∧ Z.of_nat (length l) < allocated fs'
       ∧ (j = 0%nat ∨ allocated fs' ≤ 2 * Z.of_nat (length l)))
    ∧ main_alloc_frames opts env st = Ret (fresh_buffer 2048) st
    ∧ (∀ (opts' : Options) (env' : Dwfl) (st0 st1 : Globals)
         (fs0 : struct_frames),
         0 < maxframes opts' →
         initial_allocated opts' = maxframes opts'
         ∧ (main_alloc_frames opts' env' st0 = Ret fs0 st1 →
            allocated fs0 = maxframes opts' ∧ frames fs0 = 0)).
Proof.
  intros opts env t l fs st Hno Halloc Hl Hsmall Hpos Hlen. split; [|split].
  - unfold dwfl_thread_getframes. rewrite Hl.
    destruct (getframes_loop_unbounded opts env Hno Halloc l
                (thread_end_errno t) (mk_frames 0 (allocated fs) (frame fs))
                st) as (fs' & j & Hrun & Hfr & Hcap & Hl' & Ha' & Hlt & Hmin).
    { cbn. lia. }
    { done. }
    { cbn. lia. }
    cbn [frames allocated] in *. rewrite Z.add_0_l in *.
    exists fs', j. split; [exact Hrun|]. split; [done|]. split.
    { rewrite Hcap. unfold captured_frames. cbn. by rewrite take_0. }
    split; [done|]. split; [done|]. split; [lia|].
    destruct Hmin; [by left|right; lia].
  - unfold main_alloc_frames, malloc, realloc, initial_allocated.
    rewrite Hno, Halloc. reflexivity.
  - intros opts' env' st0 st1 fs0 Hc.
    assert (Hi : initial_allocated opts' = maxframes opts').
    { unfold initial_allocated.
      destruct (Z.eqb_spec (maxframes opts') 0); [lia|done]. }
    split; [exact Hi|].
    unfold main_alloc_frames. cbv zeta. rewrite Hi.
    destruct (malloc env' _); [|unfold error; cbn; done].
    by intros [= <- <-].
Qed.

Lemma unbounded_collection_keeps_every_frame_witness :
  ∃ fs',
    dwfl_thread_getframes
      (frame_callback (options_with_maxframes 0) (bare_target 1 []))
      five_frames_thread (fresh_buffer 2) initial_globals
    = Ret (0, 0, fs') initial_globals
    ∧ frames fs' = 5
    ∧ captured_frames fs' = five_frames
    ∧ 5 < allocated fs' ≤ 10.
Proof.
  destruct (unbounded_collection_keeps_every_frame
              (options_with_maxframes 0) (bare_target 1 [])
              five_frames_thread five_frames (fresh_buffer 2)
              initial_globals) as [(fs' & j & Hrun & Hfr & Hcap & _ & _ & Hlt & Hmin) _].
  - reflexivity.
  - intros bytes. reflexivity.
  - reflexivity.
  - cbn. lia.
  - cbn. lia.
  - reflexivity.
  - exists fs'. split; [exact Hrun|]. split; [exact Hfr|].
    split; [exact Hcap|]. cbn in Hlt, Hmin. split; [lia|].
    destruct Hmin as [-> | Hmin]; [|lia].
    revert Hrun. vm_compute. intros [= <-]. vm_compute. discriminate.
Defined.

(** *** Inline expansion *)

Lemma emit_frames_stdout opts env emitted :
  ∀ last nr pc_ isact pca mod_ cudie st,
    length (stdout (emit_frames opts env emitted last nr pc_ isact pca mod_
                                cudie st).2)
    = (length (stdout st) + length emitted)%nat.
Proof.
  induction emitted as [|scope rest IH]; intros; cbn [emit_frames].
  - cbn. lia.
  - rewrite IH, print_frame_stdout, length_app. cbn. lia.
Qed.

Lemma emit_frames_nr opts env emitted :
  ∀ last nr pc_ isact pca mod_ cudie st,
    - 2 ^ 31 ≤ nr → nr + Z.of_nat (length emitted) ≤ INT_MAX →
    (emit_frames opts env emitted last nr pc_ isact pca mod_ cudie st).1
    = nr + Z.of_nat (length emitted).
Proof.
  induction emitted as [|scope rest IH]; intros * Hlo Hhi;
    cbn [emit_frames].
  - cbn. lia.
  - rewrite length_cons in *.
    rewrite wrap_int_id by (unfold in_int; lia).
    rewrite IH by lia. lia.
Qed.

Lemma wrap_int_lower x : - 2 ^ 31 ≤ wrap_int x.
Proof.
  unfold wrap_int.
  pose proof (Z.mod_pos_bound (x + 2 ^ 31) (2 ^ 32) ltac:(lia)). lia.
Qed.

(** The loop of [print_inline_frames] emits a frame for the scopes of
    [inline_walk], as many as the ceiling admits. *)
Lemma print_inline_loop_walk opts env scopes :
  maxframes opts ≤ INT_MAX →
  ∀ last nr pc_ isact pca mod_ cudie st,
    - 2 ^ 31 ≤ nr →
    print_inline_loop opts env scopes last nr pc_ isact pca mod_ cudie st
    = emit_frames opts env
        (take (ceiling_room opts nr (length (inline_walk scopes)))
              (inline_walk scopes))
        last nr pc_ isact pca mod_ cudie st.
Proof.
  intros Hint. unfold ceiling_room.
  induction scopes as [|scope rest IH]; intros * Hlo;
    cbn [print_inline_loop inline_walk].
  - by rewrite take_nil.
  - destruct (Z.eqb_spec (maxframes opts) 0) as [H0|Hc]; cbn [orb].
    + destruct (is_function_tag (dwarf_tag scope)); cbn [negb].
      * destruct (dwarf_tag scope =? DW_TAG_subprogram).
        -- done.
        -- cbn [length take emit_frames].
           rewrite IH by apply wrap_int_lower. done.
      * by rewrite IH.
    + destruct (Z.ltb_spec nr (maxframes opts)) as [Hlt|Hge].
      * destruct (is_function_tag (dwarf_tag scope)); cbn [negb].
        -- destruct (dwarf_tag scope =? DW_TAG_subprogram).
           ++ cbn [length].
              replace (Nat.min 1 (Z.to_nat (maxframes opts - nr)))
                with 1%nat by lia.
              done.
           ++ cbn [length].
              replace (Nat.min (S (length (inline_walk rest)))
                               (Z.to_nat (maxframes opts - nr)))
                with (S (Nat.min (length (inline_walk rest))
                                 (Z.to_nat (maxframes opts - (nr + 1)))))
                by lia.
              cbn [take emit_frames].
              rewrite IH by apply wrap_int_lower.
              rewrite wrap_int_id by (unfold in_int, INT_MAX in *; lia).
              done.
        -- by rewrite IH.
      * replace (Z.to_nat (maxframes opts - nr)) with 0%nat by lia.
        rewrite Nat.min_0_r. by rewrite take_0.
Qed.

Lemma inline_walk_inlined inl sub post :
  Forall (λ s, is_inlined_tag (dwarf_tag s) = true) inl →
  dwarf_tag sub = DW_TAG_subprogram →
  inline_walk (inl ++ sub :: post) = inl ++ [sub].
Proof.
  intros Hinl Hsub. induction Hinl as [|s inl Hs _ IH]; cbn [inline_walk app].
  - by rewrite Hsub.
  - unfold is_inlined_tag in Hs. apply andb_prop in Hs as [-> Hs].
    apply negb_true_iff in Hs. by rewrite Hs, IH.
Qed.

Lemma inline_walk_skips pre scopes :
  Forall (λ s, is_function_tag (dwarf_tag s) = false) pre →
  inline_walk (pre ++ scopes) = inline_walk scopes.
Proof.
  induction 1 as [|s pre Hs _ IH]; cbn [inline_walk app]; [done|].
  by rewrite Hs.
Qed.

Lemma inline_walk_stops sub post :
  dwarf_tag sub = DW_TAG_subprogram → inline_walk (sub :: post) = [sub].
Proof. intros Hsub. cbn [inline_walk]. by rewrite Hsub. Qed.

Lemma inline_walk_continues s rest :
  is_inlined_tag (dwarf_tag s) = true →
  inline_walk (s :: rest) = s :: inline_walk rest.
Proof.
  intros Hs. unfold is_inlined_tag in Hs. apply andb_prop in Hs as [Hf Hs].
  apply negb_true_iff in Hs. cbn [inline_walk]. by rewrite Hf, Hs.
Qed.

(** C6 (as amended): with inline expansion enabled, a captured frame whose
    scope lookup gives the chain [scope0 :: rest] prints one frame for the
    innermost scope and then one frame for each enclosing scope tagged
    inlined-subroutine, entry-point or subprogram, going outward, up to and
    including the first enclosing scope tagged subprogram; enclosing scopes
    with other tags are skipped, and the walk ends early when the frame
    number reaches the ceiling.  All these frames reuse the captured PC, and
    each advances the frame number that is compared with the ceiling.  In
    particular a chain of [K] function-like scopes of which only the
    outermost is a subprogram prints exactly [K] frames when the ceiling
    leaves room for them. *)
Theorem inline_expansion_walk :
  ∀ (opts : Options) (env : Dwfl) (nr pc_ : Z) (isact : bool) (pca : Z)
    (mod_ : option Dwfl_Module) (symname : option string)
    (cudie : option Dwarf_Die) (die scope0 : Dwarf_Die)
    (rest : list Dwarf_Die) (st : Globals),
    maxframes opts ≤ INT_MAX →
    0 ≤ nr < INT_MAX →
    dwarf_getscopes_die env die = Some (scope0 :: rest) →
    let walk := inline_walk rest in
    let emitted := take (ceiling_room opts (nr + 1) (length walk)) walk in
    let r := print_inline_frames opts env nr pc_ isact pca mod_ symname cudie
                                 die st in
    r = emit_frames opts env emitted scope0 (nr + 1) pc_ isact pca mod_ cudie
          (print_frame opts env nr pc_ isact pca mod_ symname None None st)
    ∧ length (stdout r.2) = (length (stdout st) + 1 + length emitted)%nat
    ∧ (nr + 1 + Z.of_nat (length emitted) ≤ INT_MAX →
       r.1 = nr + 1 + Z.of_nat (length emitted))
    ∧ (nr < maxframes opts → r.1 ≤ maxframes opts)
    ∧ (∀ pre scopes,
         rest = pre ++ scopes →
         Forall (λ s, is_function_tag (dwarf_tag s) = false) pre →
         walk = inline_walk scopes)
    ∧ (∀ inl sub post,
         rest = inl ++ sub :: post →
         Forall (λ s, is_inlined_tag (dwarf_tag s) = true) inl →
         dwarf_tag sub = DW_TAG_subprogram →
         walk = inl ++ [sub]
         ∧ (maxframes opts = 0
            ∨ nr + Z.of_nat (length (scope0 :: inl ++ [sub]))
              ≤ maxframes opts →
            length (stdout r.2)
            = (length (stdout st) + length (scope0 :: inl ++ [sub]))%nat)).
Proof.
  intros opts env nr pc_ isact pca mod_ symname cudie die scope0 rest st
         Hint Hnr Hscopes walk emitted r.
  assert (Hr : r = emit_frames opts env emitted scope0 (nr + 1) pc_ isact pca
                     mod_ cudie
                     (print_frame opts env nr pc_ isact pca mod_ symname None
                                  None st)).
  { subst r emitted walk. unfold print_inline_frames. rewrite Hscopes.
    rewrite wrap_int_id by (unfold in_int, INT_MAX in *; lia).
    apply print_inline_loop_walk; [done|lia]. }
  assert (Hout : length (stdout r.2)
                 = (length (stdout st) + 1 + length emitted)%nat).
  { rewrite Hr, emit_frames_stdout, print_frame_stdout, length_app. cbn. lia. }
  split; [exact Hr|]. split; [exact Hout|]. split; [|split; [|split]].
  - intros Hroom. rewrite Hr, emit_frames_nr by lia. lia.
  - intros Hlt. rewrite Hr, emit_frames_nr.
    + subst emitted. rewrite length_take. unfold ceiling_room.
      destruct (Z.eqb_spec (maxframes opts) 0); lia.
    + lia.
    + subst emitted. rewrite length_take. unfold ceiling_room.
      destruct (Z.eqb_spec (maxframes opts) 0); lia.
  - intros pre scopes -> Hpre. subst walk. by apply inline_walk_skips.
  - intros inl sub post -> Hinl Hsub.
    assert (Hw : walk = inl ++ [sub]) by (by apply inline_walk_inlined).
    split; [exact Hw|].
    intros Hroom. rewrite Hout. subst emitted. rewrite length_take, Hw.
    unfold ceiling_room. rewrite !length_cons, !length_app in *.
    cbn [length] in *.
    destruct (Z.eqb_spec (maxframes opts) 0); lia.
Qed.

Lemma inline_expansion_walk_witness :
  length (stdout (print_inline_frames (inline_options 256)
                    (chain_target nested_inline_chain) 0 16400 true 16400
                    None (Some "h") None
                    (named_die 60 DW_TAG_inlined_subroutine (Some "h"))
                    initial_globals).2)
  = 3%nat.
Proof.
  pose proof (inline_expansion_walk (inline_options 256)
                (chain_target nested_inline_chain) 0 16400 true 16400 None
                (Some "h") None
                (named_die 60 DW_TAG_inlined_subroutine (Some "h"))
                (named_die 60 DW_TAG_inlined_subroutine (Some "h"))
                [named_die 50 DW_TAG_inlined_subroutine (Some "g");
                 named_die 30 DW_TAG_subprogram (Some "f")]
                initial_globals) as H.
  destruct H as (_ & Hout & _).
  - unfold INT_MAX. cbn. lia.
  - unfold INT_MAX. lia.
  - reflexivity.
  - rewrite Hout. reflexivity.
Defined.

(** C6 as stated fails.  A chain of depth 3 rooted at a subprogram, with a
    lexical block between the inlined call and the subprogram, prints 2
    frames for the captured PC, not 3; and a chain of 3 function-like scopes
    prints 2 frames under a ceiling of 2. *)
Lemma inline_expansion_depth_counterexample :
  let frames_printed opts chain :=
    length (stdout (print_frames_body opts (chain_target chain)
                      (mk_frame 16400 true) 0 initial_globals).2) in
  length block_chain = 3%nat
  ∧ dwarf_tag <$> last block_chain = Some DW_TAG_subprogram
  ∧ frames_printed (inline_options 256) block_chain = 2%nat
  ∧ frames_printed (inline_options 256) block_chain ≠ length block_chain
  ∧ length nested_inline_chain = 3%nat
  ∧ dwarf_tag <$> last nested_inline_chain = Some DW_TAG_subprogram
  ∧ frames_printed (inline_options 256) nested_inline_chain = 3%nat
  ∧ frames_printed (inline_options 2) nested_inline_chain = 2%nat.
Proof. by vm_compute. Qed.

(** *** Scenario A *)

Lemma print_frame_no_name opts env nr pc_ isact pca mod_ cudie die st :
  print_frame opts env nr pc_ isact pca mod_ None cudie die st
  = printf (frame_record opts env (get_addr_width mod_ st).1 nr pc_ isact pca
                         mod_ None cudie die)
           (get_addr_width mod_ st).2.
Proof.
  unfold print_frame, frame_record. by destruct (get_addr_width mod_ st).
Qed.

Lemma frame_resolve_no_name opts env mod_ a :
  show_quiet opts = true ∨ show_debugname opts = false →
  (∀ m, mod_ = Some m → dwfl_module_addrname m a = None) →
  frame_resolve opts env mod_ a = (None, None, None).
Proof.
  intros Hopts Hname. unfold frame_resolve.
  destruct mod_ as [m|]; [|done].
  destruct (show_quiet opts); [done|]. cbn [negb].
  destruct Hopts as [?|Hd]; [done|]. rewrite Hd. by rewrite (Hname m).
Qed.

(** A frame without a name, printed the plain way. *)
Lemma print_frames_body_no_name opts env f frame_nr st :
  show_quiet opts = true ∨ show_debugname opts = false →
  (∀ m, dwfl_addrmodule env (pc_adjusted_of (pc f) (isactivation f)) = Some m
        → dwfl_module_addrname m (pc_adjusted_of (pc f) (isactivation f))
          = None) →
  print_frames_body opts env f frame_nr st
  = (let a := pc_adjusted_of (pc f) (isactivation f) in
     let mod_ := dwfl_addrmodule env a in
     (wrap_int (frame_nr + 1),
      printf (frame_record opts env (get_addr_width mod_ st).1 frame_nr (pc f)
                           (isactivation f) a mod_ None None None)
             (get_addr_width mod_ st).2)).
Proof.
  intros Hopts Hname. unfold print_frames_body. cbv zeta.
  rewrite frame_resolve_no_name by done.
  destruct (show_inlines opts); by rewrite print_frame_no_name.
Qed.

(** The loop of [print_frames] on frames without names, once the address
    width is cached: one plain record per frame. *)
Lemma print_frames_loop_plain opts env captured :
  show_quiet opts = true ∨ show_debugname opts = false →
  Forall (no_name env) captured →
  ∀ frame_nr st,
    width st ≠ 0 →
    0 ≤ frame_nr →
    frame_nr + Z.of_nat (length captured) ≤ INT_MAX →
    maxframes opts = 0
    ∨ frame_nr + Z.of_nat (length captured) ≤ maxframes opts →
    print_frames_loop opts env captured frame_nr st
    = (frame_nr + Z.of_nat (length captured),
       after_records (width st)
                     (plain_records opts env (width st) frame_nr captured)
                     st).
Proof.
  intros Hopts Hnames.
  induction Hnames as [|f rest Hf _ IH]; intros frame_nr st Hw Hnr Hint Hroom;
    cbn [print_frames_loop plain_records length].
  - unfold after_records. rewrite app_nil_r. destruct st. cbn. f_equal. lia.
  - rewrite length_cons in *.
    assert ((maxframes opts =? 0) || (frame_nr <? maxframes opts) = true)
      as ->.
    { destruct Hroom as [->|Hroom]; [done|].
      apply orb_true_iff. right. apply Z.ltb_lt. lia. }
    rewrite print_frames_body_no_name by done. cbv zeta.
    rewrite get_addr_width_cached by done. cbn [fst snd].
    rewrite wrap_int_id by (unfold in_int, INT_MAX in *; lia).
    rewrite IH; [|done|lia|lia|lia].
    f_equal; [lia|].
    unfold after_records, printf. cbn. by rewrite <- app_assoc.
Qed.

(** The same loop from a state where no width is cached yet: the first
    frame's module fixes it. *)
Lemma print_frames_loop_plain_first opts env f rest frame_nr st :
  show_quiet opts = true ∨ show_debugname opts = false →
  Forall (no_name env) (f :: rest) →
  width st = 0 →
  0 ≤ frame_nr →
  frame_nr + Z.of_nat (length (f :: rest)) ≤ INT_MAX →
  maxframes opts = 0
  ∨ frame_nr + Z.of_nat (length (f :: rest)) ≤ maxframes opts →
  let w := first_width
             (dwfl_addrmodule env (pc_adjusted_of (pc f) (isactivation f))) in
  print_frames_loop opts env (f :: rest) frame_nr st
  = (frame_nr + Z.of_nat (length (f :: rest)),
     after_records w (plain_records opts env w frame_nr (f :: rest)) st).
Proof.
  intros Hopts Hnames Hw Hnr Hint Hroom w.
  apply Forall_cons in Hnames as [Hf Hrest].
  cbn [print_frames_loop plain_records]. rewrite length_cons in *.
  assert ((maxframes opts =? 0) || (frame_nr <? maxframes opts) = true) as ->.
  { destruct Hroom as [->|Hroom]; [done|].
    apply orb_true_iff. right. apply Z.ltb_lt. lia. }
  rewrite print_frames_body_no_name by done. cbv zeta.
  rewrite get_addr_width_first by done. cbn [fst snd]. fold w.
  rewrite wrap_int_id by (unfold in_int, INT_MAX in *; lia).
  assert (Hw' : w ≠ 0).
  { subst w. destruct (first_width_cases
      (dwfl_addrmodule env (pc_adjusted_of (pc f) (isactivation f))))
      as [-> | ->]; done. }
  rewrite print_frames_loop_plain; [|done|done|done|lia|lia|lia].
  f_equal; [lia|].
  unfold after_records, printf, set_width. cbn. by rewrite <- app_assoc.
Qed.

Lemma string_app_assoc (a b c : string) : (a +:+ b) +:+ c = a +:+ b +:+ c.
Proof.
  induction a as [|x a IH]; [done|].
  change (String x ((a +:+ b) +:+ c) = String x (a +:+ b +:+ c)).
  by rewrite IH.
Qed.

Lemma frame_record_default p demangle env w nr pc_ pca mod_ :
  frame_record (default_options p demangle) env w nr pc_ false pca mod_ None
               None None
  = "#" +:+ Fmt.unsigned_left2 nr +:+ " 0x" +:+ Fmt.hex0 w pc_ +:+ Fmt.newline.
Proof.
  unfold frame_record, frame_head, frame_tail, frame_module, frame_build_id,
    frame_source.
  cbn [default_options show_activation show_module show_build_id show_source].
  rewrite !string_app_assoc. reflexivity.
Qed.

(** C8 (as amended): scenario A.  A single thread yields the frames
    [0x4010, 0x4020, 0x4030], none an activation; the options are the
    defaults (ceiling 256) and no name resolves at the adjusted addresses
    0x400f, 0x401f and 0x402f, which are the addresses looked up.  Exactly
    three frame records are printed; the addresses they show are the
    captured ones, 0x4010, 0x4020 and 0x4030; they show no names; no
    diagnostic is recorded and the run exits with status OK. *)
Theorem scenario_A_output :
  ∀ (env : Dwfl) (tid p : Z) (demangle : bool),
    dwfl_threads env
    = [mk_thread tid [Frame_pc 16400 false; Frame_pc 16416 false;
                      Frame_pc 16432 false] 0] →
    dwfl_getthreads_result env = 0 →
    alloc_ok env 4096 = true →
    (∀ a m, a ∈ [16399; 16415; 16431] →
            dwfl_addrmodule env a = Some m →
            dwfl_module_addrname m a = None) →
    let w := first_width (dwfl_addrmodule env 16399) in
    let r := main (default_options p demangle) env in
    frame_records r
    = ["#0  0x" +:+ Fmt.hex0 w 16400 +:+ Fmt.newline;
       "#1  0x" +:+ Fmt.hex0 w 16416 +:+ Fmt.newline;
       "#2  0x" +:+ Fmt.hex0 w 16432 +:+ Fmt.newline]
    ∧ length (stdout (final_globals r)) = 5%nat
    ∧ stderr (final_globals r) = []
    ∧ exit_status r = Some EXIT_OK.
Proof.
  intros env tid p demangle Hthreads Hresult Halloc Hnames w r.
  set (opts := default_options p demangle) in *.
  set (l := [mk_frame 16400 false; mk_frame 16416 false;
             mk_frame 16432 false]).
  set (t := mk_thread tid _ 0) in Hthreads.
  assert (Hc : 0 < maxframes opts ≤ INT_MAX) by (unfold INT_MAX; cbn; lia).
  assert (Hl : Forall (no_name env) l).
  { repeat constructor; intros m; apply Hnames;
      repeat (first [apply list_elem_of_here | apply list_elem_of_further]). }
  subst r. unfold main, main_collect, main_list_modules, main_alloc_frames,
    malloc, realloc.
  cbn [opts default_options show_modules initial_allocated maxframes Z.eqb].
  change (wrap_u64 (sizeof_struct_frame * 256)) with 4096.
  rewrite Halloc.
  unfold main_show_threads, dwfl_getthreads.
  cbn [opts default_options show_one_tid].
  rewrite Hthreads, Hresult. cbn [getthreads_loop].
  set (st0 := printf _ initial_globals).
  set (fs0 := mk_frames 0 256 _).
  destruct (thread_callback_ceiling opts env t l fs0 st0 Hc)
    as (fs' & Hrun & Hbuf & Hfr & Hcap).
  { split; [done|]. subst fs0. cbn [frame].
    rewrite take_nil, app_nil_l, length_replicate. reflexivity. }
  { done. }
  rewrite Hrun. cbn [Z.eqb DWARF_CB_OK orb].
  change (if maxframes opts <=? Z.of_nat (length l) then 0
          else thread_end_errno t) with 0.
  change (Z.of_nat (length l) `min` maxframes opts) with 3 in Hfr.
  change (take (Z.to_nat (maxframes opts)) l) with l in Hcap.
  unfold print_frames. rewrite Hfr, Hcap. cbn [Z.ltb Z.compare].
  set (st1 := printf _ (set_frames_shown true st0)).
  subst l.
  rewrite (print_frames_loop_plain_first opts env (mk_frame 16400 false)
             [mk_frame 16416 false; mk_frame 16432 false] 0 st1);
    [|by right|done|done|done|unfold INT_MAX; cbn; lia|right; cbn; lia].
  cbv zeta. cbn [pc isactivation].
  change (pc_adjusted_of 16400 false) with 16399. fold w.
  cbn [length Z.of_nat Z.add Pos.of_succ_nat Pos.succ andb Z.eqb opts
       default_options maxframes negb].
  unfold main_exit. cbn [after_records frames_shown error_message_count
    st1 st0 printf set_frames_shown negb initial_globals Nat.eqb].
  change (0 + Z.of_nat 3 =? 256) with false. cbv iota.
  cbn [after_records frames_shown error_message_count
    st1 st0 printf set_frames_shown negb initial_globals Nat.eqb].
  unfold frame_records.
  cbn [final_globals exit_status stdout stderr after_records
       st1 st0 printf set_frames_shown initial_globals app drop length
       plain_records pc isactivation].
  unfold opts. rewrite !frame_record_default.
  done.
Qed.

Lemma scenario_A_output_witness :
  frame_records (main (default_options 1 true)
                      (bare_target 1 [scenario_A_thread]))
  = ["#0  0x0000000000004010" +:+ Fmt.newline;
     "#1  0x0000000000004020" +:+ Fmt.newline;
     "#2  0x0000000000004030" +:+ Fmt.newline]
  ∧ exit_status (main (default_options 1 true)
                      (bare_target 1 [scenario_A_thread]))
    = Some EXIT_OK.
Proof.
  destruct (scenario_A_output (bare_target 1 [scenario_A_thread]) 7 1 true)
    as (Hrec & _ & _ & Hexit).
  - reflexivity.
  - reflexivity.
  - reflexivity.
  - intros a m _ Hmod. discriminate Hmod.
  - split; [|exact Hexit]. rewrite Hrec. vm_compute. reflexivity.
Defined.

(** C8 as stated fails: the three records show the captured addresses
    0x4010, 0x4020 and 0x4030; the adjusted values 0x400f, 0x401f and 0x402f
    appear nowhere in the output. *)
Lemma scenario_A_addresses_counterexample :
  let r := main (default_options 1 true) (bare_target 1 [scenario_A_thread]) in
  frame_records r
  = ["#0  0x0000000000004010" +:+ Fmt.newline;
     "#1  0x0000000000004020" +:+ Fmt.newline;
     "#2  0x0000000000004030" +:+ Fmt.newline]
  ∧ frame_records r ≠ spec_scenario_A_records
  ∧ existsb (contains "400f") (stdout (final_globals r)) = false
  ∧ existsb (contains "401f") (stdout (final_globals r)) = false
  ∧ existsb (contains "402f") (stdout (final_globals r)) = false.
Proof. by vm_compute. Qed.

(** *** The exit status of a run *)

(** Every [exit] before the end of [main] has status BAD. *)
Lemma frame_callback_exits_bad opts env state fs st s st' :
  frame_callback opts env state fs st = Halt s st' → exits_bad s.
Proof.
  unfold frame_callback. destruct state as [p act|e]; [|done].
  destruct ((frames fs <? 0) || _); [by intros [= <- <-] c|].
  destruct (_ =? maxframes opts); [done|].
  destruct (_ =? allocated fs); [|done].
  destruct (realloc _ _ _); [done|].
  unfold error. cbn. by intros [= <- <-] c [= <-].
Qed.

Lemma getframes_loop_exits_bad opts env states :
  ∀ end_errno fs st s st',
    getframes_loop (frame_callback opts env) states end_errno fs st
    = Halt s st' →
    exits_bad s.
Proof.
  induction states as [|state states IH]; intros *; cbn [getframes_loop];
    [done|].
  destruct (frame_callback opts env state fs st) as [[r fs1] st1|s1 st1]
    eqn:Hcb.
  - destruct (r =? DWARF_CB_OK); [apply IH|done].
  - intros [= <- <-]. by eapply frame_callback_exits_bad.
Qed.

Lemma thread_callback_exits_bad opts env t fs st s st' :
  thread_callback opts env t fs st = Halt s st' → exits_bad s.
Proof.
  unfold thread_callback, dwfl_thread_getframes. cbv zeta.
  destruct (getframes_loop _ _ _ _ _) as [[[r e] fs1] st1|s1 st1] eqn:Hloop.
  - destruct (getframes_err r e); [done|]. by intros [= <- <-] c.
  - intros [= <- <-]. by eapply getframes_loop_exits_bad.
Qed.

Lemma getthreads_loop_exits_bad opts env result threads :
  ∀ fs st s st',
    getthreads_loop (thread_callback opts env) threads result fs st
    = Halt s st' →
    exits_bad s.
Proof.
  induction threads as [|t threads IH]; intros *; cbn [getthreads_loop];
    [done|].
  destruct (thread_callback opts env t fs st) as [[r fs1] st1|s1 st1] eqn:Hcb.
  - destruct (r =? DWARF_CB_OK); [apply IH|done].
  - intros [= <- <-]. by eapply thread_callback_exits_bad.
Qed.

Lemma main_collect_exits_bad opts env st s st' :
  main_collect opts env st = Halt s st' → exits_bad s.
Proof.
  unfold main_collect.
  destruct (main_list_modules opts env st) as [[] st1|s1 st1] eqn:Hm.
  2:{ intros [= <- <-]. revert Hm. unfold main_list_modules.
      destruct (show_modules opts); [|done].
      destruct (dwfl_getmodules _ _ _) as [r st2].
      destruct (negb (r =? 0)); [|done].
      unfold error. cbn. by intros [= <- <-] c [= <-]. }
  destruct (main_alloc_frames opts env st1) as [fs st2|s2 st2] eqn:Ha.
  2:{ intros [= <- <-]. revert Ha. unfold main_alloc_frames.
      destruct (malloc _ _); [done|].
      unfold error. cbn. by intros [= <- <-] c [= <-]. }
  unfold main_show_threads. destruct (show_one_tid opts).
  - unfold dwfl_getthread_frames.
    destruct (List.find _ _) as [t|].
    + unfold dwfl_thread_getframes.
      destruct (getframes_loop _ _ _ _ _) as [[[r e] fs1] st3|s3 st3]
        eqn:Hloop.
      * destruct (getframes_err r e); [done|]. by intros [= <- <-] c.
      * intros [= <- <-]. by eapply getframes_loop_exits_bad.
    + destruct (getframes_err _ _); [done|]. by intros [= <- <-] c.
  - unfold dwfl_getthreads.
    destruct (getthreads_loop _ _ _ _ _) as [[r fs1] st3|s3 st3] eqn:Hloop.
    + destruct ((r =? DWARF_CB_OK) || (r =? DWARF_CB_ABORT)); [done|].
      destruct (r =? -1); [done|]. by intros [= <- <-] c.
    + intros [= <- <-]. by eapply getthreads_loop_exits_bad.
Qed.

(** The exit decision as far as the flag goes: when the run reaches the
    end of [main] (no fatal error ended it before), the exit status is BAD
    (2) if [frames_shown] was never set; ERROR (1) if it was set and at
    least one diagnostic was counted; OK (0) if it was set and no diagnostic
    was counted.  [frames_shown] is set by [print_frames] when the thread's
    buffer holds at least one frame, before anything is printed, and is
    never cleared.  A fatal error before the end of [main] exits with status
    BAD as well. *)
Theorem exit_status_policy :
  ∀ (opts : Options) (env : Dwfl) (st : Globals),
    main_collect opts env initial_globals = Ret tt st →
    (frames_shown st = false →
     exit_status (main opts env) = Some EXIT_BAD)
    ∧ (frames_shown st = true → error_message_count st ≠ 0%nat →
       exit_status (main opts env) = Some EXIT_ERROR)
    ∧ (frames_shown st = true → error_message_count st = 0%nat →
       exit_status (main opts env) = Some EXIT_OK)
    ∧ (∀ fs tid dwflerr what st0,
         frames_shown (print_frames opts env fs tid dwflerr what st0)
         = (0 <? frames fs) || frames_shown st0)
    ∧ (∀ opts' env' c,
         (∃ st', main_collect opts' env' initial_globals = Halt (Exit c) st') →
         c = EXIT_BAD ∧ exit_status (main opts' env') = Some EXIT_BAD).
Proof.
  intros opts env st Hrun.
  destruct (exit_status_policy_aux opts env st Hrun) as (H1 & H2 & H3).
  split; [exact H1|]. split; [exact H2|]. split; [exact H3|]. split.
  - intros. apply print_frames_report.
  - intros opts' env' c [st' Hhalt].
    assert (c = EXIT_BAD) as ->.
    { by eapply (main_collect_exits_bad _ _ _ _ _ Hhalt). }
    split; [done|]. unfold main. by rewrite Hhalt.
Qed.

Lemma exit_status_policy_witness :
  main_collect (default_options 1 true) (bare_target 1 [scenario_A_thread])
               initial_globals
  = Ret tt (final_globals (main (default_options 1 true)
                                (bare_target 1 [scenario_A_thread])))
  ∧ exit_status (main (default_options 1 true)
                      (bare_target 1 [scenario_A_thread])) = Some EXIT_OK.
Proof.
  assert (H : main_collect (default_options 1 true)
                (bare_target 1 [scenario_A_thread]) initial_globals
              = Ret tt (final_globals (main (default_options 1 true)
                          (bare_target 1 [scenario_A_thread]))))
    by (vm_compute; reflexivity).
  split; [exact H|].
  destruct (exit_status_policy _ _ _ H) as (_ & _ & Hok).
  apply Hok; vm_compute; reflexivity.
Defined.

(** C1, where the code departs from it: a run in which no frame was ever
    shown should exit with status BAD.  With inline expansion on and a
    thread of one frame whose scope lookup for the expansion fails,
    [print_frames] sets [frames_shown] for the captured frame (lines
    366-367) and [print_inline_frames] then prints no record for it (lines
    328-329): standard output holds the two header lines and no frame
    record.  Yet with a ceiling of 1 the run exits with status OK, and
    without a ceiling it exits with status ERROR, after the diagnostic about
    a maximum of 0 frames; in neither run is the status BAD. *)
Theorem exit_status_not_bad_for_dropped_frame :
  let env := failing_scopes_target [one_frame_thread] in
  let headers :=
    ["PID 1 - process" +:+ Fmt.newline; "TID 7:" +:+ Fmt.newline] in
  (stdout (final_globals (main (inline_options 1) env)) = headers
   ∧ frame_records (main (inline_options 1) env) = []
   ∧ frames_shown (final_globals (main (inline_options 1) env)) = true
   ∧ stderr (final_globals (main (inline_options 1) env)) = []
   ∧ exit_status (main (inline_options 1) env) = Some EXIT_OK
   ∧ exit_status (main (inline_options 1) env) ≠ Some EXIT_BAD)
  ∧ (stdout (final_globals (main (inline_options 0) env)) = headers
     ∧ frame_records (main (inline_options 0) env) = []
     ∧ frames_shown (final_globals (main (inline_options 0) env)) = true
     ∧ stderr (final_globals (main (inline_options 0) env))
       = [msg_max_frames 7 0]
     ∧ exit_status (main (inline_options 0) env) = Some EXIT_ERROR
     ∧ exit_status (main (inline_options 0) env) ≠ Some EXIT_BAD).
Proof.
  vm_compute. repeat split; done.
Qed.

(** ** Further properties of the code *)

(** *** How many records the printing loops write *)

Lemma wrote_frames_nil st : wrote_frames st st [].
Proof.
  unfold wrote_frames. rewrite app_nil_r.
  split; [done|]. split; [constructor|apply same_report_refl].
Qed.

Lemma wrote_frames_app st1 st2 st3 recs1 recs2 :
  wrote_frames st1 st2 recs1 → wrote_frames st2 st3 recs2 →
  wrote_frames st1 st3 (recs1 ++ recs2).
Proof.
  intros (H1 & F1 & R1) (H2 & F2 & R2). split; [|split].
  - by rewrite H2, H1, app_assoc.
  - by apply Forall_app.
  - by eapply same_report_trans.
Qed.

Lemma frame_record_is_frame_record opts env w nr pc_ isact pca mod_ name cudie
  die :
  is_frame_record
    (frame_record opts env w nr pc_ isact pca mod_ name cudie die).
Proof.
  unfold is_frame_record, frame_record, frame_head.
  destruct (show_activation opts); rewrite !string_app_assoc;
    match goal with
    | |- String.prefix "#" ("#" +:+ ?t) = true =>
        generalize t; intros s; destruct s; reflexivity
    end.
Qed.

Lemma print_frame_wrote opts env nr pc_ isact pca mod_ symname cudie die st :
  ∃ r, wrote_frames st
         (print_frame opts env nr pc_ isact pca mod_ symname cudie die st) [r].
Proof.
  eexists. split; [apply print_frame_stdout|]. split.
  - constructor; [apply frame_record_is_frame_record|constructor].
  - apply print_frame_report.
Qed.

Lemma emit_frames_wrote opts env emitted :
  ∀ last nr pc_ isact pca mod_ cudie st,
    ∃ recs,
      wrote_frames st
        (emit_frames opts env emitted last nr pc_ isact pca mod_ cudie st).2
        recs
      ∧ length recs = length emitted.
Proof.
  induction emitted as [|scope rest IH];
    intros prev nr pc_ isact pca mod_ cudie st; cbn [emit_frames].
  - exists []. split; [apply wrote_frames_nil|done].
  - destruct (print_frame_wrote opts env nr pc_ isact pca mod_
                (die_name scope) cudie (Some prev) st) as [r Hr].
    edestruct IH as (recs & Hrecs & Hlen).
    exists ([r] ++ recs). split.
    + eapply wrote_frames_app; [exact Hr|exact Hrecs].
    + cbn. by rewrite Hlen.
Qed.

Section RecordsUnderCeiling.
Context (opts : Options) (env : Dwfl).
Hypothesis ceiling_pos : 0 < maxframes opts.
Hypothesis ceiling_int : maxframes opts ≤ INT_MAX.

(** One captured frame: as many records as the frame number advances. *)
Lemma print_frames_body_records f frame_nr st :
  0 ≤ frame_nr < maxframes opts →
  ∃ recs,
    wrote_frames st (print_frames_body opts env f frame_nr st).2 recs
    ∧ (print_frames_body opts env f frame_nr st).1
      = frame_nr + Z.of_nat (length recs)
    ∧ frame_nr + Z.of_nat (length recs) ≤ maxframes opts.
Proof.
  intros Hnr. unfold print_frames_body. cbv zeta.
  destruct (frame_resolve _ _ _ _) as [[symname die] cudie].
  destruct (if show_inlines opts then die else None) as [d|].
  - unfold print_inline_frames.
    destruct (dwarf_getscopes_die env d) as [[|scope0 rest]|];
      try (exists []; split; [apply wrote_frames_nil|cbn; lia]).
    rewrite wrap_int_id by (unfold in_int, INT_MAX in *; lia).
    rewrite print_inline_loop_walk by (unfold INT_MAX in *; lia).
    match goal with
    | |- context [emit_frames opts env ?em ?l ?n ?p ?a ?pa ?m ?c ?s] =>
        destruct (emit_frames_wrote opts env em l n p a pa m c s)
          as (recs & Hrecs & Hlen);
        pose proof (emit_frames_nr opts env em l n p a pa m c s) as Hn;
        assert (Hem : Z.of_nat (length em) ≤ maxframes opts - (frame_nr + 1))
    end.
    { rewrite length_take. unfold ceiling_room.
      destruct (Z.eqb_spec (maxframes opts) 0); lia. }
    edestruct (print_frame_wrote opts env frame_nr) as [r Hr].
    exists ([r] ++ recs). split; [|split].
    + eapply wrote_frames_app; [exact Hr|exact Hrecs].
    + rewrite Hn by (unfold INT_MAX in *; lia).
      rewrite length_app. cbn [length]. lia.
    + rewrite length_app. cbn [length]. lia.
  - edestruct (print_frame_wrote opts env frame_nr) as [r Hr].
    exists [r]. split; [exact Hr|]. cbn [fst length].
    rewrite wrap_int_id by (unfold in_int, INT_MAX in *; lia). lia.
Qed.

Lemma print_frames_loop_records captured :
  ∀ frame_nr st,
    0 ≤ frame_nr ≤ maxframes opts →
    ∃ recs,
      wrote_frames st (print_frames_loop opts env captured frame_nr st).2 recs
      ∧ (print_frames_loop opts env captured frame_nr st).1
        = frame_nr + Z.of_nat (length recs)
      ∧ frame_nr + Z.of_nat (length recs) ≤ maxframes opts.
Proof.
  induction captured as [|f rest IH]; intros frame_nr st Hnr;
    cbn [print_frames_loop].
  - exists []. split; [apply wrote_frames_nil|cbn; lia].
  - rewrite ceiling_guard by done.
    destruct (Z.ltb_spec frame_nr (maxframes opts)).
    + destruct (print_frames_body_records f frame_nr st ltac:(lia))
        as (recs1 & H1 & Hn1 & Hb1).
      destruct (print_frames_body opts env f frame_nr st) as [nr1 st1].
      cbn [fst snd] in *. subst nr1.
      destruct (IH (frame_nr + Z.of_nat (length recs1)) st1 ltac:(lia))
        as (recs2 & H2 & Hn2 & Hb2).
      exists (recs1 ++ recs2). rewrite length_app. split; [|split].
      * by eapply wrote_frames_app.
      * rewrite Hn2. lia.
      * lia.
    + exists []. split; [apply wrote_frames_nil|cbn; lia].
Qed.

End RecordsUnderCeiling.

(** X1: with a ceiling, [print_frames] writes the thread header and then at
    most [maxframes] frame records, whatever the buffer holds and whatever
    inline expansion adds.  It records exactly one diagnostic when the
    thread had a frame and exactly [maxframes] records were written (the
    ceiling diagnostic, which takes precedence) or when the walk failed, and
    none otherwise. *)
Theorem print_frames_bounded_by_ceiling :
  ∀ (opts : Options) (env : Dwfl) (fs : struct_frames) (tid dwflerr : Z)
    (what : string) (st : Globals),
    0 < maxframes opts ≤ INT_MAX →
    let st' := print_frames opts env fs tid dwflerr what st in
    ∃ recs,
      stdout st'
      = stdout st ++ ("TID " +:+ Fmt.dec tid +:+ ":" +:+ Fmt.newline) :: recs
      ∧ Forall is_frame_record recs
      ∧ Z.of_nat (length recs) ≤ maxframes opts
      ∧ let at_ceiling :=
          (0 <? frames fs) && (Z.of_nat (length recs) =? maxframes opts) in
        let diagnosed := at_ceiling || negb (dwflerr =? 0) in
        error_message_count st'
        = (error_message_count st + if diagnosed then 1 else 0)%nat
        ∧ (at_ceiling = true →
           stderr st'
           = stderr st ++ [msg_max_frames tid (maxframes opts)])
        ∧ (at_ceiling = false → dwflerr = 0 → stderr st' = stderr st)
        ∧ (frames fs ≤ 0 → dwflerr ≠ 0 →
           stderr st' = stderr st ++ [msg_unwind env what tid dwflerr]).
Proof.
  intros opts env fs tid dwflerr what st [Hpos Hint] st'. subst st'.
  unfold print_frames. cbv zeta.
  set (st1 := printf _ (if 0 <? frames fs then _ else _)).
  destruct (print_frames_loop_records opts env Hpos Hint (captured_frames fs)
              0 st1 ltac:(lia)) as (recs & (Hout & Hall & R1 & R2 & R3) & Hnr & Hb).
  destruct (print_frames_loop opts env (captured_frames fs) 0 st1)
    as [nr st2].
  cbn [fst snd] in *. subst nr. rewrite Z.add_0_l in *.
  assert (Hc1 : error_message_count st1 = error_message_count st)
    by (subst st1; by destruct (0 <? frames fs)).
  assert (He1 : stderr st1 = stderr st)
    by (subst st1; by destruct (0 <? frames fs)).
  assert (Ho1 : stdout st1
                = stdout st ++ ["TID " +:+ Fmt.dec tid +:+ ":" +:+ Fmt.newline])
    by (subst st1; by destruct (0 <? frames fs)).
  exists recs.
  destruct ((0 <? frames fs) && (Z.of_nat (length recs) =? maxframes opts))
    eqn:Hceil; cbn [orb].
  - unfold error_report. cbn.
    rewrite Hout, Ho1, R2, R3, Hc1, He1, <- app_assoc.
    repeat split; try done; try lia.
  - destruct (Z.eqb_spec dwflerr 0) as [->|Hne]; cbn [negb].
    + rewrite Hout, Ho1, R2, R3, Hc1, He1, <- app_assoc.
      repeat split; try done; try lia.
    + destruct (Z.ltb_spec 0 (frames fs)).
      * unfold error_report. cbn.
        rewrite Hout, Ho1, R2, Hc1, <- app_assoc.
        repeat split; try done; try lia.
      * unfold error_report. cbn.
        rewrite Hout, Ho1, R2, R3, Hc1, He1, <- app_assoc.
        repeat split; try done; try lia.
Qed.

Lemma print_frames_bounded_by_ceiling_witness :
  ∃ recs,
    stdout (print_frames (options_with_maxframes 2) (bare_target 1 [])
              (mk_frames 2 2 [mk_frame 16400 true; mk_frame 16416 false])
              7 0 "dwfl_thread_getframes" initial_globals)
    = [] ++ ("TID " +:+ Fmt.dec 7 +:+ ":" +:+ Fmt.newline) :: recs
    ∧ Z.of_nat (length recs) ≤ 2.
Proof.
  destruct (print_frames_bounded_by_ceiling
              (options_with_maxframes 2) (bare_target 1 [])
              (mk_frames 2 2 [mk_frame 16400 true; mk_frame 16416 false])
              7 0 "dwfl_thread_getframes" initial_globals)
    as (recs & Hout & _ & Hlen & _).
  - unfold INT_MAX. cbn. lia.
  - exists recs. split; [exact Hout|exact Hlen].
Defined.

(** *** Runs under a ceiling *)

(** Under a ceiling the walk over the threads cannot end the process:
    nothing is reallocated and no store leaves the buffer.  Only a result of
    [dwfl_getthreads] outside 0, 1 and -1 reaches [abort ()]. *)
Lemma main_show_threads_ceiling_returns opts env fs st :
  0 < maxframes opts ≤ INT_MAX →
  buffer_of (maxframes opts) fs →
  frames fs = 0 →
  show_one_tid opts = true
  ∨ dwfl_getthreads_result env = 0 ∨ dwfl_getthreads_result env = 1
  ∨ dwfl_getthreads_result env = -1 →
  ∃ st', main_show_threads opts env fs st = Ret tt st'.
Proof.
  intros Hc Hbuf Hfr Hres. pose proof Hc as [Hpos Hint].
  unfold main_show_threads.
  destruct (show_one_tid opts).
  - unfold dwfl_getthread_frames.
    destruct (List.find _ _) as [t|].
    + unfold dwfl_thread_getframes.
      destruct (getframes_loop_ceiling_any opts env Hint (thread_unwound t)
                  (thread_end_errno t) fs st Hbuf ltac:(lia))
        as (r & e & fs' & Hrun & _ & _ & [err Herr]).
      rewrite Hrun, Herr. by eexists.
    + cbn. by eexists.
  - unfold dwfl_getthreads.
    edestruct (getthreads_loop_ceiling opts env (dwfl_getthreads_result env)
                 (dwfl_threads env) Hc fs) as (fs' & st' & Hloop & _);
      [exact Hbuf|].
    rewrite Hloop.
    destruct Hres as [?|[-> | [-> | ->]]]; [done|..]; cbn; by eexists.
Qed.

Lemma main_under_ceiling_exits opts env :
  0 < maxframes opts ≤ INT_MAX →
  show_one_tid opts = true
  ∨ dwfl_getthreads_result env = 0 ∨ dwfl_getthreads_result env = 1
  ∨ dwfl_getthreads_result env = -1 →
  ∃ c, exit_status (main opts env) = Some c
       ∧ (c = EXIT_OK ∨ c = EXIT_ERROR ∨ c = EXIT_BAD).
Proof.
  intros Hc Hres. unfold main.
  destruct (main_collect opts env initial_globals) as [[] st|s st] eqn:Hrun.
  - unfold main_exit. destruct (frames_shown st); cbn.
    + destruct (Nat.eqb _ _); cbn; eauto.
    + eauto.
  - revert Hrun. unfold main_collect.
    destruct (main_list_modules opts env initial_globals) as [[] st1|s1 st1]
      eqn:Hm.
    2:{ intros [= <- <-].
        revert Hm. unfold main_list_modules.
        destruct (show_modules opts); [|done].
        destruct (dwfl_getmodules _ _ _) as [r st2].
        destruct (negb (r =? 0)); [|done].
        unfold error. cbn. intros [= <- <-]. cbn. eauto. }
    destruct (main_alloc_frames opts env st1) as [fs st2|s2 st2] eqn:Ha.
    2:{ intros [= <- <-]. revert Ha. unfold main_alloc_frames.
        destruct (malloc _ _); [done|].
        unfold error. cbn. intros [= <- <-]. cbn. eauto. }
    destruct (main_alloc_frames_ceiling opts env st1 fs st2 Hc Ha)
      as (-> & Hfr & Hbuf).
    destruct (main_show_threads_ceiling_returns opts env fs st1 Hc Hbuf Hfr
                Hres) as [st' ->].
    done.
Qed.

(** X2: under a ceiling, whatever the unwinder and the debug information
    give, no store leaves the frame buffer and the run ends with exit
    status 0, 1 or 2 (as long as [dwfl_getthreads] returns 0, 1 or -1, or a
    single thread is walked). *)
Theorem run_under_ceiling_exits_0_1_2 :
  ∀ (opts : Options) (env : Dwfl),
    0 < maxframes opts ≤ INT_MAX →
    show_one_tid opts = true
    ∨ dwfl_getthreads_result env = 0 ∨ dwfl_getthreads_result env = 1
    ∨ dwfl_getthreads_result env = -1 →
    ∃ c, exit_status (main opts env) = Some c
         ∧ (c = EXIT_OK ∨ c = EXIT_ERROR ∨ c = EXIT_BAD).
Proof. intros opts env. apply main_under_ceiling_exits. Qed.

Lemma run_under_ceiling_exits_0_1_2_witness :
  ∃ c, exit_status (main (default_options 1 true)
                         (bare_target 1 [five_frames_thread; failing_thread]))
       = Some c
       ∧ (c = EXIT_OK ∨ c = EXIT_ERROR ∨ c = EXIT_BAD).
Proof.
  apply run_under_ceiling_exits_0_1_2.
  - unfold INT_MAX. cbn. lia.
  - right. left. reflexivity.
Defined.

(** *** Targets without frames *)

Lemma getframes_loop_no_frame opts env t fs st :
  yields_no_frame t →
  ∃ r e,
    dwfl_thread_getframes (frame_callback opts env) t fs st
    = Ret (r, e, fs) st
    ∧ is_Some (getframes_err r e).
Proof.
  unfold yields_no_frame, dwfl_thread_getframes.
  destruct (thread_unwound t) as [|[p act|e0] states]; [|done|]; intros _;
    cbn [getframes_loop frame_callback Z.eqb DWARF_CB_OK].
  - eexists _, _. split; [done|]. unfold getframes_err.
    by destruct (thread_end_errno t =? 0).
  - eexists _, _. split; [done|]. by unfold getframes_err.
Qed.

Lemma print_frames_no_frame opts env fs tid dwflerr what st :
  frames fs = 0 →
  frames_shown (print_frames opts env fs tid dwflerr what st)
  = frames_shown st.
Proof.
  intros Hfr.
  pose proof (print_frames_report opts env fs tid dwflerr what st) as [Hs _].
  by rewrite Hs, Hfr.
Qed.

Lemma getthreads_loop_no_frame opts env result threads :
  Forall yields_no_frame threads →
  ∀ fs st,
    ∃ fs' st',
      getthreads_loop (thread_callback opts env) threads result fs st
      = Ret (result, fs') st'
      ∧ frames_shown st' = frames_shown st.
Proof.
  induction 1 as [|t threads Ht _ IH]; intros fs st; cbn [getthreads_loop].
  - by exists fs, st.
  - unfold thread_callback at 1. cbv zeta.
    destruct (getframes_loop_no_frame opts env t
                (mk_frames 0 (allocated fs) (frame fs)) st Ht)
      as (r & e & Hrun & [err Herr]).
    rewrite Hrun, Herr. cbn [Z.eqb DWARF_CB_OK].
    edestruct IH as (fs' & st' & Hloop & Hs).
    exists fs', st'. split; [exact Hloop|].
    rewrite Hs. by apply print_frames_no_frame.
Qed.

Lemma module_callback_report m name start st :
  same_report st (module_callback m name start st).2.
Proof.
  pose proof (get_addr_width_frame (Some m) st) as Hf.
  unfold module_callback. cbv zeta.
  destruct (get_addr_width (Some m) st) as [w st1].
  cbn in Hf. destruct Hf as (F1 & F2 & _ & F3 & _).
  repeat match goal with
         | |- context [match ?x with _ => _ end] => destruct x
         end;
    unfold same_report; cbn; by rewrite F1, F2, F3.
Qed.

Lemma getmodules_loop_report mods :
  ∀ result st,
    same_report st (getmodules_loop module_callback mods result st).2.
Proof.
  induction mods as [|[[m name] start] mods IH]; intros result st;
    cbn [getmodules_loop]; [apply same_report_refl|].
  pose proof (module_callback_report m name start st) as Hcb.
  destruct (module_callback m name start st) as [r st1].
  destruct (r =? DWARF_CB_OK); [|exact Hcb].
  eapply same_report_trans; [exact Hcb|apply IH].
Qed.

(** Listing the modules and allocating the buffer never set
    [frames_shown], also when they end the run. *)
Lemma main_list_modules_frames_shown opts env st :
  frames_shown (final_globals (main_list_modules opts env st))
  = frames_shown st.
Proof.
  unfold main_list_modules. destruct (show_modules opts); [|done].
  unfold dwfl_getmodules.
  match goal with
  | |- context [getmodules_loop module_callback ?ms ?r ?s] =>
      pose proof (getmodules_loop_report ms r s) as (H1 & _);
      destruct (getmodules_loop module_callback ms r s) as [rc st1]
  end.
  cbn [snd] in H1.
  destruct (negb (rc =? 0)); unfold error; cbn; by rewrite H1.
Qed.

Lemma main_alloc_frames_cases opts env st :
  (∃ fs, main_alloc_frames opts env st = Ret fs st ∧ frames fs = 0)
  ∨ (∃ st', main_alloc_frames opts env st = Halt (Exit EXIT_BAD) st'
            ∧ frames_shown st' = frames_shown st).
Proof.
  unfold main_alloc_frames. cbv zeta. destruct (malloc _ _).
  - left. by eexists.
  - right. unfold error. cbn. by eexists.
Qed.

Lemma main_show_threads_no_frame opts env fs st :
  Forall yields_no_frame (dwfl_threads env) →
  frames fs = 0 →
  show_one_tid opts = true
  ∨ dwfl_getthreads_result env = 0 ∨ dwfl_getthreads_result env = 1
  ∨ dwfl_getthreads_result env = -1 →
  ∃ st', main_show_threads opts env fs st = Ret tt st'
         ∧ frames_shown st' = frames_shown st.
Proof.
  intros Hthreads Hfr Hres. unfold main_show_threads.
  destruct (show_one_tid opts).
  - unfold dwfl_getthread_frames.
    destruct (List.find _ _) as [t|] eqn:Hfind.
    + apply find_some in Hfind as [Hin _].
      apply list_elem_of_In in Hin.
      rewrite Forall_forall in Hthreads.
      destruct (getframes_loop_no_frame opts env t fs st (Hthreads t Hin))
        as (r & e & Hloop & [err Herr]).
      rewrite Hloop, Herr. eexists. split; [done|].
      by apply print_frames_no_frame.
    + cbn. eexists. split; [done|]. by apply print_frames_no_frame.
  - unfold dwfl_getthreads.
    edestruct (getthreads_loop_no_frame opts env
                 (dwfl_getthreads_result env) (dwfl_threads env) Hthreads fs)
      as (fs' & st' & Hloop & Hs).
    rewrite Hloop.
    destruct Hres as [?|[-> | [-> | ->]]]; [done|..]; cbn;
      eexists; (split; [done|]); cbn; exact Hs.
Qed.

(** X3: when no thread of the target yields a frame (the walk of each ends
    at once or fails on its first state; this includes a single-thread run
    for a thread id the target does not have), nothing sets [frames_shown]
    and the run exits with status BAD, whatever the options and however many
    diagnostics were recorded. *)
Theorem run_without_frames_exits_bad :
  ∀ (opts : Options) (env : Dwfl),
    Forall yields_no_frame (dwfl_threads env) →
    show_one_tid opts = true
    ∨ dwfl_getthreads_result env = 0 ∨ dwfl_getthreads_result env = 1
    ∨ dwfl_getthreads_result env = -1 →
    exit_status (main opts env) = Some EXIT_BAD
    ∧ frames_shown (final_globals (main opts env)) = false.
Proof.
  intros opts env Hthreads Hres. unfold main, main_collect.
  pose proof (main_list_modules_frames_shown opts env initial_globals) as Hm.
  destruct (main_list_modules opts env initial_globals) as [[] st1|s1 st1]
    eqn:Hlist; cbn [final_globals] in Hm.
  - destruct (main_alloc_frames_cases opts env st1)
      as [(fs & -> & Hfr)|(st2 & -> & Hs2)].
    + destruct (main_show_threads_no_frame opts env fs st1 Hthreads Hfr Hres)
        as (st' & -> & Hs).
      unfold main_exit. rewrite Hs, Hm.
      cbn [frames_shown initial_globals negb]. unfold error. cbn.
      by rewrite Hs, Hm.
    + cbn. by rewrite Hs2, Hm.
  - revert Hlist. unfold main_list_modules.
    destruct (show_modules opts); [|done].
    destruct (dwfl_getmodules _ _ _) as [r st2].
    destruct (negb (r =? 0)); [|done].
    unfold error. cbn. intros [= <- <-]. cbn. done.
Qed.

Lemma run_without_frames_exits_bad_witness :
  exit_status (main (default_options 1 true)
                    (bare_target 1 [failing_thread; empty_thread]))
  = Some EXIT_BAD.
Proof.
  apply run_without_frames_exits_bad.
  - repeat constructor.
  - right. left. reflexivity.
Defined.

(** ** The command line *)

Ltac decide_key a b :=
  let v := eval vm_compute in (a =? b) in change (a =? b) with v.

(** Decides the tests of the [switch] of [parse_opt] for a given key. *)
Ltac decide_keys :=
  repeat match goal with
  | |- context [?a =? key_of ?x] => decide_key a (key_of x)
  | |- context [?a =? OPT_COREFILE] => decide_key a OPT_COREFILE
  | |- context [?a =? OPT_DEBUGINFO] => decide_key a OPT_DEBUGINFO
  | |- context [?a =? ARGP_KEY_END] => decide_key a ARGP_KEY_END
  end;
  lazy beta iota.

(** One case of [parse_opt] per entry of the option table. *)
Ltac option_cases H :=
  unfold option_keys in H; cbn [options fmap list_fmap fst] in H;
  repeat (apply elem_of_cons in H as [->|H]);
  [..|by apply elem_of_nil in H];
  unfold parse_opt; decide_keys.

Lemma wrap_int_upper x : wrap_int x ≤ INT_MAX.
Proof.
  unfold wrap_int, INT_MAX.
  pose proof (Z.mod_pos_bound (x + 2 ^ 31) (2 ^ 32) ltac:(lia)). lia.
Qed.

Lemma error_bad {A} env errnum msg (a : A) st :
  error env EXIT_BAD errnum msg a st
  = Halt (Exit EXIT_BAD) (error_report env errnum msg st).
Proof. reflexivity. Qed.

Lemma rejected_argp_error {A} st msg : rejected st (@argp_error A msg st).
Proof.
  exists (Exit EXIT_USAGE), (final_globals (@argp_error A msg st)), msg.
  repeat split. by left.
Qed.

Lemma rejected_error {A} env errnum msg (a : A) st :
  rejected st (error env EXIT_BAD errnum msg a st).
Proof.
  rewrite error_bad. eexists _, _, _. split; [done|].
  cbn. repeat split. by right.
Qed.

(** An option of the table is accepted silently, with the options still
    valid, or ends the process. *)
Lemma parse_opt_option env host key arg c st :
  key ∈ option_keys →
  valid_options (cmd_options c) →
  (∃ c', parse_opt env host key arg c st = Ret (0, c') st
         ∧ valid_options (cmd_options c'))
  ∨ rejected st (parse_opt env host key arg c st).
Proof.
  intros Hkey [Hi Hm].
  option_cases Hkey.
  all: try (left; eexists; split; [reflexivity|]; by split).
  - destruct (_ =? 0); [right; apply rejected_argp_error|].
    left. eexists. split; [reflexivity|]. by split.
  - destruct (_ <? 0); [right; apply rejected_error|].
    destruct (elf_begin _ _); [|right; apply rejected_error].
    left. eexists. split; [reflexivity|]. by split.
  - destruct (Z.ltb_spec (maxframes (cmd_options (set_options
                (set_maxframes (wrap_int (atoi host arg)) (cmd_options c)) c)))
              0) as [|Hn];
      [right; apply rejected_argp_error|].
    left. eexists. split; [reflexivity|]. split; [done|].
    cbn in *. split; [done|apply wrap_int_upper].
Qed.

Lemma rejected_and_then {A B} st (r : Res A) (k : A → Globals → Res B) :
  rejected st r → rejected st (and_then r k).
Proof.
  intros (s & st' & msg & -> & H). by exists s, st', msg.
Qed.

Lemma begin_proc_cases env host c st :
  (∃ c', begin_proc env host c st = Ret c' st
         ∧ cmd_options c' = cmd_options c ∧ core c' = core c
         ∧ exec c' = exec c
         ∧ dwfl c' = if pid (cmd_options c) =? 0 then dwfl c
                     else Some proc_callbacks)
  ∨ rejected st (begin_proc env host c st).
Proof.
  unfold begin_proc.
  destruct (pid (cmd_options c) =? 0); cbn [negb]; [left; by eexists|].
  destruct (dwfl_begin host proc_callbacks); cbn [negb];
    [|right; apply rejected_error].
  destruct (_ <? 0); [right; apply rejected_error|].
  destruct (0 <? _); [right; apply rejected_error|].
  left. by eexists.
Qed.

Lemma begin_core_cases env host c st :
  (∃ c', begin_core env host c st = Ret c' st
         ∧ cmd_options c' = cmd_options c ∧ core c' = core c
         ∧ exec c' = exec c
         ∧ dwfl c' = if is_null (core c) then dwfl c
                     else Some core_callbacks)
  ∨ rejected st (begin_core env host c st).
Proof.
  unfold begin_core.
  destruct (core c) eqn:Hc; cbn [is_null]; [|left; by eexists].
  destruct (dwfl_begin host core_callbacks); cbn [negb];
    [|right; apply rejected_error].
  destruct (_ <? 0); [right; apply rejected_error|].
  left. by eexists.
Qed.

Lemma attach_proc_cases env host c st :
  attach_proc env host c st = Ret c st
  ∨ rejected st (attach_proc env host c st).
Proof.
  unfold attach_proc.
  destruct (pid (cmd_options c) =? 0); cbn [negb]; [by left|].
  destruct (_ <? 0); [right; apply rejected_error|].
  destruct (0 <? _); [right; apply rejected_error|].
  by left.
Qed.

Lemma attach_core_cases env host c st :
  attach_core env host c st = Ret c st
  ∨ rejected st (attach_core env host c st).
Proof.
  unfold attach_core.
  destruct (core c); [|by left].
  destruct (_ <? 0); [right; apply rejected_error|].
  by left.
Qed.

(** The end of the command line: the input selection is checked and the
    session begun and attached, or the process ends. *)
Lemma parse_opt_end env host arg c st :
  valid_options (cmd_options c) →
  (∃ c', parse_opt env host ARGP_KEY_END arg c st = Ret (0, c') st
         ∧ cmd_options c' = cmd_options c
         ∧ valid_cmdline c')
  ∨ rejected st (parse_opt env host ARGP_KEY_END arg c st).
Proof.
  intros Hv. unfold parse_opt. decide_keys. unfold parse_end.
  destruct (is_null (core c) && negb (is_null (exec c))) eqn:He;
    [right; apply rejected_and_then, rejected_argp_error|].
  destruct ((pid (cmd_options c) =? 0) && show_one_tid (cmd_options c))
    eqn:Hone; [right; apply rejected_and_then, rejected_argp_error|].
  destruct (_ || _) eqn:Hin;
    [right; apply rejected_and_then, rejected_argp_error|].
  destruct (begin_proc_cases env host c st)
    as [(c1 & -> & Ho1 & Hc1 & He1 & Hd1)|Hr];
    [|right; by do 2 apply rejected_and_then].
  cbn [and_then].
  destruct (begin_core_cases env host c1 st)
    as [(c2 & -> & Ho2 & Hc2 & He2 & Hd2)|Hr];
    [|right; by do 2 apply rejected_and_then].
  cbn [and_then].
  destruct (negb (dwfl_report_end host =? 0));
    [right; by do 2 apply rejected_and_then; apply rejected_error|].
  cbn [and_then].
  destruct (attach_proc_cases env host c2 st) as [->|Hr];
    [|right; by do 2 apply rejected_and_then].
  cbn [and_then].
  destruct (attach_core_cases env host c2 st) as [->|Hr];
    [|right; by do 2 apply rejected_and_then].
  cbn [and_then].
  destruct (host_dwfl_pid host <? 0);
    [right; by apply rejected_and_then, rejected_error|].
  cbn [and_then]. left. exists c2. split; [done|].
  split; [congruence|].
  unfold valid_cmdline. rewrite Ho2, Ho1, Hc2, Hc1, He2, He1, Hd2, Hc1, Hd1.
  split; [done|].
  destruct (Z.eqb_spec (pid (cmd_options c)) 0) as [Hp|Hp];
    destruct (core c) as [h|]; destruct (exec c) as [e|];
    destruct (show_one_tid (cmd_options c)); try done; cbn in *.
  all: repeat split; try done; eauto.
Qed.

Lemma parse_options_accepts env host args : ∀ c st,
  Forall is_option args →
  valid_options (cmd_options c) →
  (∃ c', parse_options env host args c st = Ret (0, c') st
         ∧ valid_cmdline c')
  ∨ rejected st (parse_options env host args c st).
Proof.
  induction args as [|[key arg] rest IH]; intros c st Hargs Hv.
  - cbn [parse_options].
    destruct (parse_opt_end env host "" c st Hv) as [(c' & Hrun & _ & Hc)|Hr];
      [left; by exists c'|by right].
  - apply Forall_cons_1 in Hargs as [Hkey Hrest].
    cbn [parse_options].
    destruct (parse_opt_option env host key arg c st Hkey Hv)
      as [(c' & -> & Hv')|Hr]; [|right; by apply rejected_and_then].
    cbn [and_then]. change (0 =? 0) with true. cbn match.
    by apply IH.
Qed.

(** X5: a command line of options of the table is either accepted, and
    then nothing was written and the statics are consistent (exactly one of
    a process and a core file is selected, and the session is begun for it;
    [-1] only with a process, [-e] only with a core file; inline expansion
    only together with debug names; a ceiling from 0 to INT_MAX), or it
    ends the process with one message on standard error: with status 64,
    which is not counted as a diagnostic, or with status 2. *)
Theorem accepted_command_line_is_valid :
  ∀ (env : Dwfl) (host : Host) (args : list (Z * string)) (demangle : bool)
    (st : Globals),
    Forall is_option args →
    (∃ c, argp_parse env host args demangle st = Ret (0, c) st
          ∧ valid_cmdline c)
    ∨ rejected st (argp_parse env host args demangle st).
Proof.
  intros env host args demangle st Hargs.
  apply parse_options_accepts; [done|].
  split; [done|]. unfold INT_MAX. cbn. lia.
Qed.

Lemma accepted_command_line_is_valid_witness :
  (∃ c, argp_parse (bare_target 1 []) sample_host
          [(key_of "i", ""); (key_of "p", "42"); (key_of "n", "42")]
          true initial_globals
        = Ret (0, c) initial_globals
        ∧ valid_cmdline c)
  ∨ rejected initial_globals
      (argp_parse (bare_target 1 []) sample_host
         [(key_of "i", ""); (key_of "p", "42"); (key_of "n", "42")]
         true initial_globals).
Proof.
  apply accepted_command_line_is_valid.
  repeat constructor;
    unfold is_option, option_keys; cbn [options fmap list_fmap fst];
    repeat (first [apply list_elem_of_here | apply list_elem_of_further]).
Defined.

(** X6: the [switch] of [parse_opt] and the option table of [main] agree.
    A key of the table is handled: the call returns 0 without writing
    anything, or ends the process with status 64 or 2.  Any other key, the
    end of the command line apart, is answered with [ARGP_ERR_UNKNOWN] and
    changes nothing. *)
Theorem parse_opt_agrees_with_option_table :
  ∀ (env : Dwfl) (host : Host) (key : Z) (arg : string) (c : Cmdline)
    (st : Globals),
    key ≠ ARGP_KEY_END →
    (key ∈ option_keys →
     (∃ c', parse_opt env host key arg c st = Ret (0, c') st)
     ∨ rejected st (parse_opt env host key arg c st))
    ∧ (key ∉ option_keys →
       parse_opt env host key arg c st = Ret (ARGP_ERR_UNKNOWN, c) st).
Proof.
  intros env host key arg c st Hend. split.
  - intros Hkey. option_cases Hkey.
    all: try (left; eexists; reflexivity).
    + destruct (_ =? 0); [right; apply rejected_argp_error|].
      left. by eexists.
    + destruct (_ <? 0); [right; apply rejected_error|].
      destruct (elf_begin _ _); [|right; apply rejected_error].
      left. by eexists.
    + destruct (_ <? 0); [right; apply rejected_argp_error|].
      left. by eexists.
  - intros Hkey. unfold option_keys in Hkey.
    cbn [options fmap list_fmap fst] in Hkey.
    rewrite !not_elem_of_cons in Hkey.
    unfold parse_opt.
    repeat match goal with
    | |- context [key =? ?k] =>
        rewrite (proj2 (Z.eqb_neq key k)) by tauto
    end.
    reflexivity.
Qed.

Lemma parse_opt_agrees_with_option_table_witness :
  parse_opt (bare_target 1 []) sample_host (key_of "x") "" 
            (initial_cmdline true) initial_globals
  = Ret (ARGP_ERR_UNKNOWN, initial_cmdline true) initial_globals.
Proof.
  apply parse_opt_agrees_with_option_table.
  - vm_compute. discriminate.
  - unfold option_keys. cbn [options fmap list_fmap fst].
    rewrite !not_elem_of_cons. vm_compute.
    repeat split; try discriminate. apply not_elem_of_nil.
Defined.

(** *** Input selection *)





(** *** Flags *)

Ltac flag_cases H :=
  unfold is_flag in H; cbn [options fst] in H;
  repeat (apply elem_of_cons in H as [[= ->]|H]);
  [..|by apply elem_of_nil in H].

(** A flag is always accepted. *)
Lemma parse_opt_flag env host a c st :
  is_flag a → ∃ c', parse_opt env host a.1 a.2 c st = Ret (0, c') st.
Proof.
  destruct a as [key arg]. intros H. cbn [fst snd].
  flag_cases H.
  all: unfold parse_opt; decide_keys; by eexists.
Qed.

Lemma parse_opt_flags_swap env host a b c st :
  is_flag a → is_flag b →
  and_then (parse_opt env host a.1 a.2 c st) (λ '(_, c) st,
            parse_opt env host b.1 b.2 c st)
  = and_then (parse_opt env host b.1 b.2 c st) (λ '(_, c) st,
              parse_opt env host a.1 a.2 c st).
Proof.
  destruct a as [ka xa], b as [kb xb]. intros Ha Hb. cbn [fst snd].
  flag_cases Ha; flag_cases Hb; reflexivity.
Qed.

Lemma parse_options_flags_perm env host fl1 fl2 rest :
  fl1 ≡ₚ fl2 → Forall is_flag fl1 →
  ∀ c st,
    parse_options env host (fl1 ++ rest) c st
    = parse_options env host (fl2 ++ rest) c st.
Proof.
  induction 1 as [|a l l' Hp IH|a b l|l l' l'' H1 IH1 H2 IH2];
    intros Hfl c st.
  - done.
  - apply Forall_cons_1 in Hfl as [Ha Hl].
    destruct a as [key arg]. cbn [app parse_options].
    destruct (parse_opt_flag env host (key, arg) c st Ha) as [c' Hc'].
    cbn [fst snd] in Hc'. rewrite Hc'. cbn [and_then].
    change (0 =? 0) with true. cbn match. by apply IH.
  - apply Forall_cons_1 in Hfl as [Hb Hl].
    apply Forall_cons_1 in Hl as [Ha Hl].
    pose proof (parse_opt_flags_swap env host a b c st Ha Hb) as Hswap.
    destruct a as [ka xa], b as [kb xb]. cbn [app parse_options].
    cbn [fst snd] in Hswap.
    destruct (parse_opt_flag env host (ka, xa) c st Ha) as [ca Hca].
    destruct (parse_opt_flag env host (kb, xb) c st Hb) as [cb Hcb].
    cbn [fst snd] in Hca, Hcb. rewrite Hca, Hcb in Hswap |- *.
    cbn [and_then] in Hswap |- *. change (0 =? 0) with true. cbn match.
    destruct (parse_opt_flag env host (ka, xa) cb st Ha) as [cba Hcba].
    destruct (parse_opt_flag env host (kb, xb) ca st Hb) as [cab Hcab].
    cbn [fst snd] in Hcba, Hcab. rewrite Hcba, Hcab in Hswap |- *.
    cbn [and_then]. change (0 =? 0) with true. cbn match.
    by injection Hswap as <-.
  - rewrite IH1 by done. apply IH2. by rewrite <- H1.
Qed.

Lemma parse_options_app env host pre args1 args2 :
  (∀ c st, parse_options env host args1 c st
           = parse_options env host args2 c st) →
  ∀ c st, parse_options env host (pre ++ args1) c st
          = parse_options env host (pre ++ args2) c st.
Proof.
  intros H. induction pre as [|[key arg] pre IH]; intros c st; [apply H|].
  cbn [app parse_options].
  destruct (parse_opt env host key arg c st) as [[r c'] st'|]; [|done].
  cbn [and_then]. destruct (r =? 0); [apply IH|done].
Qed.

(** X8: flags may be given in any order.  Two command lines that differ
    only in the order of a run of flags (options without an argument) are
    parsed alike, and the program behaves alike on them. *)
Theorem flags_commute :
  ∀ (env : Dwfl) (host : Host) (pre fl1 fl2 rest : list (Z * string))
    (demangle : bool),
    Forall is_flag fl1 → fl1 ≡ₚ fl2 →
    stack env host (pre ++ fl1 ++ rest) demangle
    = stack env host (pre ++ fl2 ++ rest) demangle.
Proof.
  intros env host pre fl1 fl2 rest demangle Hfl Hperm.
  unfold stack, argp_parse. f_equal.
  apply parse_options_app. intros c st.
  by apply parse_options_flags_perm.
Qed.

Lemma flags_commute_witness :
  stack (bare_target 1 [scenario_A_thread]) sample_host
        ([(key_of "p", "42")] ++ [(key_of "a", ""); (key_of "b", "")]
         ++ [(key_of "n", "42")]) true
  = stack (bare_target 1 [scenario_A_thread]) sample_host
          ([(key_of "p", "42")] ++ [(key_of "b", ""); (key_of "a", "")]
           ++ [(key_of "n", "42")]) true.
Proof.
  apply flags_commute.
  - repeat constructor; unfold is_flag; cbn [options fst];
      repeat (first [apply list_elem_of_here | apply list_elem_of_further]).
  - apply perm_swap.
Defined.

(** X9: [-v] stands for [-a -s -m -d -i]: anywhere on a command line the
    one may be replaced by the others, and [-i] alone implies [-d]. *)
Theorem verbose_is_all_additional_information :
  ∀ (env : Dwfl) (host : Host) (pre rest : list (Z * string))
    (demangle : bool),
    stack env host (pre ++ [(key_of "v", "")] ++ rest) demangle
    = stack env host
            (pre ++ [(key_of "a", ""); (key_of "s", ""); (key_of "m", "");
                     (key_of "d", ""); (key_of "i", "")] ++ rest) demangle
    ∧ stack env host (pre ++ [(key_of "i", "")] ++ rest) demangle
      = stack env host (pre ++ [(key_of "d", ""); (key_of "i", "")] ++ rest)
              demangle.
Proof.
  intros env host pre rest demangle.
  split; unfold stack, argp_parse; f_equal;
    apply parse_options_app; intros c st; reflexivity.
Qed.

(** ** The demangler *)

Lemma same_demangler_refl st : same_demangler st st.
Proof. by split. Qed.

Lemma same_demangler_trans st1 st2 st3 :
  same_demangler st1 st2 → same_demangler st2 st3 → same_demangler st1 st3.
Proof. intros [A1 A2] [B1 B2]. split; congruence. Qed.

Lemma print_frame_same_demangler opts env nr pc_ isact pca mod_ symname cudie
  die st :
  show_raw opts = true ∨ USE_DEMANGLE opts = false ∨ symname = None →
  same_demangler st
    (print_frame opts env nr pc_ isact pca mod_ symname cudie die st).
Proof.
  intros H. unfold print_frame.
  destruct (get_addr_width mod_ st) as [w st1] eqn:Hw.
  pose proof (get_addr_width_frame mod_ st) as Hf. rewrite Hw in Hf.
  cbn in Hf. destruct Hf as (_ & _ & _ & _ & Hd & Hb).
  destruct symname as [s|]; [|by split].
  unfold frame_symname.
  destruct H as [->|[->|?]]; [| |done];
    rewrite ?andb_false_r; cbn [negb andb]; by split.
Qed.

Lemma print_inline_loop_same_demangler opts env scopes :
  show_raw opts = true ∨ USE_DEMANGLE opts = false →
  ∀ prev nr pc_ isact pca mod_ cudie st,
    same_demangler st
      (print_inline_loop opts env scopes prev nr pc_ isact pca mod_ cudie
                         st).2.
Proof.
  intros H.
  induction scopes as [|scope rest IH]; intros prev nr pc_ isact pca mod_ cudie st;
    cbn [print_inline_loop]; [apply same_demangler_refl|].
  destruct (_ || _); [|apply same_demangler_refl].
  destruct (negb _); [apply IH|].
  destruct (_ =? _).
  - cbn [snd]. apply print_frame_same_demangler. tauto.
  - eapply same_demangler_trans; [|apply IH].
    apply print_frame_same_demangler. tauto.
Qed.

Lemma frame_resolve_quiet opts env mod_ pca :
  show_quiet opts = true →
  frame_resolve opts env mod_ pca = (None, None, None).
Proof.
  intros Hq. unfold frame_resolve. rewrite Hq. by destruct mod_.
Qed.

Lemma print_frames_body_same_demangler opts env f nr st :
  no_demangling opts →
  same_demangler st (print_frames_body opts env f nr st).2.
Proof.
  intros [Hq|H]; unfold print_frames_body; cbv zeta.
  - rewrite frame_resolve_quiet by done.
    destruct (show_inlines opts); cbn [snd];
      apply print_frame_same_demangler; tauto.
  - destruct (frame_resolve _ _ _ _) as [[symname die] cudie].
    destruct (if show_inlines opts then die else None) as [d|].
    + unfold print_inline_frames.
      destruct (dwarf_getscopes_die env d) as [[|scope0 rest]|];
        try apply same_demangler_refl.
      eapply same_demangler_trans;
        [|by apply print_inline_loop_same_demangler].
      apply print_frame_same_demangler. tauto.
    + cbn [snd]. apply print_frame_same_demangler. tauto.
Qed.

Lemma print_frames_loop_same_demangler opts env captured :
  no_demangling opts →
  ∀ nr st, same_demangler st (print_frames_loop opts env captured nr st).2.
Proof.
  intros H. induction captured as [|f rest IH]; intros nr st;
    cbn [print_frames_loop]; [apply same_demangler_refl|].
  destruct (_ || _); [|apply same_demangler_refl].
  pose proof (print_frames_body_same_demangler opts env f nr st H) as Hb.
  destruct (print_frames_body opts env f nr st) as [nr' st'].
  eapply same_demangler_trans; [exact Hb|apply IH].
Qed.

Lemma print_frames_same_demangler opts env fs tid dwflerr what st :
  no_demangling opts →
  same_demangler st (print_frames opts env fs tid dwflerr what st).
Proof.
  intros H. unfold print_frames. cbv zeta.
  set (st1 := printf _ (if 0 <? frames fs then _ else _)).
  assert (H1 : same_demangler st st1).
  { subst st1. by destruct (0 <? frames fs). }
  pose proof (print_frames_loop_same_demangler opts env (captured_frames fs)
                H 0 st1) as H2.
  destruct (print_frames_loop _ _ _ _ _) as [nr st2]. cbn [snd] in H2.
  assert (H3 : same_demangler st st2) by by eapply same_demangler_trans.
  destruct H3 as [D B].
  repeat match goal with
  | |- context [if ?b then _ else _] => destruct b
  end; by split.
Qed.

Lemma frame_callback_same_demangler opts env state fs st :
  same_demangler st (final_globals (frame_callback opts env state fs st)).
Proof.
  unfold frame_callback. cbv zeta.
  destruct state; [|apply same_demangler_refl].
  repeat match goal with
  | |- context [if ?b then _ else _] => destruct b
  | |- context [match realloc ?a ?b ?c with _ => _ end] =>
      destruct (realloc a b c)
  end; by split.
Qed.

Lemma getframes_loop_same_demangler opts env states :
  ∀ end_errno fs st,
    same_demangler st
      (final_globals (getframes_loop (frame_callback opts env) states
                                     end_errno fs st)).
Proof.
  induction states as [|s states IH]; intros end_errno fs st;
    cbn [getframes_loop]; [apply same_demangler_refl|].
  pose proof (frame_callback_same_demangler opts env s fs st) as Hc.
  destruct (frame_callback opts env s fs st) as [[r fs'] st'|]; [|exact Hc].
  destruct (r =? DWARF_CB_OK); [|exact Hc].
  eapply same_demangler_trans; [exact Hc|apply IH].
Qed.

Lemma thread_callback_same_demangler opts env t fs st :
  no_demangling opts →
  same_demangler st (final_globals (thread_callback opts env t fs st)).
Proof.
  intros H. unfold thread_callback, dwfl_thread_getframes. cbv zeta.
  pose proof (getframes_loop_same_demangler opts env (thread_unwound t)
                (thread_end_errno t) (mk_frames 0 (allocated fs) (frame fs))
                st) as Hg.
  destruct (getframes_loop _ _ _ _ _) as [[[r e] fs'] st'|]; [|exact Hg].
  destruct (getframes_err r e); [|exact Hg].
  eapply same_demangler_trans; [exact Hg|].
  by apply print_frames_same_demangler.
Qed.

Lemma getthreads_loop_same_demangler opts env result threads :
  no_demangling opts →
  ∀ fs st,
    same_demangler st
      (final_globals (getthreads_loop (thread_callback opts env) threads
                                      result fs st)).
Proof.
  intros H. induction threads as [|t rest IH]; intros fs st;
    cbn [getthreads_loop]; [apply same_demangler_refl|].
  pose proof (thread_callback_same_demangler opts env t fs st H) as Hc.
  destruct (thread_callback opts env t fs st) as [[r fs'] st'|]; [|exact Hc].
  destruct (r =? DWARF_CB_OK); [|exact Hc].
  eapply same_demangler_trans; [exact Hc|apply IH].
Qed.

Lemma module_callback_same_demangler m name start st :
  same_demangler st (module_callback m name start st).2.
Proof.
  pose proof (get_addr_width_frame (Some m) st) as Hf.
  unfold module_callback. cbv zeta.
  destruct (get_addr_width (Some m) st) as [w st1].
  cbn in Hf. destruct Hf as (_ & _ & _ & _ & Hd & Hb).
  repeat match goal with
         | |- context [match ?x with _ => _ end] => destruct x
         end;
    unfold same_demangler; cbn; by rewrite Hd, Hb.
Qed.

Lemma getmodules_loop_same_demangler mods :
  ∀ result st,
    same_demangler st (getmodules_loop module_callback mods result st).2.
Proof.
  induction mods as [|[[m name] start] rest IH]; intros result st;
    cbn [getmodules_loop]; [apply same_demangler_refl|].
  pose proof (module_callback_same_demangler m name start st) as Hc.
  destruct (module_callback m name start st) as [r st'].
  destruct (r =? DWARF_CB_OK); [|exact Hc].
  eapply same_demangler_trans; [exact Hc|apply IH].
Qed.

Lemma main_collect_same_demangler opts env st :
  no_demangling opts →
  same_demangler st (final_globals (main_collect opts env st)).
Proof.
  intros H. unfold main_collect.
  assert (Hm : same_demangler st
                 (final_globals (main_list_modules opts env st))).
  { unfold main_list_modules.
    destruct (show_modules opts); [|apply same_demangler_refl].
    unfold dwfl_getmodules.
    set (st0 := printf _ st).
    pose proof (getmodules_loop_same_demangler (dwfl_modules env)
                  (dwfl_getmodules_result env) st0) as Hg.
    destruct (getmodules_loop _ _ _ _) as [r st1].
    destruct (negb (r =? 0)); exact Hg. }
  destruct (main_list_modules opts env st) as [[] st1|]; [|exact Hm].
  assert (Ha : same_demangler st1
                 (final_globals (main_alloc_frames opts env st1))).
  { unfold main_alloc_frames. cbv zeta. destruct (malloc _ _); by split. }
  destruct (main_alloc_frames opts env st1) as [fs st2|];
    [|by eapply same_demangler_trans].
  eapply same_demangler_trans; [exact Hm|].
  eapply same_demangler_trans; [exact Ha|].
  unfold main_show_threads.
  destruct (show_one_tid opts).
  - unfold dwfl_getthread_frames, dwfl_thread_getframes.
    destruct (List.find _ _) as [t|]; cbn [getframes_err].
    + pose proof (getframes_loop_same_demangler opts env (thread_unwound t)
                    (thread_end_errno t) fs st2) as Hg.
      destruct (getframes_loop _ _ _ _ _) as [[[r e] fs'] st'|]; [|exact Hg].
      destruct (getframes_err r e); [|exact Hg].
      eapply same_demangler_trans; [exact Hg|].
      by apply print_frames_same_demangler.
    + destruct (getframes_err _ _); [|apply same_demangler_refl].
      by apply print_frames_same_demangler.
  - unfold dwfl_getthreads.
    set (st0 := printf _ st2).
    pose proof (getthreads_loop_same_demangler opts env
                  (dwfl_getthreads_result env) (dwfl_threads env) H fs st0)
      as Hg.
    destruct (getthreads_loop _ _ _ _ _) as [[r fs'] st'|]; [|exact Hg].
    destruct (_ || _); [exact Hg|].
    destruct (r =? -1); exact Hg.
Qed.

(** X11: with [-q], with [-r], and in a build without the demangler, no
    name is handed to the demangler in the whole run, whatever the options
    and the target are otherwise, and its buffer is never allocated. *)
Theorem demangler_not_called :
  ∀ (opts : Options) (env : Dwfl),
    no_demangling opts →
    demangled (final_globals (main opts env)) = []
    ∧ demangle_buffer (final_globals (main opts env)) = None.
Proof.
  intros opts env H. unfold main.
  pose proof (main_collect_same_demangler opts env initial_globals H) as Hc.
  destruct (main_collect opts env initial_globals) as [[] st|]; [|exact Hc].
  unfold main_exit. destruct (negb (frames_shown st)); exact Hc.
Qed.

Lemma demangler_not_called_witness :
  demangled (final_globals
               (main (mk_options false false false false false false true
                                 false true true 256 1 true)
                     (debug_target 1 [scenario_A_thread]
                                   (λ _, Some "_Z1fv") None (λ _, None)
                                   demangle_f)))
  = [].
Proof.
  apply demangler_not_called. right. left. reflexivity.
Defined.

(** ** The output of a run under a ceiling *)

Lemma print_frames_output_ceiling opts env fs tid dwflerr what st :
  0 < maxframes opts ≤ INT_MAX →
  ∃ recs,
    stdout (print_frames opts env fs tid dwflerr what st)
    = stdout st ++ tid_line tid :: recs
    ∧ thread_records opts recs.
Proof.
  intros [Hpos Hint]. unfold print_frames. cbv zeta.
  set (st1 := printf _ (if 0 <? frames fs then _ else _)).
  destruct (print_frames_loop_records opts env Hpos Hint (captured_frames fs)
              0 st1 ltac:(lia))
    as (recs & (Hout & Hall & _) & _ & Hb).
  destruct (print_frames_loop opts env (captured_frames fs) 0 st1)
    as [nr st2].
  cbn [fst snd] in *.
  assert (Ho1 : stdout st1 = stdout st ++ [tid_line tid])
    by (subst st1; by destruct (0 <? frames fs)).
  exists recs. split; [|split; [done|lia]].
  repeat match goal with
  | |- context [if ?b then _ else _] => destruct b
  end; cbn [error_report stdout];
    by rewrite Hout, Ho1, <- app_assoc.
Qed.

Lemma getthreads_loop_output opts env result threads :
  0 < maxframes opts ≤ INT_MAX →
  ∀ fs st,
    buffer_of (maxframes opts) fs →
    ∃ groups fs' st',
      getthreads_loop (thread_callback opts env) threads result fs st
      = Ret (result, fs') st'
      ∧ length groups = length threads
      ∧ Forall (thread_records opts) groups
      ∧ stdout st' = stdout st ++ threads_output threads groups.
Proof.
  intros Hc. induction threads as [|t rest IH]; intros fs st Hbuf;
    cbn [getthreads_loop].
  - exists [], fs, st. repeat split; [constructor|].
    unfold threads_output. cbn. by rewrite app_nil_r.
  - destruct (thread_callback_ceiling_any opts env t fs st Hc Hbuf)
      as (fs1 & err & -> & Hbuf1).
    change (DWARF_CB_OK =? DWARF_CB_OK) with true. cbn match.
    destruct (print_frames_output_ceiling opts env fs1 (dwfl_thread_tid t) err
                "dwfl_thread_getframes" st Hc) as (recs & Hout & Hrecs).
    destruct (IH fs1 (print_frames opts env fs1 (dwfl_thread_tid t) err
                        "dwfl_thread_getframes" st) Hbuf1)
      as (groups & fs' & st' & -> & Hlen & Hall & Hout').
    exists (recs :: groups), fs', st'.
    split; [done|]. split; [cbn; by rewrite Hlen|].
    split; [by constructor|].
    rewrite Hout', Hout. unfold threads_output. cbn [zip_with concat].
    by rewrite <- app_assoc.
Qed.

(** X12: the output of a run over all threads, under a ceiling and without
    the module listing: the header of the run, then for each thread of the
    target, in the order of enumeration, its header followed by its frame
    records, at most [maxframes] of them.  Nothing else reaches standard
    output, and no thread is left out, whatever the unwinder reports. *)
Theorem run_output_per_thread :
  ∀ (opts : Options) (env : Dwfl),
    0 < maxframes opts ≤ INT_MAX →
    show_modules opts = false →
    show_one_tid opts = false →
    alloc_ok env (sizeof_struct_frame * maxframes opts) = true →
    ∃ groups,
      length groups = length (dwfl_threads env)
      ∧ Forall (thread_records opts) groups
      ∧ stdout (final_globals (main opts env))
        = pid_line opts env :: threads_output (dwfl_threads env) groups.
Proof.
  intros opts env Hc Hmod Hone Halloc. pose proof Hc as [Hpos Hint].
  unfold main, main_collect, main_list_modules. rewrite Hmod.
  destruct (main_alloc_frames opts env initial_globals) as [fs st|] eqn:Ha.
  2:{ revert Ha. unfold main_alloc_frames, malloc, realloc, initial_allocated.
      cbv zeta. destruct (Z.eqb_spec (maxframes opts) 0); [lia|].
      rewrite wrap_u64_id, Halloc; [done|].
      unfold in_u64, sizeof_struct_frame, INT_MAX in *. lia. }
  destruct (main_alloc_frames_ceiling opts env _ fs st Hc Ha)
    as (-> & Hfr & Hbuf).
  unfold main_show_threads. rewrite Hone. unfold dwfl_getthreads.
  destruct (getthreads_loop_output opts env (dwfl_getthreads_result env)
              (dwfl_threads env) Hc fs
              (printf (pid_line opts env) initial_globals) Hbuf)
    as (groups & fs' & st' & Hrun & Hlen & Hall & Hout).
  unfold pid_line in Hrun. rewrite Hrun.
  exists groups. split; [done|]. split; [done|].
  destruct (_ || _).
  - unfold main_exit. destruct (negb (frames_shown st')); exact Hout.
  - destruct (dwfl_getthreads_result env =? -1); [|exact Hout].
    unfold main_exit.
    destruct (negb (frames_shown _)); exact Hout.
Qed.

Lemma run_output_per_thread_witness :
  ∃ groups,
    length groups = 2%nat
    ∧ stdout (final_globals
                (main (default_options 1 true)
                      (bare_target 1 [five_frames_thread; failing_thread])))
      = pid_line (default_options 1 true)
                 (bare_target 1 [five_frames_thread; failing_thread])
        :: threads_output [five_frames_thread; failing_thread] groups.
Proof.
  destruct (run_output_per_thread (default_options 1 true)
              (bare_target 1 [five_frames_thread; failing_thread]))
    as (groups & Hlen & _ & Hout).
  - unfold INT_MAX. cbn. lia.
  - reflexivity.
  - reflexivity.
  - reflexivity.
  - exists groups. split; [exact Hlen|exact Hout].
Defined.

(** X13: the output of a run for one thread ([-1]), under a ceiling and
    without the module listing: the header of the thread whose id is the
    process id given, followed by at most [maxframes] frame records; no
    header of the run is printed, and the thread header is printed even when
    the target has no such thread. *)
Theorem run_output_one_thread :
  ∀ (opts : Options) (env : Dwfl),
    0 < maxframes opts ≤ INT_MAX →
    show_modules opts = false →
    show_one_tid opts = true →
    alloc_ok env (sizeof_struct_frame * maxframes opts) = true →
    ∃ recs,
      thread_records opts recs
      ∧ stdout (final_globals (main opts env)) = tid_line (pid opts) :: recs.
Proof.
  intros opts env Hc Hmod Hone Halloc. pose proof Hc as [Hpos Hint].
  unfold main, main_collect, main_list_modules. rewrite Hmod.
  destruct (main_alloc_frames opts env initial_globals) as [fs st|] eqn:Ha.
  2:{ revert Ha. unfold main_alloc_frames, malloc, realloc, initial_allocated.
      cbv zeta. destruct (Z.eqb_spec (maxframes opts) 0); [lia|].
      rewrite wrap_u64_id, Halloc; [done|].
      unfold in_u64, sizeof_struct_frame, INT_MAX in *. lia. }
  destruct (main_alloc_frames_ceiling opts env _ fs st Hc Ha)
    as (-> & Hfr & Hbuf).
  unfold main_show_threads. rewrite Hone.
  assert (Hprint : ∀ fs' err,
    ∃ recs, thread_records opts recs
      ∧ stdout (final_globals
                  (main_exit env
                     (print_frames opts env fs' (pid opts) err
                                   "dwfl_getthread_frames" initial_globals)))
        = tid_line (pid opts) :: recs).
  { intros fs' err.
    destruct (print_frames_output_ceiling opts env fs' (pid opts) err
                "dwfl_getthread_frames" initial_globals Hc)
      as (recs & Hout & Hrecs).
    exists recs. split; [done|].
    unfold main_exit. destruct (negb (frames_shown _)); exact Hout. }
  unfold dwfl_getthread_frames.
  destruct (List.find _ _) as [t|].
  - unfold dwfl_thread_getframes.
    destruct (getframes_loop_ceiling_any opts env Hint (thread_unwound t)
                (thread_end_errno t) fs initial_globals Hbuf ltac:(lia))
      as (r & e & fs' & -> & _ & _ & [err ->]).
    apply Hprint.
  - cbn [getframes_err Z.eqb orb]. apply Hprint.
Qed.

Lemma run_output_one_thread_witness :
  ∃ recs,
    stdout (final_globals
              (main (mk_options false false false false true false false
                                false false false 256 7 true)
                    (bare_target 7 [five_frames_thread])))
    = tid_line 7 :: recs.
Proof.
  destruct (run_output_one_thread
              (mk_options false false false false true false false
                          false false false 256 7 true)
              (bare_target 7 [five_frames_thread]))
    as (recs & _ & Hout).
  - unfold INT_MAX. cbn. lia.
  - reflexivity.
  - reflexivity.
  - reflexivity.
  - exists recs. exact Hout.
Defined.

(** ** Runs without a ceiling *)

Lemma print_frames_loop_one_each opts env captured :
  show_inlines opts = false →
  ∀ frame_nr st,
    0 ≤ frame_nr →
    frame_nr + Z.of_nat (length captured) ≤ INT_MAX →
    maxframes opts = 0
    ∨ frame_nr + Z.of_nat (length captured) ≤ maxframes opts →
    ∃ recs,
      wrote_frames st (print_frames_loop opts env captured frame_nr st).2 recs
      ∧ length recs = length captured
      ∧ (print_frames_loop opts env captured frame_nr st).1
        = frame_nr + Z.of_nat (length captured).
Proof.
  intros Hinl.
  induction captured as [|f rest IH]; intros frame_nr st Hnr Hmax Hroom;
    cbn [print_frames_loop].
  - exists []. split; [apply wrote_frames_nil|]. cbn. split; [done|lia].
  - cbn [length] in Hmax, Hroom.
    assert (Hguard : (maxframes opts =? 0) || (frame_nr <? maxframes opts)
                     = true).
    { destruct Hroom as [->|Hroom]; [done|].
      apply orb_true_iff. right. apply Z.ltb_lt. lia. }
    rewrite Hguard.
    unfold print_frames_body. cbv zeta. rewrite Hinl.
    destruct (frame_resolve _ _ _ _) as [[symname die] cudie].
    rewrite wrap_int_id by (unfold in_int, INT_MAX in *; lia).
    edestruct (print_frame_wrote opts env frame_nr) as [r Hr].
    edestruct (IH (frame_nr + 1)) as (recs & Hrecs & Hlen & Hn);
      [| | |exists (r :: recs); split; [|split]].
    + lia.
    + lia.
    + destruct Hroom; [by left|right; lia].
    + eapply (wrote_frames_app _ _ _ [r]); [exact Hr|exact Hrecs].
    + cbn. by rewrite Hlen.
    + rewrite Hn. cbn [length]. lia.
Qed.

(** X14: without a ceiling ([-n 0]) and without inline expansion, a thread
    is printed in full: after its header, one frame record for each frame
    the unwinder yields (fewer than [2^30], with an allocator that satisfies
    every request).  No diagnostic about a maximum is recorded; the only
    diagnostic is the one for a walk that ended with an error. *)
Theorem unbounded_thread_printed_in_full :
  ∀ (opts : Options) (env : Dwfl) (t : Dwfl_Thread) (l : list struct_frame)
    (fs : struct_frames) (st : Globals),
    maxframes opts = 0 →
    show_inlines opts = false →
    (∀ bytes, alloc_ok env bytes = true) →
    thread_unwound t = map frame_state l →
    Z.of_nat (length l) < 2 ^ 30 →
    0 < allocated fs →
    Z.of_nat (length (frame fs)) = allocated fs →
    let failed := negb (thread_end_errno t =? 0) in
    ∃ fs' st' recs,
      thread_callback opts env t fs st = Ret (DWARF_CB_OK, fs') st'
      ∧ stdout st' = stdout st ++ tid_line (dwfl_thread_tid t) :: recs
      ∧ Forall is_frame_record recs
      ∧ length recs = length l
      ∧ error_message_count st'
        = (error_message_count st + if failed then 1 else 0)%nat
      ∧ (thread_end_errno t = 0 → stderr st' = stderr st).
Proof.
  intros opts env t l fs st Hno Hinl Halloc Hl Hsmall Hpos Hlen failed.
  subst failed.
  unfold thread_callback, dwfl_thread_getframes. cbv zeta. rewrite Hl.
  destruct (getframes_loop_unbounded opts env Hno Halloc l
              (thread_end_errno t) (mk_frames 0 (allocated fs) (frame fs))
              st) as (fs' & j & -> & Hfr & Hcap & _).
  { cbn. lia. }
  { done. }
  { cbn. lia. }
  cbn [frames captured_frames] in Hfr, Hcap.
  rewrite Z.add_0_l in Hfr.
  assert (Hcap' : captured_frames fs' = l).
  { rewrite Hcap. unfold captured_frames. cbn. by rewrite take_0. }
  assert (Herr : getframes_err (if thread_end_errno t =? 0 then 0 else -1)
                               (thread_end_errno t)
                 = Some (thread_end_errno t)).
  { unfold getframes_err.
    destruct (Z.eqb_spec (thread_end_errno t) 0) as [->|]; done. }
  rewrite Herr.
  unfold print_frames. cbv zeta. rewrite Hcap'.
  set (st1 := printf _ (if 0 <? frames fs' then _ else _)).
  destruct (print_frames_loop_one_each opts env l Hinl 0 st1
              ltac:(lia) ltac:(unfold INT_MAX; lia) ltac:(by left))
    as (recs & (Hout & Hall & R1 & R2 & R3) & Hn & Hnr).
  destruct (print_frames_loop opts env l 0 st1) as [nr st2].
  cbn [fst snd] in *. subst nr. rewrite Z.add_0_l.
  assert (Hc1 : error_message_count st1 = error_message_count st)
    by (subst st1; by destruct (0 <? frames fs')).
  assert (He1 : stderr st1 = stderr st)
    by (subst st1; by destruct (0 <? frames fs')).
  assert (Ho1 : stdout st1 = stdout st ++ [tid_line (dwfl_thread_tid t)])
    by (subst st1; by destruct (0 <? frames fs')).
  rewrite Hno.
  assert (Hceil : (0 <? frames fs') && (Z.of_nat (length l) =? 0) = false).
  { rewrite Hfr. destruct l; [done|]. cbn [length].
    rewrite andb_false_iff. right. apply Z.eqb_neq. lia. }
  rewrite Hceil.
  destruct (Z.eqb_spec (thread_end_errno t) 0) as [He|He]; cbn [negb].
  - exists fs', st2, recs. split; [reflexivity|].
    rewrite Hout, Ho1, R2, R3, Hc1, He1, <- app_assoc.
    repeat split; try done; lia.
  - destruct (0 <? frames fs'); eexists fs', _, recs;
      (split; [reflexivity|]); unfold error_report; cbn;
      rewrite Hout, Ho1, R2, Hc1, <- app_assoc;
      repeat split; try done; lia.
Qed.

Lemma unbounded_thread_printed_in_full_witness :
  ∃ fs' st' recs,
    thread_callback (options_with_maxframes 0) (bare_target 1 [])
                    five_frames_thread (fresh_buffer 2) initial_globals
    = Ret (DWARF_CB_OK, fs') st'
    ∧ stdout st' = [] ++ tid_line 7 :: recs
    ∧ length recs = 5%nat
    ∧ stderr st' = [].
Proof.
  destruct (unbounded_thread_printed_in_full
              (options_with_maxframes 0) (bare_target 1 [])
              five_frames_thread five_frames (fresh_buffer 2)
              initial_globals)
    as (fs' & st' & recs & Hrun & Hout & _ & Hlen & _ & Herr).
  - reflexivity.
  - reflexivity.
  - reflexivity.
  - reflexivity.
  - cbn. lia.
  - cbn. lia.
  - reflexivity.
  - exists fs', st', recs. split; [exact Hrun|]. split; [exact Hout|].
    split; [exact Hlen|]. by apply Herr.
Defined.

(** The walk while the buffer has room and the ceiling is not reached:
    each frame is stored, and nothing is reallocated. *)
Lemma getframes_loop_fill opts env l :
  ∀ rest end_errno fs st,
    0 ≤ frames fs →
    frames fs + Z.of_nat (length l) < allocated fs →
    maxframes opts = 0 ∨ frames fs + Z.of_nat (length l) < maxframes opts →
    Z.of_nat (length (frame fs)) = allocated fs →
    allocated fs ≤ INT_MAX →
    ∃ buf,
      Z.of_nat (length buf) = allocated fs
      ∧ take (Z.to_nat (frames fs + Z.of_nat (length l))) buf
        = captured_frames fs ++ l
      ∧ getframes_loop (frame_callback opts env) (map frame_state l ++ rest)
                       end_errno fs st
        = getframes_loop (frame_callback opts env) rest end_errno
            (mk_frames (frames fs + Z.of_nat (length l)) (allocated fs) buf)
            st.
Proof.
  induction l as [|f l IH]; intros rest e fs st Hfr Hroom Hceil Hlen Hint.
  - exists (frame fs). split; [done|]. cbn [map app length].
    rewrite Z.add_0_r, app_nil_r. split; [done|]. by destruct fs.
  - cbn [length] in Hroom, Hceil. cbn [map app getframes_loop].
    unfold frame_state at 1.
    rewrite frame_callback_pc by (unfold INT_MAX in *; lia). cbv zeta.
    destruct (Z.eqb_spec (frames fs + 1) (maxframes opts)); [lia|].
    destruct (Z.eqb_spec (frames fs + 1) (allocated fs)); [lia|].
    change (DWARF_CB_OK =? DWARF_CB_OK) with true. cbn match.
    edestruct (IH rest e (mk_frames (frames fs + 1) (allocated fs)
                 (<[Z.to_nat (frames fs) := mk_frame (pc f) (isactivation f)]>
                    (frame fs))) st) as (buf & Hbuf & Hcap & ->).
    + cbn. lia.
    + cbn. lia.
    + cbn. destruct Hceil; [by left|right; lia].
    + cbn. by rewrite length_insert.
    + done.
    + exists buf. split; [done|]. cbn [frames allocated length] in *.
      replace (frames fs + Z.of_nat (S (length l)))
        with (frames fs + 1 + Z.of_nat (length l)) by lia.
      split; [|reflexivity].
      rewrite Hcap. unfold captured_frames at 1. cbn [frames frame].
      rewrite captured_frames_store by lia.
      rewrite <- app_assoc. by destruct f.
Qed.

(** X15: without a ceiling, a failed [realloc] is fatal.  When the frame
    that fills the buffer arrives and the request for twice the capacity is
    refused, the process exits with status 2 after one diagnostic, which
    names [realloc] and carries the error text; nothing of the thread is
    printed, not even its header. *)
Theorem realloc_failure_is_fatal :
  ∀ (opts : Options) (env : Dwfl) (t : Dwfl_Thread) (l : list struct_frame)
    (fs : struct_frames) (st : Globals),
    maxframes opts = 0 →
    thread_unwound t = map frame_state l →
    0 < allocated fs ≤ 2 ^ 29 →
    Z.of_nat (length (frame fs)) = allocated fs →
    allocated fs ≤ Z.of_nat (length l) →
    alloc_ok env (2 * sizeof_struct_frame * allocated fs) = false →
    thread_callback opts env t fs st
    = Halt (Exit EXIT_BAD)
           (error_report env ENOMEM "realloc frames.frame" st).
Proof.
  intros opts env t l fs st Hno Hl [Hpos Hsmall] Hlen Hlong Hfail.
  unfold thread_callback, dwfl_thread_getframes. cbv zeta. rewrite Hl.
  rewrite <- (take_drop (Z.to_nat (allocated fs - 1)) l), map_app.
  destruct (drop (Z.to_nat (allocated fs - 1)) l) as [|f rest] eqn:Hdrop.
  { apply (f_equal length) in Hdrop. rewrite length_drop in Hdrop.
    cbn in Hdrop. lia. }
  destruct (getframes_loop_fill opts env (take (Z.to_nat (allocated fs - 1)) l)
              (map frame_state (f :: rest)) (thread_end_errno t)
              (mk_frames 0 (allocated fs) (frame fs)) st)
    as (buf & Hbuf & _ & ->).
  { cbn. lia. }
  { cbn. rewrite length_take. lia. }
  { by left. }
  { done. }
  { cbn. unfold INT_MAX. lia. }
  cbn [frames allocated]. rewrite length_take.
  replace (0 + Z.of_nat (Z.to_nat (allocated fs - 1) `min` length l))
    with (allocated fs - 1) by lia.
  cbn [map getframes_loop]. unfold frame_state at 1.
  cbn [frames allocated frame] in Hbuf.
  rewrite frame_callback_pc by (cbn [frames allocated frame]; unfold INT_MAX; lia).
  cbv zeta. cbn [frames allocated frame]. rewrite Hno.
  replace (allocated fs - 1 + 1) with (allocated fs) by lia.
  destruct (Z.eqb_spec (allocated fs) 0); [lia|].
  rewrite Z.eqb_refl.
  rewrite (wrap_int_id (allocated fs * 2))
    by (unfold in_int, INT_MAX; lia).
  unfold realloc.
  rewrite wrap_u64_id by (unfold in_u64, sizeof_struct_frame; lia).
  replace (sizeof_struct_frame * (allocated fs * 2))
    with (2 * sizeof_struct_frame * allocated fs) by lia.
  rewrite Hfail. reflexivity.
Qed.

Lemma realloc_failure_is_fatal_witness :
  thread_callback (options_with_maxframes 0) short_of_memory_target
                  five_frames_thread (fresh_buffer 4) initial_globals
  = Halt (Exit EXIT_BAD)
         (error_report short_of_memory_target ENOMEM "realloc frames.frame"
                       initial_globals).
Proof.
  apply (realloc_failure_is_fatal (options_with_maxframes 0)
           short_of_memory_target five_frames_thread five_frames
           (fresh_buffer 4) initial_globals).
  - reflexivity.
  - reflexivity.
  - cbn. lia.
  - reflexivity.
  - cbn. lia.
  - reflexivity.
Defined.

(** X18: a walk that fails after some frames.  When the unwinder yields
    the frames [l] and [f] and then fails with error [e] (and neither the
    ceiling nor the capacity is reached, and inline expansion is off), the
    frames before the failure are printed, one record each, and exactly one
    diagnostic is recorded: it names the adjusted address of [f], the last
    frame captured, and its module, with the error text of [e].  States
    after the failing one are not looked at. *)
Theorem failed_walk_is_reported :
  ∀ (opts : Options) (env : Dwfl) (t : Dwfl_Thread) (l : list struct_frame)
    (f : struct_frame) (e : Z) (rest : list Dwfl_Frame) (fs : struct_frames)
    (st : Globals),
    show_inlines opts = false →
    maxframes opts = 0 ∨ Z.of_nat (length l) + 1 < maxframes opts →
    thread_unwound t = map frame_state (l ++ [f]) ++ Frame_nopc e :: rest →
    e ≠ 0 →
    Z.of_nat (length l) + 1 < allocated fs ≤ INT_MAX →
    Z.of_nat (length (frame fs)) = allocated fs →
    let pca := pc_adjusted_of (pc f) (isactivation f) in
    ∃ fs' st' recs,
      thread_callback opts env t fs st = Ret (DWARF_CB_OK, fs') st'
      ∧ stdout st' = stdout st ++ tid_line (dwfl_thread_tid t) :: recs
      ∧ Forall is_frame_record recs
      ∧ length recs = S (length l)
      ∧ frames_shown st' = true
      ∧ error_message_count st' = S (error_message_count st)
      ∧ stderr st'
        = stderr st
          ++ [msg_unwind_at env "dwfl_thread_getframes" (dwfl_thread_tid t)
                            pca (unwind_modname env pca) e].
Proof.
  intros opts env t l f e rest fs st Hinl Hceil Hl He [Hroom Hint] Hlen pca.
  unfold thread_callback, dwfl_thread_getframes. cbv zeta. rewrite Hl.
  assert (Hlf : length (l ++ [f]) = S (length l))
    by (rewrite length_app; cbn; lia).
  destruct (getframes_loop_fill opts env (l ++ [f]) (Frame_nopc e :: rest)
              (thread_end_errno t) (mk_frames 0 (allocated fs) (frame fs)) st)
    as (buf & Hbuf & Hcap & ->).
  { cbn. lia. }
  { cbn. rewrite Hlf. lia. }
  { cbn. rewrite Hlf. destruct Hceil; [by left|right; lia]. }
  { done. }
  { done. }
  unfold captured_frames in Hcap. cbn [frames allocated frame] in Hcap, Hbuf.
  change (Z.to_nat 0) with 0%nat in Hcap.
  rewrite take_0, app_nil_l in Hcap.
  assert (Hlast : buf !! length l = Some f).
  { pose proof (f_equal (λ x, x !! length l) Hcap) as H. cbn beta in H.
    rewrite lookup_take_lt in H by (rewrite Hlf; lia).
    rewrite H. by apply list_lookup_middle. }
  cbn [getframes_loop frame_callback].
  change (-1 =? DWARF_CB_OK) with false. cbn match.
  change (getframes_err (-1) e) with (Some e).
  unfold print_frames. cbv zeta. unfold captured_frames.
  cbn [frames allocated frame]. rewrite Hcap, Hlf.
  replace (0 + Z.of_nat (S (length l))) with (Z.of_nat (length l) + 1)
    by lia.
  destruct (Z.ltb_spec 0 (Z.of_nat (length l) + 1)); [|lia].
  set (st1 := printf _ (set_frames_shown true st)).
  destruct (print_frames_loop_one_each opts env (l ++ [f]) Hinl 0 st1
              ltac:(lia) ltac:(rewrite Hlf; lia)
              ltac:(rewrite Hlf; destruct Hceil; [by left|right; lia]))
    as (recs & (Hout & Hall & R1 & R2 & R3) & Hn & Hnr).
  destruct (print_frames_loop opts env (l ++ [f]) 0 st1) as [nr st2].
  cbn [fst snd] in *. subst nr. rewrite Hlf in *.
  assert (Hnot : (0 + Z.of_nat (S (length l)) =? maxframes opts) = false).
  { apply Z.eqb_neq. destruct Hceil as [->|]; lia. }
  rewrite Hnot. cbn [andb].
  apply Z.eqb_neq in He as He'. rewrite He'. cbn [negb].
  assert (Hnr : Z.to_nat (to_unsigned (Z.of_nat (length l) + 1 - 1))
                = length l).
  { unfold to_unsigned. rewrite Z.mod_small; [lia|].
    unfold INT_MAX in *. lia. }
  rewrite Hnr, Hlast. cbn [default].
  eexists _, _, recs. split; [reflexivity|].
  unfold error_report. cbn.
  rewrite Hout, R1, R2, R3. subst st1. cbn. rewrite <- app_assoc.
  repeat split; try done.
Qed.

Lemma failed_walk_is_reported_witness :
  ∃ fs' st' (recs : list string),
    thread_callback (options_with_maxframes 8) (bare_target 1 [])
                    broken_thread (fresh_buffer 8) initial_globals
    = Ret (DWARF_CB_OK, fs') st'
    ∧ length recs = 2%nat
    ∧ stderr st'
      = [] ++ [msg_unwind_at (bare_target 1 []) "dwfl_thread_getframes" 5
                             16415 "<unknown>" 3].
Proof.
  destruct (failed_walk_is_reported
              (options_with_maxframes 8) (bare_target 1 []) broken_thread
              [mk_frame 16400 true] (mk_frame 16416 false) 3
              [Frame_pc 16432 false] (fresh_buffer 8) initial_globals)
    as (fs' & st' & recs & Hrun & _ & _ & Hlen & _ & _ & Herr).
  - reflexivity.
  - right. cbn. lia.
  - reflexivity.
  - discriminate.
  - unfold INT_MAX. cbn. lia.
  - reflexivity.
  - exists fs', st', recs. split; [exact Hrun|]. split; [exact Hlen|].
    exact Herr.
Defined.

(** ** The module listing *)

Lemma first_width_nonzero mod_ : first_width mod_ ≠ 0.
Proof.
  unfold first_width.
  destruct (_ ≫= gelf_getehdr) as [ehdr|]; [|done].
  by destruct (_ =? ELFCLASS32).
Qed.

(** [module_callback] always answers DWARF_CB_OK, and fixes the address
    width when it is the first to ask for it. *)
Lemma module_callback_width m name start st :
  (module_callback m name start st).1 = DWARF_CB_OK
  ∧ width (module_callback m name start st).2
    = if width st =? 0 then first_width (Some m) else width st.
Proof.
  unfold module_callback. cbv zeta.
  assert (Hw : ∃ st1, get_addr_width (Some m) st
                      = (width st1, st1)
                      ∧ width st1 = if width st =? 0
                                    then first_width (Some m) else width st).
  { destruct (Z.eqb_spec (width st) 0) as [H0|H0].
    - rewrite get_addr_width_first by done.
      by exists (set_width (first_width (Some m)) st).
    - rewrite get_addr_width_cached by done. by exists st. }
  destruct Hw as (st1 & -> & Hw1).
  repeat match goal with
         | |- context [match ?x with _ => _ end] => destruct x
         end; (split; [done|exact Hw1]).
Qed.

Lemma getmodules_loop_width mods :
  ∀ result st,
    width st ≠ 0 →
    (getmodules_loop module_callback mods result st).1 = result
    ∧ width (getmodules_loop module_callback mods result st).2 = width st.
Proof.
  induction mods as [|[[m name] start] mods IH]; intros result st Hw;
    cbn [getmodules_loop]; [done|].
  destruct (module_callback_width m name start st) as [Hr Hw1].
  destruct (module_callback m name start st) as [r st1].
  cbn [fst snd] in *. subst r.
  change (DWARF_CB_OK =? DWARF_CB_OK) with true. cbn match.
  apply Z.eqb_neq in Hw as Hw'. rewrite Hw' in Hw1.
  destruct (IH result st1 ltac:(congruence)) as [IH1 IH2].
  split; [done|congruence].
Qed.

Lemma getmodules_loop_result mods :
  ∀ result st, (getmodules_loop module_callback mods result st).1 = result.
Proof.
  induction mods as [|[[m name] start] mods IH]; intros result st;
    cbn [getmodules_loop]; [done|].
  destruct (module_callback_width m name start st) as [Hr _].
  destruct (module_callback m name start st) as [r st1].
  cbn [fst] in Hr. subst r.
  change (DWARF_CB_OK =? DWARF_CB_OK) with true. cbn match. apply IH.
Qed.

(** X16: with [-l], the address width of the whole run is the one of the
    first module listed: 8 digits when its ELF header is readable and of
    the 32-bit class, else 16.  After the listing every request for the
    width, for whatever module or none, is answered with it, so the frame
    records that follow use it as well.  The listing itself neither sets
    [frames_shown] nor records a diagnostic. *)
Theorem listing_fixes_address_width :
  ∀ (opts : Options) (env : Dwfl) (m : Dwfl_Module) (name : string)
    (start : Z) (rest : list (Dwfl_Module * string * Z)),
    show_modules opts = true →
    dwfl_modules env = (m, name, start) :: rest →
    dwfl_getmodules_result env = 0 →
    ∃ st,
      main_list_modules opts env initial_globals = Ret tt st
      ∧ same_report initial_globals st
      ∧ ∀ mod_, get_addr_width mod_ st = (first_width (Some m), st).
Proof.
  intros opts env m name start rest Hshow Hmods Hres.
  unfold main_list_modules. rewrite Hshow. unfold dwfl_getmodules.
  rewrite Hmods, Hres. cbn [getmodules_loop].
  set (st0 := printf _ initial_globals).
  pose proof (module_callback_report m name start st0) as Hrep.
  destruct (module_callback_width m name start st0) as [Hr Hw].
  destruct (module_callback m name start st0) as [r st1].
  cbn [fst snd] in *. subst r.
  change (DWARF_CB_OK =? DWARF_CB_OK) with true. cbn match.
  change (width st0 =? 0) with true in Hw. cbn match in Hw.
  pose proof (first_width_nonzero (Some m)) as Hnz.
  destruct (getmodules_loop_width rest 0 st1 ltac:(congruence)) as [L1 L2].
  pose proof (getmodules_loop_report rest 0 st1) as Hrep2.
  destruct (getmodules_loop module_callback rest 0 st1) as [r st2].
  cbn [fst snd] in *. subst r. cbn [Z.eqb negb].
  exists st2. split; [done|]. split.
  - eapply same_report_trans; [|exact Hrep2].
    eapply same_report_trans; [|exact Hrep]. by unfold same_report.
  - intros mod_. rewrite get_addr_width_cached by congruence.
    congruence.
Qed.

Lemma listing_fixes_address_width_witness :
  ∃ st,
    main_list_modules listing_options (mixed_modules_target 0) initial_globals
    = Ret tt st
    ∧ get_addr_width (Some (module_of_class ELFCLASS64)) st = (8, st).
Proof.
  destruct (listing_fixes_address_width listing_options
              (mixed_modules_target 0) (module_of_class ELFCLASS32) "a.out"
              4096 [(module_of_class ELFCLASS64, "libc.so", 8192)]
              eq_refl eq_refl eq_refl) as (st & Hrun & _ & Hw).
  exists st. split; [exact Hrun|]. exact (Hw _).
Defined.

(** X17: with [-l], a failure of [dwfl_getmodules] is fatal: the modules
    it did give are listed, one diagnostic is recorded, and the process
    exits with status 2 before any thread is walked. *)
Theorem module_listing_failure_is_fatal :
  ∀ (opts : Options) (env : Dwfl),
    show_modules opts = true →
    dwfl_getmodules_result env ≠ 0 →
    let listed :=
      (getmodules_loop module_callback (dwfl_modules env) 0
         (printf ("PID " +:+ Fmt.dec (dwfl_pid env) +:+ " - "
                  +:+ process_or_core opts +:+ " module memory map"
                  +:+ Fmt.newline) initial_globals)).2 in
    ∃ st,
      main opts env = Halt (Exit EXIT_BAD) st
      ∧ stdout st = stdout listed
      ∧ stderr st = ["dwfl_getmodules: " +:+ dwfl_errmsg env (-1)]
      ∧ error_message_count st = 1%nat
      ∧ frames_shown st = false.
Proof.
  intros opts env Hshow Hres listed.
  unfold main, main_collect, main_list_modules. rewrite Hshow.
  unfold dwfl_getmodules.
  set (st0 := printf _ initial_globals) in *.
  assert (Hsame : ∀ mods z1 z2 st,
            (getmodules_loop module_callback mods z1 st).2
            = (getmodules_loop module_callback mods z2 st).2).
  { induction mods as [|[[m name] start] mods IH]; intros z1 z2 st;
      cbn [getmodules_loop]; [done|].
    destruct (module_callback m name start st) as [r st1].
    destruct (r =? DWARF_CB_OK); [apply IH|done]. }
  pose proof (getmodules_loop_result (dwfl_modules env)
                (dwfl_getmodules_result env) st0) as Hr.
  pose proof (getmodules_loop_report (dwfl_modules env)
                (dwfl_getmodules_result env) st0) as (R1 & R2 & R3).
  pose proof (Hsame (dwfl_modules env) (dwfl_getmodules_result env) 0 st0)
    as Hl.
  fold listed in Hl.
  destruct (getmodules_loop module_callback (dwfl_modules env)
              (dwfl_getmodules_result env) st0) as [r st1].
  cbn [fst snd] in *. subst r.
  apply Z.eqb_neq in Hres. rewrite Hres. cbn [negb].
  rewrite error_bad. eexists. split; [reflexivity|].
  cbn. rewrite R1, R2, R3, Hl. done.
Qed.

Lemma module_listing_failure_is_fatal_witness :
  exit_status (main listing_options (mixed_modules_target (-1)))
  = Some EXIT_BAD.
Proof.
  destruct (module_listing_failure_is_fatal listing_options
              (mixed_modules_target (-1)) eq_refl)
    as (st & Hrun & _).
  - discriminate.
  - rewrite Hrun. reflexivity.
Defined.

(** ** The frame buffer between threads *)

Lemma take_agree {A} (b1 b2 : list A) (j k : nat) :
  take k b1 = take k b2 → (j ≤ k)%nat → take j b1 = take j b2.
Proof.
  intros H Hle.
  replace j with (j `min` k)%nat by lia.
  by rewrite <- !take_take, H.
Qed.

Lemma wrap_int_le x : 0 ≤ x → wrap_int x ≤ x.
Proof.
  intros Hx. unfold wrap_int.
  pose proof (Z.mod_le (x + 2 ^ 31) (2 ^ 32) ltac:(lia) ltac:(lia)). lia.
Qed.

Lemma frame_callback_same_capture opts env s fs1 fs2 st :
  same_capture fs1 fs2 →
  match frame_callback opts env s fs1 st, frame_callback opts env s fs2 st
  with
  | Ret (r1, fs1') st1, Ret (r2, fs2') st2 =>
      r1 = r2 ∧ st1 = st2 ∧ same_capture fs1' fs2'
  | Halt s1 st1, Halt s2 st2 => s1 = s2 ∧ st1 = st2
  | _, _ => False
  end.
Proof.
  intros (Hfr & Ha & Hlen & Hcap). unfold frame_callback. cbv zeta.
  destruct s as [p act|e]; [|by repeat split].
  rewrite <- Hfr, <- Ha, <- Hlen.
  destruct (Z.ltb_spec (frames fs1) 0); cbn [orb]; [done|].
  destruct (Z.leb_spec (Z.of_nat (length (frame fs1))) (frames fs1));
    [done|].
  set (buf1 := <[Z.to_nat (frames fs1) := mk_frame p act]> (frame fs1)).
  set (buf2 := <[Z.to_nat (frames fs1) := mk_frame p act]> (frame fs2)).
  set (n := wrap_int (frames fs1 + 1)).
  assert (Hn : (Z.to_nat n ≤ S (Z.to_nat (frames fs1)))%nat).
  { pose proof (wrap_int_le (frames fs1 + 1) ltac:(lia)). subst n. lia. }
  assert (Hstore : take (S (Z.to_nat (frames fs1))) buf1
                   = take (S (Z.to_nat (frames fs1))) buf2).
  { subst buf1 buf2.
    pose proof (captured_frames_store fs1 (mk_frame p act) ltac:(lia)) as H1.
    pose proof (captured_frames_store fs2 (mk_frame p act) ltac:(lia)) as H2.
    rewrite <- Hfr in H2.
    replace (Z.to_nat (frames fs1 + 1)) with (S (Z.to_nat (frames fs1)))
      in H1, H2 by lia.
    rewrite H1, H2. by rewrite Hcap. }
  assert (Hbuf : length buf1 = length buf2).
  { subst buf1 buf2. by rewrite !length_insert. }
  assert (Hsame : same_capture (mk_frames n (allocated fs1) buf1)
                               (mk_frames n (allocated fs1) buf2)).
  { repeat split; [done|]. unfold captured_frames. cbn [frames frame].
    by eapply take_agree. }
  destruct (n =? maxframes opts); [by split|].
  destruct (n =? allocated fs1); [|by split].
  unfold realloc.
  destruct (alloc_ok env _); [|by repeat split].
  set (m := Z.to_nat _).
  repeat split; cbn [frames allocated frame].
  - rewrite !length_app, !length_take, !length_replicate. lia.
  - unfold captured_frames. cbn [frames frame].
    rewrite !take_app, !length_take, !take_take, <- Hbuf. f_equal.
    eapply take_agree; [exact Hstore|lia].
Qed.

Lemma getframes_loop_same_capture opts env states :
  ∀ end_errno fs1 fs2 st,
    same_capture fs1 fs2 →
    match getframes_loop (frame_callback opts env) states end_errno fs1 st,
          getframes_loop (frame_callback opts env) states end_errno fs2 st
    with
    | Ret (r1, e1, fs1') st1, Ret (r2, e2, fs2') st2 =>
        r1 = r2 ∧ e1 = e2 ∧ st1 = st2 ∧ same_capture fs1' fs2'
    | Halt s1 st1, Halt s2 st2 => s1 = s2 ∧ st1 = st2
    | _, _ => False
    end.
Proof.
  induction states as [|s states IH]; intros e fs1 fs2 st Hsame;
    cbn [getframes_loop]; [by split|].
  pose proof (frame_callback_same_capture opts env s fs1 fs2 st Hsame) as Hcb.
  destruct (frame_callback opts env s fs1 st) as [[r1 fs1'] st1|s1 st1],
    (frame_callback opts env s fs2 st) as [[r2 fs2'] st2|s2 st2]; try done.
  destruct Hcb as (<- & <- & Hsame').
  destruct (r1 =? DWARF_CB_OK); [by apply IH|by split].
Qed.

Lemma print_frames_same_capture opts env fs1 fs2 tid dwflerr what st :
  same_capture fs1 fs2 →
  print_frames opts env fs1 tid dwflerr what st
  = print_frames opts env fs2 tid dwflerr what st.
Proof.
  intros (Hfr & Ha & Hlen & Hcap). unfold print_frames. cbv zeta.
  rewrite <- Hfr, <- Hcap.
  destruct (Z.ltb_spec 0 (frames fs1)); [|done].
  assert (Hlast : frame fs1 !! Z.to_nat (to_unsigned (frames fs1 - 1))
                  = frame fs2 !! Z.to_nat (to_unsigned (frames fs1 - 1))).
  { assert (Hi : (Z.to_nat (to_unsigned (frames fs1 - 1))
                  < Z.to_nat (frames fs1))%nat).
    { unfold to_unsigned.
      pose proof (Z.mod_le (frames fs1 - 1) (2 ^ 32) ltac:(lia) ltac:(lia)).
      pose proof (Z.mod_pos_bound (frames fs1 - 1) (2 ^ 32) ltac:(lia)).
      lia. }
    rewrite <- (lookup_take_lt (frame fs1) _ _ Hi),
      <- (lookup_take_lt (frame fs2) _ _ Hi).
    unfold captured_frames in Hcap. rewrite <- Hfr in Hcap.
    by rewrite Hcap. }
  by rewrite Hlast.
Qed.

(** X19: a thread's output does not depend on what the buffer held
    before.  [thread_callback] run on two buffers of the same capacity
    leaves the same result and the same program state (output, diagnostics,
    flags), whatever the slots contain and whatever the frame count of the
    previous thread was; this holds with and without a ceiling, also when
    the walk ends the process. *)
Theorem thread_output_independent_of_buffer :
  ∀ (opts : Options) (env : Dwfl) (t : Dwfl_Thread)
    (fs1 fs2 : struct_frames) (st : Globals),
    allocated fs1 = allocated fs2 →
    length (frame fs1) = length (frame fs2) →
    outcome (thread_callback opts env t fs1 st)
    = outcome (thread_callback opts env t fs2 st).
Proof.
  intros opts env t fs1 fs2 st Ha Hlen.
  unfold thread_callback, dwfl_thread_getframes. cbv zeta.
  pose proof (getframes_loop_same_capture opts env (thread_unwound t)
                (thread_end_errno t)
                (mk_frames 0 (allocated fs1) (frame fs1))
                (mk_frames 0 (allocated fs2) (frame fs2)) st) as Hloop.
  destruct (getframes_loop _ _ _ (mk_frames 0 (allocated fs1) _) _)
    as [[[r1 e1] fs1'] st1|s1 st1],
    (getframes_loop _ _ _ (mk_frames 0 (allocated fs2) _) _)
    as [[[r2 e2] fs2'] st2|s2 st2].
  - destruct Hloop as (<- & <- & <- & Hsame); [by repeat split|].
    destruct (getframes_err r1 e1); [|done].
    cbn [outcome]. f_equal. by apply print_frames_same_capture.
  - destruct Hloop. by repeat split.
  - destruct Hloop. by repeat split.
  - destruct Hloop as [<- <-]; [by repeat split|done].
Qed.

Lemma thread_output_independent_of_buffer_witness :
  outcome (thread_callback (options_with_maxframes 4) (bare_target 1 [])
                           scenario_A_thread used_buffer initial_globals)
  = outcome (thread_callback (options_with_maxframes 4) (bare_target 1 [])
                             scenario_A_thread (fresh_buffer 4)
                             initial_globals).
Proof.
  apply thread_output_independent_of_buffer; reflexivity.
Defined.

(** ** Memory safety without a ceiling *)

Lemma realloc_length env buf bytes buf' :
  realloc env buf bytes = Some buf' →
  length buf' = Z.to_nat (bytes / sizeof_struct_frame).
Proof.
  unfold realloc. destruct (alloc_ok env bytes); [|done].
  intros [= <-]. rewrite length_app, length_take, length_replicate. lia.
Qed.

(** Without a ceiling the walk of a thread never stores outside the buffer,
    whatever the allocator does: the buffer is doubled in time, or the
    process exits. *)
Lemma getframes_loop_unbounded_safe opts env states :
  maxframes opts = 0 →
  ∀ end_errno fs st,
    0 ≤ frames fs < allocated fs →
    Z.of_nat (length (frame fs)) = allocated fs →
    frames fs + Z.of_nat (length states) < 2 ^ 30 →
    match getframes_loop (frame_callback opts env) states end_errno fs st with
    | Ret (r, e, fs') st' =>
        is_Some (getframes_err r e)
        ∧ 0 < allocated fs'
        ∧ Z.of_nat (length (frame fs')) = allocated fs'
    | Halt s _ => s = Exit EXIT_BAD
    end.
Proof.
  intros Hno.
  induction states as [|s states IH]; intros e fs st Hnr Hlen Hsmall;
    cbn [getframes_loop length] in *.
  - split; [|split; [lia|done]].
    unfold getframes_err. by destruct (e =? 0).
  - destruct s as [p act|e'].
    2:{ cbn [frame_callback]. change (-1 =? DWARF_CB_OK) with false.
        cbn match. split; [done|]. split; [lia|done]. }
    rewrite frame_callback_pc by (unfold INT_MAX; lia).
    cbv zeta. rewrite Hno.
    destruct (Z.eqb_spec (frames fs + 1) 0); [lia|].
    set (buf := <[Z.to_nat (frames fs) := mk_frame p act]> (frame fs)).
    assert (Hbuf : Z.of_nat (length buf) = allocated fs).
    { subst buf. by rewrite length_insert. }
    destruct (Z.eqb_spec (frames fs + 1) (allocated fs)) as [Hfull|Hroom].
    + assert (Hw : wrap_int (allocated fs * 2) = 2 * allocated fs).
      { rewrite wrap_int_id; [lia|]. unfold in_int, INT_MAX. lia. }
      rewrite Hw.
      destruct (realloc env buf _) as [buf'|] eqn:Hre; [|done].
      apply realloc_length in Hre.
      rewrite wrap_u64_id in Hre
        by (unfold in_u64, sizeof_struct_frame; lia).
      unfold sizeof_struct_frame in Hre.
      replace (16 * (2 * allocated fs)) with ((2 * allocated fs) * 16)
        in Hre by lia.
      rewrite Z.div_mul in Hre by lia.
      change (DWARF_CB_OK =? DWARF_CB_OK) with true. cbn match.
      apply IH; cbn [frames allocated frame]; lia.
    + change (DWARF_CB_OK =? DWARF_CB_OK) with true. cbn match.
      apply IH; cbn [frames allocated frame]; lia.
Qed.

Lemma thread_callback_unbounded_safe opts env t fs st :
  maxframes opts = 0 →
  0 < allocated fs →
  Z.of_nat (length (frame fs)) = allocated fs →
  Z.of_nat (length (thread_unwound t)) < 2 ^ 30 →
  match thread_callback opts env t fs st with
  | Ret (r, fs') _ =>
      r = DWARF_CB_OK
      ∧ 0 < allocated fs'
      ∧ Z.of_nat (length (frame fs')) = allocated fs'
  | Halt s _ => s = Exit EXIT_BAD
  end.
Proof.
  intros Hno Hpos Hlen Hsmall.
  unfold thread_callback, dwfl_thread_getframes. cbv zeta.
  pose proof (getframes_loop_unbounded_safe opts env (thread_unwound t) Hno
                (thread_end_errno t) (mk_frames 0 (allocated fs) (frame fs))
                st ltac:(cbn; lia) Hlen ltac:(cbn; lia)) as Hloop.
  destruct (getframes_loop _ _ _ _ _) as [[[r e] fs'] st'|]; [|done].
  destruct Hloop as ([err ->] & Ha & Hl). done.
Qed.

Lemma getthreads_loop_unbounded_safe opts env result threads :
  maxframes opts = 0 →
  Forall (λ t, Z.of_nat (length (thread_unwound t)) < 2 ^ 30) threads →
  ∀ fs st,
    0 < allocated fs →
    Z.of_nat (length (frame fs)) = allocated fs →
    match getthreads_loop (thread_callback opts env) threads result fs st with
    | Ret (r, _) _ => r = result
    | Halt s _ => s = Exit EXIT_BAD
    end.
Proof.
  intros Hno. induction 1 as [|t rest Ht Hrest IH]; intros fs st Hpos Hlen;
    cbn [getthreads_loop]; [done|].
  pose proof (thread_callback_unbounded_safe opts env t fs st Hno Hpos Hlen
                Ht) as Hcb.
  destruct (thread_callback opts env t fs st) as [[r fs'] st'|]; [|done].
  destruct Hcb as (-> & Ha & Hl).
  change (DWARF_CB_OK =? DWARF_CB_OK) with true. cbn match. by apply IH.
Qed.

Lemma main_without_ceiling_exits opts env :
  maxframes opts = 0 →
  Forall (λ t, Z.of_nat (length (thread_unwound t)) < 2 ^ 30)
         (dwfl_threads env) →
  show_one_tid opts = true
  ∨ dwfl_getthreads_result env = 0 ∨ dwfl_getthreads_result env = 1
  ∨ dwfl_getthreads_result env = -1 →
  ∃ c, exit_status (main opts env) = Some c
       ∧ (c = EXIT_OK ∨ c = EXIT_ERROR ∨ c = EXIT_BAD).
Proof.
  intros Hno Hthreads Hres.
  assert (Hexit : ∀ st, ∃ c, exit_status (main_exit env st) = Some c
                             ∧ (c = EXIT_OK ∨ c = EXIT_ERROR ∨ c = EXIT_BAD)).
  { intros st. unfold main_exit. destruct (frames_shown st); cbn.
    - destruct (Nat.eqb _ _); cbn; eauto.
    - eauto. }
  assert (Hbad : ∀ st, ∃ c, exit_status (Halt (Exit EXIT_BAD) st) = Some c
                            ∧ (c = EXIT_OK ∨ c = EXIT_ERROR ∨ c = EXIT_BAD)).
  { intros st. cbn. eauto. }
  unfold main, main_collect.
  destruct (main_list_modules opts env initial_globals) as [[] st1|s1 st1]
    eqn:Hm.
  2:{ revert Hm. unfold main_list_modules.
      destruct (show_modules opts); [|done].
      destruct (dwfl_getmodules _ _ _) as [r st2].
      destruct (negb (r =? 0)); [|done].
      rewrite error_bad. intros [= <- <-]. apply Hbad. }
  unfold main_alloc_frames, initial_allocated. cbv zeta. rewrite Hno.
  cbn [Z.eqb].
  destruct (malloc env _) as [buf|] eqn:Hbuf;
    [|rewrite error_bad; apply Hbad].
  apply realloc_length in Hbuf.
  assert (Hlen : Z.of_nat (length buf) = 2048) by (rewrite Hbuf; done).
  unfold main_show_threads.
  destruct (show_one_tid opts) eqn:Hone.
  - unfold dwfl_getthread_frames.
    destruct (List.find _ _) as [t|] eqn:Hfind.
    + apply find_some in Hfind as [Hin _].
      pose proof (proj1 (List.Forall_forall _ _) Hthreads t Hin) as Ht.
      cbn beta in Ht.
      unfold dwfl_thread_getframes.
      pose proof (getframes_loop_unbounded_safe opts env (thread_unwound t)
                    Hno (thread_end_errno t) (mk_frames 0 2048 buf) st1
                    ltac:(cbn; lia) Hlen ltac:(cbn; lia)) as Hloop.
      destruct (getframes_loop _ _ _ _ _) as [[[r e] fs'] st'|s st'].
      * destruct Hloop as ([err ->] & _). apply Hexit.
      * subst s. apply Hbad.
    + cbn [getframes_err Z.eqb orb]. apply Hexit.
  - unfold dwfl_getthreads.
    set (st0 := printf _ st1).
    pose proof (getthreads_loop_unbounded_safe opts env
                  (dwfl_getthreads_result env) (dwfl_threads env) Hno
                  Hthreads (mk_frames 0 2048 buf) st0 ltac:(cbn; lia) Hlen)
      as Hloop.
    destruct (getthreads_loop _ _ _ _ _) as [[r fs'] st'|s st'].
    + subst r.
      destruct Hres as [?|[-> | [-> | ->]]]; [done|..]; cbn; apply Hexit.
    + subst s. apply Hbad.
Qed.

(** X20: without a ceiling ([-n 0]) no store leaves the frame buffer
    either, whatever the allocator does, as long as no thread has [2^30]
    unwinder states or more: the buffer is doubled before it is full, or the
    process exits.  The run ends with exit status 0, 1 or 2, never by
    [abort ()]. *)
Theorem run_without_ceiling_exits_0_1_2 :
  ∀ (opts : Options) (env : Dwfl),
    maxframes opts = 0 →
    Forall (λ t, Z.of_nat (length (thread_unwound t)) < 2 ^ 30)
           (dwfl_threads env) →
    show_one_tid opts = true
    ∨ dwfl_getthreads_result env = 0 ∨ dwfl_getthreads_result env = 1
    ∨ dwfl_getthreads_result env = -1 →
    ∃ c, exit_status (main opts env) = Some c
         ∧ (c = EXIT_OK ∨ c = EXIT_ERROR ∨ c = EXIT_BAD).
Proof. intros opts env. apply main_without_ceiling_exits. Qed.

Lemma run_without_ceiling_exits_0_1_2_witness :
  ∃ c, exit_status (main (options_with_maxframes 0) short_of_memory_target)
       = Some c
       ∧ (c = EXIT_OK ∨ c = EXIT_ERROR ∨ c = EXIT_BAD).
Proof.
  apply run_without_ceiling_exits_0_1_2.
  - reflexivity.
  - repeat constructor.
  - right. left. reflexivity.
Defined.

(** ** The program *)

(** X21: the program always ends by [exit] or by returning from [main],
    whatever the command line, the unwinder, the debug information and the
    allocator give, as long as no thread has [2^30] unwinder states or more
    and [dwfl_getthreads] returns 0, 1 or -1: never by [abort ()], and no
    store leaves the frame buffer.  Its status is 0, 1, 2 or 64. *)
Theorem program_exits_0_1_2_64 :
  ∀ (env : Dwfl) (host : Host) (args : list (Z * string)) (demangle : bool),
    Forall is_option args →
    Forall (λ t, Z.of_nat (length (thread_unwound t)) < 2 ^ 30)
           (dwfl_threads env) →
    dwfl_getthreads_result env = 0 ∨ dwfl_getthreads_result env = 1
    ∨ dwfl_getthreads_result env = -1 →
    ∃ code, exit_status (stack env host args demangle) = Some code
            ∧ (code = EXIT_OK ∨ code = EXIT_ERROR ∨ code = EXIT_BAD
               ∨ code = EXIT_USAGE).
Proof.
  intros env host args demangle Hargs Hthreads Hres.
  assert (Hv : valid_options (cmd_options (initial_cmdline demangle))).
  { split; [done|]. unfold INT_MAX. cbn. lia. }
  unfold stack, argp_parse.
  destruct (parse_options_accepts env host args (initial_cmdline demangle)
              initial_globals Hargs Hv)
    as [(c & -> & [_ Hmax] & _)|(s & st & msg & -> & _ & _ & Hs)].
  - cbn [and_then].
    assert (Hmain : ∃ code,
              exit_status (main (cmd_options c) env) = Some code
              ∧ (code = EXIT_OK ∨ code = EXIT_ERROR ∨ code = EXIT_BAD)).
    { destruct (Z.eq_dec (maxframes (cmd_options c)) 0) as [H0|H0].
      - apply main_without_ceiling_exits; [done|done|by right].
      - apply main_under_ceiling_exits; [lia|by right]. }
    destruct Hmain as (code & Hcode & Hcases).
    exists code. split; [exact Hcode|]. tauto.
  - cbn [and_then exit_status].
    destruct Hs as [[-> _]|[-> _]]; eexists; split; eauto.
Qed.

Lemma program_exits_0_1_2_64_witness :
  ∃ code,
    exit_status (stack (bare_target 1 [scenario_A_thread]) sample_host
                       [(key_of "p", "42"); (key_of "n", "0")] true)
    = Some code
    ∧ (code = EXIT_OK ∨ code = EXIT_ERROR ∨ code = EXIT_BAD
       ∨ code = EXIT_USAGE).
Proof.
  apply program_exits_0_1_2_64.
  - repeat constructor;
      unfold is_option, option_keys; cbn [options fmap list_fmap fst];
      repeat (first [apply list_elem_of_here | apply list_elem_of_further]).
  - repeat constructor.
  - left. reflexivity.
Defined.

(** ** Diagnostics and the exit status *)

Lemma accounted_ret {A} st (a : A) st' :
  counted st' →
  (error_message_count st ≤ error_message_count st')%nat →
  accounted st (Ret a st').
Proof. by split. Qed.

Lemma accounted_error {A} env errnum msg (a : A) st0 st :
  counted st →
  (error_message_count st0 ≤ error_message_count st)%nat →
  accounted st0 (error env EXIT_BAD errnum msg a st).
Proof.
  intros Hc Hle. rewrite error_bad. unfold accounted, counted in *. cbn.
  rewrite length_app. cbn. lia.
Qed.

Lemma accounted_halt_bad {A} env errnum msg st0 st :
  counted st →
  (error_message_count st0 ≤ error_message_count st)%nat →
  accounted st0 (@Halt A (Exit EXIT_BAD) (error_report env errnum msg st)).
Proof.
  intros Hc Hle. unfold accounted, counted in *. cbn.
  rewrite length_app. cbn. lia.
Qed.

Lemma accounted_trans {B} st1 st2 (k : Res B) :
  (error_message_count st1 ≤ error_message_count st2)%nat →
  accounted st2 k → accounted st1 k.
Proof.
  intros Hle (Hc & Hle' & Hex). split; [done|]. split; [lia|].
  destruct k as [|[]]; try done. lia.
Qed.

Lemma same_report_counted st st' :
  same_report st st' → counted st →
  counted st' ∧ error_message_count st' = error_message_count st.
Proof. unfold counted. intros (_ & -> & ->). done. Qed.

Lemma error_report_counted env errnum msg st :
  counted st →
  counted (error_report env errnum msg st)
  ∧ error_message_count (error_report env errnum msg st)
    = S (error_message_count st).
Proof.
  unfold counted. intros Hc. cbn. rewrite length_app. cbn. lia.
Qed.

Lemma print_frames_counted opts env fs tid dwflerr what st :
  counted st →
  counted (print_frames opts env fs tid dwflerr what st)
  ∧ (error_message_count st
     ≤ error_message_count (print_frames opts env fs tid dwflerr what st))%nat.
Proof.
  intros Hc. unfold print_frames. cbv zeta.
  set (st1 := printf _ (if 0 <? frames fs then _ else _)).
  assert (H1 : counted st1
               ∧ error_message_count st1 = error_message_count st).
  { subst st1. by destruct (0 <? frames fs). }
  destruct H1 as [Hc1 He1].
  pose proof (print_frames_loop_report opts env (captured_frames fs) 0 st1)
    as Hrep.
  destruct (print_frames_loop _ _ _ _ _) as [nr st2]. cbn [snd] in Hrep.
  destruct (same_report_counted st1 st2 Hrep Hc1) as [Hc2 He2].
  repeat match goal with
  | |- context [if ?b then _ else _] => destruct b
  end;
    first
      [ split; [done|lia]
      | match goal with
        | |- context [error_report env 0 ?m st2] =>
            destruct (error_report_counted env 0 m st2 Hc2) as [? ->];
            split; [done|lia]
        end ].
Qed.

Lemma frame_callback_accounted opts env state fs st :
  counted st → accounted st (frame_callback opts env state fs st).
Proof.
  intros Hc. unfold frame_callback. cbv zeta.
  destruct state; [|by apply accounted_ret].
  repeat match goal with
  | |- context [if ?b then _ else _] => destruct b
  | |- context [match realloc ?a ?b ?c with _ => _ end] =>
      destruct (realloc a b c)
  end;
    try (by apply accounted_ret);
    try (by apply accounted_error).
  by split.
Qed.

Lemma getframes_loop_accounted opts env states :
  ∀ end_errno fs st,
    counted st →
    accounted st (getframes_loop (frame_callback opts env) states end_errno
                                 fs st).
Proof.
  induction states as [|s states IH]; intros e fs st Hc;
    cbn [getframes_loop]; [by apply accounted_ret|].
  pose proof (frame_callback_accounted opts env s fs st Hc) as Hcb.
  destruct (frame_callback opts env s fs st) as [[r fs'] st'|]; [|exact Hcb].
  destruct Hcb as (Hc' & Hle & _). cbn [final_globals] in *.
  destruct (r =? DWARF_CB_OK); [|by apply accounted_ret].
  eapply (accounted_trans st st'); [done|by apply IH].
Qed.

Lemma thread_callback_accounted opts env t fs st :
  counted st → accounted st (thread_callback opts env t fs st).
Proof.
  intros Hc. unfold thread_callback, dwfl_thread_getframes. cbv zeta.
  pose proof (getframes_loop_accounted opts env (thread_unwound t)
                (thread_end_errno t) (mk_frames 0 (allocated fs) (frame fs))
                st Hc) as Hg.
  destruct (getframes_loop _ _ _ _ _) as [[[r e] fs'] st'|]; [|exact Hg].
  destruct Hg as (Hc' & Hle & _). cbn [final_globals] in *.
  destruct (getframes_err r e) as [err|]; [|by split].
  destruct (print_frames_counted opts env fs' (dwfl_thread_tid t) err
              "dwfl_thread_getframes" st' Hc') as [Hp Hple].
  apply accounted_ret; [done|lia].
Qed.

Lemma getthreads_loop_accounted opts env result threads :
  ∀ fs st,
    counted st →
    accounted st (getthreads_loop (thread_callback opts env) threads result
                                  fs st).
Proof.
  induction threads as [|t rest IH]; intros fs st Hc;
    cbn [getthreads_loop]; [by apply accounted_ret|].
  pose proof (thread_callback_accounted opts env t fs st Hc) as Hcb.
  destruct (thread_callback opts env t fs st) as [[r fs'] st'|]; [|exact Hcb].
  destruct Hcb as (Hc' & Hle & _). cbn [final_globals] in *.
  destruct (r =? DWARF_CB_OK); [|by apply accounted_ret].
  eapply (accounted_trans st st'); [done|by apply IH].
Qed.

Lemma main_collect_accounted opts env st :
  counted st → accounted st (main_collect opts env st).
Proof.
  intros Hc. unfold main_collect.
  assert (Hm : accounted st (main_list_modules opts env st)).
  { unfold main_list_modules.
    destruct (show_modules opts); [|by apply accounted_ret].
    unfold dwfl_getmodules.
    set (st0 := printf _ st).
    pose proof (getmodules_loop_report (dwfl_modules env)
                  (dwfl_getmodules_result env) st0) as Hrep.
    destruct (getmodules_loop _ _ _ _) as [r st1]. cbn [snd] in Hrep.
    destruct (same_report_counted st0 st1 Hrep Hc) as [Hc1 He1].
    change (error_message_count st0) with (error_message_count st) in He1.
    destruct (negb (r =? 0));
      [apply accounted_error|apply accounted_ret]; try done; lia. }
  destruct (main_list_modules opts env st) as [[] st1|]; [|exact Hm].
  destruct Hm as (Hc1 & Hle1 & _). cbn [final_globals] in *.
  eapply (accounted_trans st st1); [done|].
  unfold main_alloc_frames. cbv zeta.
  destruct (malloc env _);
    [|rewrite error_bad; by apply accounted_halt_bad].
  unfold main_show_threads.
  destruct (show_one_tid opts).
  - unfold dwfl_getthread_frames, dwfl_thread_getframes.
    assert (Hprint : ∀ fs' err st2,
              counted st2 →
              (error_message_count st1 ≤ error_message_count st2)%nat →
              accounted st1
                (Ret tt (print_frames opts env fs' (pid opts) err
                                      "dwfl_getthread_frames" st2))).
    { intros fs' err st2 Hc2 Hle2.
      destruct (print_frames_counted opts env fs' (pid opts) err
                  "dwfl_getthread_frames" st2 Hc2) as [Hp Hple].
      apply accounted_ret; [done|lia]. }
    destruct (List.find _ _) as [t|].
    + pose proof (getframes_loop_accounted opts env (thread_unwound t)
                    (thread_end_errno t) (mk_frames 0 (initial_allocated opts) l)
                    st1 Hc1) as Hg.
      destruct (getframes_loop _ _ _ _ _) as [[[r e] fs'] st'|]; [|exact Hg].
      destruct Hg as (Hc' & Hle & _). cbn [final_globals] in *.
      destruct (getframes_err r e); [by apply Hprint|by split].
    + destruct (getframes_err _ _); [by apply Hprint|by split].
  - unfold dwfl_getthreads.
    set (st0 := printf _ st1).
    pose proof (getthreads_loop_accounted opts env
                  (dwfl_getthreads_result env) (dwfl_threads env)
                  (mk_frames 0 (initial_allocated opts) l) st0 Hc1) as Hg.
    destruct (getthreads_loop _ _ _ _ _) as [[r fs'] st'|]; [|exact Hg].
    destruct Hg as (Hc' & Hle & _). cbn [final_globals] in *.
    change (error_message_count st0) with (error_message_count st1) in Hle.
    destruct (_ || _); [by apply accounted_ret|].
    destruct (r =? -1); [|by split].
    destruct (error_report_counted env 0
                ("dwfl_getthreads: " +:+ dwfl_errmsg env (-1)) st' Hc')
      as [Hc2 He2].
    apply accounted_ret; [done|lia].
Qed.

(** X22: the exit status accounts for standard error.  At the end of any
    run of [main] every diagnostic counted is one record on standard error;
    a run that ends with status 0 has written nothing there and has set
    [frames_shown], and a run that ends with status 1 or 2 has written at
    least one diagnostic. *)
Theorem exit_status_accounts_for_stderr :
  ∀ (opts : Options) (env : Dwfl) (c : Z),
    exit_status (main opts env) = Some c →
    let st := final_globals (main opts env) in
    counted st
    ∧ (c = EXIT_OK → stderr st = [] ∧ frames_shown st = true)
    ∧ (c ≠ EXIT_OK → stderr st ≠ []).
Proof.
  intros opts env c. unfold main.
  pose proof (main_collect_accounted opts env initial_globals eq_refl) as Hm.
  destruct (main_collect opts env initial_globals) as [[] st|s st] eqn:Hrun.
  - destruct Hm as (Hc & _ & _). cbn [final_globals] in Hc.
    unfold main_exit.
    destruct (frames_shown st) eqn:Hs; cbn [negb].
    + destruct (Nat.eqb_spec (error_message_count st) 0) as [H0|H0];
        cbn [negb exit_status final_globals]; intros [= <-].
      * split; [done|]. split; [|done]. intros _. split; [|done].
        unfold counted in Hc. rewrite H0 in Hc. by destruct (stderr st).
      * split; [done|]. split; [done|]. intros _ Hnil.
        unfold counted in Hc. rewrite Hnil in Hc. cbn in Hc. lia.
    + rewrite error_bad. cbn [exit_status final_globals]. intros [= <-].
      destruct (error_report_counted env 0 "Couldn't show any frames." st Hc)
        as [Hc' He'].
      split; [done|]. split; [done|]. intros _ Hnil.
      unfold counted in Hc'. rewrite Hnil, He' in Hc'. cbn in Hc'. lia.
  - destruct s as [code| |]; cbn [exit_status]; [|done|done].
    intros [= <-]. destruct Hm as (Hc & _ & Hlt).
    cbn [final_globals] in *. split; [done|]. split.
    + intros ->.
      by pose proof (main_collect_exits_bad opts env initial_globals _ _ Hrun
                       _ eq_refl).
    + intros _ Hnil. unfold counted in Hc. rewrite Hnil in Hc. cbn in Hc, Hlt.
      lia.
Qed.

Lemma exit_status_accounts_for_stderr_witness :
  stderr (final_globals (main (default_options 1 true)
                              (bare_target 1 [scenario_A_thread])))
  = [].
Proof.
  destruct (exit_status_accounts_for_stderr
              (default_options 1 true) (bare_target 1 [scenario_A_thread])
              EXIT_OK) as (_ & Hok & _).
  - vm_compute. reflexivity.
  - exact (proj1 (Hok eq_refl)).
Defined.
